(** * types-linq: the [MoreEnumerable] operators, the cached sequence and the
      ordered sequence

    The operators of [types_linq/more/more_enumerable.py] are embedded over a
    small model of Python's iteration protocol: iterables, iterators, generator
    frames that are resumed until their next [yield], callbacks that may raise,
    and a world that holds the one-shot iterators handed in by the caller
    together with a log of every pull and every callback invocation. *)

From stdpp Require Import base gmap sets list sorting.
From Stdlib Require Import ZArith.
From Stdlib Require String Ascii.

Local Open Scope Z_scope.
Local Open Scope nat_scope.

(* ===================================================================== *)
(** ** The Python runtime as far as the operators use it *)
(* ===================================================================== *)

Module Py.

(** Exceptions a caller-supplied function may raise.  [StopIteration] is
    singled out because the generator protocol treats it specially. *)
Inductive pyexn := StopIteration | PyError (tag : nat).

(** What a consumer of the library can observe as a raised exception. *)
Inductive fault :=
| EmptySequenceFault                  (* raised by [_raise_empty_sequence] *)
| UserCallbackFault (e : pyexn)       (* [e], raised by a callback, as it is *)
| GeneratorRuntimeError (cause : pyexn).
                                      (* RuntimeError("generator raised StopIteration") *)

(** Outcome of calling a caller-supplied function. *)
Inductive returns (B : Type) := Returns (b : B) | Raises (e : pyexn).
Global Arguments Returns {B}.
Global Arguments Raises {B}.

Inductive result (X : Type) := Ok (x : X) | Raise (f : fault) | OutOfFuel.
Global Arguments Ok {X}.
Global Arguments Raise {X}.
Global Arguments OutOfFuel {X}.

Section Runtime.
Context {A : Type}.

(** The log: every [next] on an input iterator and every callback call. *)
Inductive event :=
| Pulled
| Called (x : A)
| Called2 (x y : A)
| CalledIdx (x : A) (i : nat).

(** One-shot iterator objects owned by the caller live in [heap], each with
    the elements it has not produced yet. *)
Record world := World { heap : gmap nat (list A); trace : list event }.

(** An iterable is a container, which hands out a fresh iterator on every
    [iter], or an iterator object, for which [iter] returns the object. *)
Inductive iterable := FromList (l : list A) | FromIter (r : nat).

(** A fresh iterator is referenced by the frame that created it only, so
    its position is part of that frame. *)
Inductive iterator := ListIter (rest : list A) | SharedIter (r : nat).

Definition iter_ (src : iterable) : iterator :=
  match src with
  | FromList l => ListIter l
  | FromIter r => SharedIter r
  end.

Definition M (X : Type) : Type := world → result X * world.

Definition log (e : event) (w : world) : world :=
  World (heap w) (trace w ++ [e]).

(** The elements an iterator has still to produce. *)
Definition content (it : iterator) (w : world) : list A :=
  match it with
  | ListIter l => l
  | SharedIter r => default [] (heap w !! r)
  end.

(** [next(it)]: [None] stands for StopIteration. *)
Definition pull (it : iterator) : M (option A * iterator) := λ w,
  match it with
  | ListIter [] => (Ok (None, it), log Pulled w)
  | ListIter (x :: l) => (Ok (Some x, ListIter l), log Pulled w)
  | SharedIter r =>
      match heap w !! r with
      | Some (x :: l) =>
          (Ok (Some x, it), World (<[r := l]> (heap w)) (trace w ++ [Pulled]))
      | _ => (Ok (None, it), log Pulled w)
      end
  end.

Definition lift {B} (r : returns B) : M B := λ w,
  match r with
  | Returns b => (Ok b, w)
  | Raises e => (Raise (UserCallbackFault e), w)
  end.

Definition call {B} (f : A → returns B) (x : A) : M B := λ w,
  lift (f x) (log (Called x) w).

Definition call2 {B} (f : A → A → returns B) (x y : A) : M B := λ w,
  lift (f x y) (log (Called2 x y) w).

Definition call_idx {B} (f : A → nat → returns B) (x : A) (i : nat) : M B := λ w,
  lift (f x i) (log (CalledIdx x i) w).

Definition raise {X} (f : fault) : M X := λ w, (Raise f, w).
Definition out_of_fuel {X} : M X := λ w, (OutOfFuel, w).

Global Instance M_ret : MRet M := λ X x w, (Ok x, w).
Global Instance M_bind : MBind M := λ X Y k m w,
  match m w with
  | (Ok x, w') => k x w'
  | (Raise f, w') => (Raise f, w')
  | (OutOfFuel, w') => (OutOfFuel, w')
  end.

(** [for x in it: acc = body(x, acc)] *)
Fixpoint for_in {Acc} (fuel : nat) (it : iterator)
    (body : A → Acc → M Acc) (acc : Acc) : M Acc :=
  match fuel with
  | 0 => out_of_fuel
  | S fuel =>
      '(o, it') ← pull it;
      match o with
      | None => mret acc
      | Some x => acc' ← body x acc; for_in fuel it' body acc'
      end
  end.

(** [[*src]]: the elements of [src] as a list. *)
Definition unpack (fuel : nat) (src : iterable) : M (list A) :=
  for_in fuel (iter_ src) (λ x acc, mret (acc ++ [x])) [].

(** *** Generator objects

    A generator function's body runs from one [yield] to the next when the
    generator object is resumed.  [resume] is that piece of the body: it
    returns the yielded element and the frame at the [yield], or [None]
    when the body returns. *)
Class Generator (G : Type) := {
  resume : nat → G → M (option A * G);
  close : G → G
}.

(** What one [next(g)] gives the consumer. *)
Inductive step := Yield (x : A) | Stop | Fault (f : fault) | Unfinished.

(** An exception that leaves a generator body reaches the consumer as it
    is, except StopIteration, which the generator protocol replaces by a
    RuntimeError. *)
Definition leave_generator (f : fault) : fault :=
  match f with
  | UserCallbackFault StopIteration => GeneratorRuntimeError StopIteration
  | _ => f
  end.

(** [next(g)]: a generator whose body returned or raised is closed. *)
Definition next_ `{Generator G} (fuel : nat) (g : G) (w : world)
    : step * G * world :=
  match resume fuel g w with
  | (Ok (Some x, g'), w') => (Yield x, g', w')
  | (Ok (None, _), w') => (Stop, close g, w')
  | (Raise f, w') => (Fault (leave_generator f), close g, w')
  | (OutOfFuel, w') => (Unfinished, g, w')
  end.

(** How a traversal ended. *)
Inductive ending := Exhausted | Faulted (f : fault) | Cut.

(** A traversal: [next] until the generator stops or raises, at most
    [fuel] times; the elements produced, and how it ended. *)
Fixpoint traverse `{Generator G} (fuel n : nat) (g : G) (w : world)
    : list A * ending * world :=
  match n with
  | 0 => ([], Cut, w)
  | S n =>
      match next_ fuel g w with
      | (Yield x, g', w') =>
          let '(xs, e, w'') := traverse fuel n g' w' in (x :: xs, e, w'')
      | (Stop, _, w') => ([], Exhausted, w')
      | (Fault f, _, w') => ([], Faulted f, w')
      | (Unfinished, _, w') => ([], Cut, w')
      end
  end.

(** Two cursors advanced in the order a schedule gives ([true]: the first,
    [false]: the second); what each [next] gave, per cursor. *)
Fixpoint interleaved `{Generator G} (fuel : nat) (sched : list bool)
    (g1 g2 : G) (w : world) : list step * list step * world :=
  match sched with
  | [] => ([], [], w)
  | true :: sched =>
      let '(s, g1', w') := next_ fuel g1 w in
      let '(o1, o2, w'') := interleaved fuel sched g1' g2 w' in
      (s :: o1, o2, w'')
  | false :: sched =>
      let '(s, g2', w') := next_ fuel g2 w in
      let '(o1, o2, w'') := interleaved fuel sched g1 g2' w' in
      (o1, s :: o2, w'')
  end.

(** One cursor advanced [n] times on its own. *)
Fixpoint alone `{Generator G} (fuel n : nat) (g : G) (w : world)
    : list step * world :=
  match n with
  | 0 => ([], w)
  | S n =>
      let '(s, g', w') := next_ fuel g w in
      let '(o, w'') := alone fuel n g' w' in
      (s :: o, w'')
  end.

(** Modelled from the spec: the [Enumerable] base class ([enumerable.py] is
    not among the sources).  A sequence holds a factory; constructing it
    stores the factory and runs nothing, and [iter] calls the factory,
    which for a generator function creates the frame without running it. *)
Record Enumerable (G : Type) := MoreEnumerable { factory : unit → G }.
Global Arguments MoreEnumerable {G}.
Global Arguments factory {G}.

Definition construct {G} (inner : unit → G) : M (Enumerable G) :=
  mret (MoreEnumerable inner).

Definition get_iter {G} (e : Enumerable G) : M G := mret (factory e ()).

(** Materialize: evaluate the expression that builds the sequence, obtain
    a cursor and traverse it. *)
Definition materialize `{Generator G} (fuel n : nat)
    (m : M (Enumerable G)) (w : world) : list A * ending * world :=
  match (e ← m; get_iter e) w with
  | (Ok g, w') => traverse fuel n g w'
  | (Raise f, w') => ([], Faulted f, w')
  | (OutOfFuel, w') => ([], Cut, w')
  end.


(** Two full traversals of one sequence, one after the other. *)
Definition traverse_twice `{Generator G} (fuel n : nat)
    (m : M (Enumerable G)) (w : world)
    : (list A * ending) * (list A * ending) :=
  match (e ← m; g1 ← get_iter e; mret (e, g1)) w with
  | (Ok (e, g1), w0) =>
      let '(r1, w1) := traverse fuel n g1 w0 in
      match get_iter e w1 with
      | (Ok g2, w2) => (r1, (traverse fuel n g2 w2).1)
      | _ => (r1, ([], Cut))
      end
  | _ => (([], Cut), ([], Cut))
  end.

(** Two cursors over one sequence, advanced in the order of a schedule. *)
Definition two_cursors `{Generator G} (fuel : nat) (sched : list bool)
    (m : M (Enumerable G)) (w : world) : list step * list step :=
  match (e ← m; g1 ← get_iter e; g2 ← get_iter e; mret (g1, g2)) w with
  | (Ok (g1, g2), w0) => (interleaved fuel sched g1 g2 w0).1
  | _ => ([], [])
  end.

(** One cursor over a sequence, advanced [n] times. *)
Definition one_cursor `{Generator G} (fuel n : nat)
    (m : M (Enumerable G)) (w : world) : list step :=
  match (e ← m; get_iter e) w with
  | (Ok g, w0) => (alone fuel n g w0).1
  | _ => []
  end.

(** The world after a sequence was built, a cursor obtained and advanced
    [n] times. *)
Definition world_after `{Generator G} (fuel n : nat)
    (m : M (Enumerable G)) (w : world) : world :=
  match (e ← m; get_iter e) w with
  | (Ok g, w0) => (alone fuel n g w0).2
  | (_, w0) => w0
  end.
End Runtime.

Global Arguments event : clear implicits.
Global Arguments world : clear implicits.
Global Arguments iterable : clear implicits.
Global Arguments iterator : clear implicits.
Global Arguments M : clear implicits.
Global Arguments step : clear implicits.
Global Arguments Generator : clear implicits.

End Py.

(* ===================================================================== *)
(** ** [MoreEnumerable] *)
(* ===================================================================== *)

Module MoreEnumerable.
Import Py.

(** *** [aggregate_right], [for_each], [for_each2] *)
Section Eager.
Context {A : Type}.

(** Modelled from the spec: [Enumerable.reverse] ([enumerable.py] is not
    among the sources); iterating [self.reverse()] traverses the source to
    its end and then produces its elements last to first. *)
Definition reverse_ (fuel : nat) (self : iterable A) : M A (list A) :=
  xs ← unpack fuel self; mret (reverse xs).

(** Modelled from the spec: [Enumerable._raise_empty_sequence], which
    raises the fault of an operation that needs an element of an empty
    sequence. *)
Definition _raise_empty_sequence {X} : M A X := raise EmptySequenceFault.

(** The forms of [*args]: [(func)], [(seed, func)] and
    [(seed, func, result_selector)]. *)
Inductive aggregate_args :=
| Args1 (func : A → A → returns A)
| Args2 (seed : A) (func : A → A → returns A)
| Args3 (seed : A) (func : A → A → returns A) (result_selector : A → returns A).

(** [for elem in it: seed = func(elem, seed)] over the reversed copy. *)
Fixpoint fold_elems (func : A → A → returns A) (it : list A) (seed : A)
    : M A A :=
  match it with
  | [] => mret seed
  | elem :: it => seed' ← call2 func elem seed; fold_elems func it seed'
  end.

Definition aggregate_right (fuel : nat) (self : iterable A)
    (args : aggregate_args) : M A A :=
  it ← reverse_ fuel self;
  match args with
  | Args3 seed func result_selector =>
      seed' ← fold_elems func it seed; call result_selector seed'
  | Args2 seed func =>
      fold_elems func it seed
  | Args1 func =>
      match it with
      | [] => _raise_empty_sequence
      | seed :: it => fold_elems func it seed
      end
  end.

Definition for_each {B} (fuel : nat) (self : iterable A)
    (action : A → returns B) : M A unit :=
  for_in fuel (iter_ self) (λ elem _, _ ← call action elem; mret ()) ().

(** [enumerate] counts from 0; the accumulator is the next index. *)
Definition for_each2 {B} (fuel : nat) (self : iterable A)
    (action : A → nat → returns B) : M A unit :=
  _ ← for_in fuel (iter_ self)
        (λ elem i, _ ← call_idx action elem i; mret (S i)) 0;
  mret ().
End Eager.

(** *** [except_by], [distinct_by] *)
Section ExceptBy.
Context {A K : Type} `{Countable K}.

(** Where the frame of [inner] is suspended. *)
Inductive eb_pc :=
| EbStart
| EbYielded (s : gset K) (it : iterator A)
| EbDone.

Record eb_frame := EbFrame {
  eb_self : iterable A;
  eb_second : iterable A;
  eb_key_selector : A → returns K;
  eb_at : eb_pc
}.

Definition eb_goto (g : eb_frame) (pc : eb_pc) : eb_frame :=
  EbFrame (eb_self g) (eb_second g) (eb_key_selector g) pc.

(** [for elem in self: ...] up to the next [yield]. *)
Fixpoint eb_loop (fuel : nat) (g : eb_frame) (s : gset K) (it : iterator A)
    : M A (option A * eb_frame) :=
  match fuel with
  | 0 => out_of_fuel
  | S fuel =>
      '(o, it') ← pull it;
      match o with
      | None => mret (None, eb_goto g EbDone)
      | Some elem =>
          key ← call (eb_key_selector g) elem;
          if decide (key ∈ s) then eb_loop fuel g s it'
          else mret (Some elem, eb_goto g (EbYielded ({[key]} ∪ s) it'))
      end
  end.

Definition eb_resume (fuel : nat) (g : eb_frame) : M A (option A * eb_frame) :=
  match eb_at g with
  | EbStart =>
      s ← for_in fuel (iter_ (eb_second g))
            (λ x s, key ← call (eb_key_selector g) x; mret ({[key]} ∪ s)) ∅;
      eb_loop fuel g s (iter_ (eb_self g))
  | EbYielded s it => eb_loop fuel g s it
  | EbDone => mret (None, g)
  end.

Global Instance eb_generator : Generator A eb_frame := {
  resume := eb_resume;
  close g := eb_goto g EbDone
}.

Definition except_by (self second : iterable A) (key_selector : A → returns K)
    : M A (Enumerable eb_frame) :=
  construct (λ _, EbFrame self second key_selector EbStart).

Definition distinct_by (self : iterable A) (key_selector : A → returns K)
    : M A (Enumerable eb_frame) :=
  except_by self (FromList []) key_selector.
End ExceptBy.

(** *** [flatten2] *)
Section Flatten2.
Context {A : Type}.

(** The top of [stack] (the end of the Python list) is the head. *)
Inductive f2_pc :=
| F2Start
| F2Yielded (stack : list (iterator A)) (it : iterator A)
| F2Done.

Record f2_frame := F2Frame {
  f2_self : iterable A;
  f2_selector : A → returns (option (iterable A));
  f2_at : f2_pc
}.

Definition f2_goto (g : f2_frame) (pc : f2_pc) : f2_frame :=
  F2Frame (f2_self g) (f2_selector g) pc.

(** The inner [while True] with the [while stack] around it. *)
Fixpoint f2_loop (fuel : nat) (g : f2_frame) (stack : list (iterator A))
    (it : iterator A) : M A (option A * f2_frame) :=
  match fuel with
  | 0 => out_of_fuel
  | S fuel =>
      '(o, it') ← pull it;
      match o with
      | None =>
          match stack with
          | [] => mret (None, f2_goto g F2Done)
          | top :: stack' => f2_loop fuel g stack' top
          end
      | Some elem =>
          nested ← call (f2_selector g) elem;
          match nested with
          | Some n => f2_loop fuel g (it' :: stack) (iter_ n)
          | None => mret (Some elem, f2_goto g (F2Yielded stack it'))
          end
      end
  end.

Definition f2_resume (fuel : nat) (g : f2_frame) : M A (option A * f2_frame) :=
  match f2_at g with
  | F2Start => f2_loop fuel g [] (iter_ (f2_self g))
  | F2Yielded stack it => f2_loop fuel g stack it
  | F2Done => mret (None, g)
  end.

Global Instance f2_generator : Generator A f2_frame := {
  resume := f2_resume;
  close g := f2_goto g F2Done
}.

Definition flatten2 (self : iterable A)
    (selector : A → returns (option (iterable A)))
    : M A (Enumerable f2_frame) :=
  construct (λ _, F2Frame self selector F2Start).
End Flatten2.

(** *** [interleave] *)
Section Interleave.
Context {A : Type}.

Inductive il_pc :=
| IlStart
| IlYielded (its : list (iterator A)) (i : nat)
| IlDone.

Record il_frame := IlFrame {
  il_self : iterable A;
  il_iters : list (iterable A);
  il_at : il_pc
}.

Definition il_goto (g : il_frame) (pc : il_pc) : il_frame :=
  IlFrame (il_self g) (il_iters g) pc.

(** [while its: i = 0; while i < len(its): ...] entered at the test of the
    inner loop. *)
Fixpoint il_loop (fuel : nat) (g : il_frame) (its : list (iterator A))
    (i : nat) : M A (option A * il_frame) :=
  match fuel with
  | 0 => out_of_fuel
  | S fuel =>
      match its !! i with
      | Some it =>
          '(o, it') ← pull it;
          match o with
          | Some x => mret (Some x, il_goto g (IlYielded (<[i := it']> its) i))
          | None => il_loop fuel g (delete i its) i
          end
      | None =>
          match its with
          | [] => mret (None, il_goto g IlDone)
          | _ => il_loop fuel g its 0
          end
      end
  end.

Definition il_resume (fuel : nat) (g : il_frame) : M A (option A * il_frame) :=
  match il_at g with
  | IlStart =>
      let its := foldl (λ its iter', its ++ [iter_ iter'])
                   [iter_ (il_self g)] (il_iters g) in
      il_loop fuel g its 0
  | IlYielded its i => il_loop fuel g its (i + 1)
  | IlDone => mret (None, g)
  end.

Global Instance il_generator : Generator A il_frame := {
  resume := il_resume;
  close g := il_goto g IlDone
}.

Definition interleave (self : iterable A) (iters : list (iterable A))
    : M A (Enumerable il_frame) :=
  construct (λ _, IlFrame self iters IlStart).
End Interleave.

(** *** [traverse_breath_first], [traverse_depth_first] *)
Section Traverse.
Context {A : Type}.

(** Both frames are suspended at the [yield elem] that follows the pop;
    [queue] has its left end at the head, and the top of [stack] (the end
    of the Python list) is the head. *)
Inductive tr_pc :=
| TrStart
| TrYielded (elem : A) (pending : list A)
| TrDone.

Record bf_frame := BfFrame {
  bf_root : A;
  bf_children_selector : A → returns (iterable A);
  bf_at : tr_pc
}.

Definition bf_goto (g : bf_frame) (pc : tr_pc) : bf_frame :=
  BfFrame (bf_root g) (bf_children_selector g) pc.

(** [while queue: elem = queue.popleft(); yield elem] *)
Definition bf_take (g : bf_frame) (queue : list A)
    : M A (option A * bf_frame) :=
  match queue with
  | [] => mret (None, bf_goto g TrDone)
  | elem :: queue' => mret (Some elem, bf_goto g (TrYielded elem queue'))
  end.

Definition bf_resume (fuel : nat) (g : bf_frame) : M A (option A * bf_frame) :=
  match bf_at g with
  | TrStart => bf_take g [bf_root g]
  | TrYielded elem queue =>
      children ← call (bf_children_selector g) elem;
      queue' ← for_in fuel (iter_ children)
                 (λ child queue, mret (queue ++ [child])) queue;
      bf_take g queue'
  | TrDone => mret (None, g)
  end.

Global Instance bf_generator : Generator A bf_frame := {
  resume := bf_resume;
  close g := bf_goto g TrDone
}.

Definition traverse_breath_first (root : A)
    (children_selector : A → returns (iterable A))
    : M A (Enumerable bf_frame) :=
  construct (λ _, BfFrame root children_selector TrStart).

Record df_frame := DfFrame {
  df_root : A;
  df_children_selector : A → returns (iterable A);
  df_at : tr_pc
}.

Definition df_goto (g : df_frame) (pc : tr_pc) : df_frame :=
  DfFrame (df_root g) (df_children_selector g) pc.

(** [while stack: elem = stack.pop(); yield elem] *)
Definition df_take (g : df_frame) (stack : list A)
    : M A (option A * df_frame) :=
  match stack with
  | [] => mret (None, df_goto g TrDone)
  | elem :: stack' => mret (Some elem, df_goto g (TrYielded elem stack'))
  end.

Definition df_resume (fuel : nat) (g : df_frame) : M A (option A * df_frame) :=
  match df_at g with
  | TrStart => df_take g [df_root g]
  | TrYielded elem stack =>
      selected ← call (df_children_selector g) elem;
      children ← unpack fuel selected;
      df_take g (foldl (λ stack child, child :: stack) stack (reverse children))
  | TrDone => mret (None, g)
  end.

Global Instance df_generator : Generator A df_frame := {
  resume := df_resume;
  close g := df_goto g TrDone
}.

Definition traverse_depth_first (root : A)
    (children_selector : A → returns (iterable A))
    : M A (Enumerable df_frame) :=
  construct (λ _, DfFrame root children_selector TrStart).
End Traverse.

(** *** [flatten] *)

(** The values [flatten] tells apart: [isinstance(x, Iterable)] holds of
    strings, lists and tuples, [isinstance(x, str)] of strings only. *)
#[warnings="-register-all"]
Inductive obj :=
| PyNone
| PyInt (z : Z)
| PyStr (s : String.string)
| PyList (l : list obj)
| PyTuple (l : list obj).

Definition isinstance_Iterable (x : obj) : bool :=
  match x with
  | PyStr _ | PyList _ | PyTuple _ => true
  | PyNone | PyInt _ => false
  end.

Definition isinstance_str (x : obj) : bool :=
  match x with
  | PyStr _ => true
  | _ => false
  end.

(** What iterating [x] produces: a string produces its characters, each a
    string of length one. *)
Definition as_iterable (x : obj) : iterable obj :=
  match x with
  | PyList l | PyTuple l => FromList l
  | PyStr s =>
      FromList (map (λ c, PyStr (String.String c String.EmptyString))
                 (String.list_ascii_of_string s))
  | PyNone | PyInt _ => FromList []
  end.

(** [lambda x: x if isinstance(x, Iterable) and predicate(x) else None] *)
Definition flatten_selector (predicate : obj → returns bool) (x : obj)
    : returns (option (iterable obj)) :=
  if isinstance_Iterable x then
    match predicate x with
    | Returns true => Returns (Some (as_iterable x))
    | Returns false => Returns None
    | Raises e => Raises e
    end
  else Returns None.

(** [*args] holds no predicate or one. *)
Definition flatten (self : iterable obj) (args : list (obj → returns bool))
    : M obj (Enumerable f2_frame) :=
  match args with
  | [] => flatten2 self
            (flatten_selector (λ x, Returns (negb (isinstance_str x))))
  | predicate :: _ => flatten2 self (flatten_selector predicate)
  end.

End MoreEnumerable.

(* ===================================================================== *)
(** ** The cached sequence *)
(* ===================================================================== *)

Module CachedEnumerable.
Section Cache.
Context {A : Type}.

(** Modelled from the spec: the underlying sequence of the cache test,
    with the counter of the elements it has produced, and the number of
    times it was asked for one. *)
Record source := Source {
  pending : list A;
  produced : nat;
  queried : nat
}.

Definition source_next (s : source) : option A * source :=
  match pending s with
  | [] => (None, Source [] (produced s) (S (queried s)))
  | x :: l => (Some x, Source l (S (produced s)) (S (queried s)))
  end.

(** Modelled from the spec: [CachedEnumerable] ([cached_enumerable.py] is
    not among the sources).  The buffer of the elements pulled so far is
    shared by every cursor; it is marked complete when the underlying
    sequence is exhausted. *)
Record cached := Cached {
  buffer : list A;
  complete : bool;
  underlying : source
}.

Definition as_cached (src : list A) : cached :=
  Cached [] false (Source src 0 0).

(** Modelled from the spec: a cursor of the cached sequence, with its
    position, what it has returned, and whether it has reported
    exhaustion; [iterate] returns a cursor at index 0. *)
Record cursor := Cursor {
  position : nat;
  seen : list A;
  finished : bool
}.

Definition iterate : cursor := Cursor 0 [] false.

(** Modelled from the spec: advancing a cursor at position [i] returns
    the buffered element at [i] if there is one; otherwise, unless the
    buffer is complete, it pulls one element from the underlying
    sequence, appends it to the buffer and returns it. *)
Definition advance (c : cached) (k : cursor) : cursor * cached :=
  match buffer c !! position k with
  | Some x => (Cursor (S (position k)) (seen k ++ [x]) false, c)
  | None =>
      if complete c then (Cursor (position k) (seen k) true, c)
      else
        match source_next (underlying c) with
        | (Some x, s') =>
            (Cursor (S (position k)) (seen k ++ [x]) false,
             Cached (buffer c ++ [x]) false s')
        | (None, s') =>
            (Cursor (position k) (seen k) true, Cached (buffer c) true s')
        end
  end.

(** Cursors advanced in any order: the schedule names, step by step, the
    cursor that is advanced. *)
Fixpoint run (sched : list nat) (c : cached) (ks : list cursor)
    : cached * list cursor :=
  match sched with
  | [] => (c, ks)
  | i :: sched =>
      match ks !! i with
      | Some k =>
          let '(k', c') := advance c k in run sched c' (<[i := k']> ks)
      | None => run sched c ks
      end
  end.

(** [n] cursors over one cached sequence. *)
Definition cursors (n : nat) : list cursor := replicate n iterate.

(** One full traversal after the other. *)
Fixpoint full (fuel : nat) (c : cached) (k : cursor) : cursor * cached :=
  match fuel with
  | 0 => (k, c)
  | S fuel =>
      let '(k', c') := advance c k in
      if finished k' then (k', c') else full fuel c' k'
  end.

Fixpoint traversals (fuel n : nat) (c : cached) : list (list A) * cached :=
  match n with
  | 0 => ([], c)
  | S n =>
      let '(k, c') := full fuel c iterate in
      let '(ls, c'') := traversals fuel n c' in
      (seen k :: ls, c'')
  end.
End Cache.
End CachedEnumerable.

(* ===================================================================== *)
(** ** The ordered sequence *)
(* ===================================================================== *)

Module OrderedEnumerable.
Section Ordered.
Context {A : Type}.

(** Modelled from the spec: a sort criterion ([ordered_enumerable.pyi] has
    declarations only and is not among the sources): the key-extraction
    rule, the direction and the optional custom comparator. *)
Record SortKeySpec := Spec {
  key_selector : A → Z;
  descending : bool;
  comparator : option (Z → Z → comparison)
}.

(** Modelled from the spec: the source and the criteria, most significant
    first. *)
Record ordered := Ordered {
  source : list A;
  specs : list SortKeySpec
}.

Definition create_ordered_enumerable (o : ordered) (key : A → Z)
    (cmp : option (Z → Z → comparison)) (desc : bool) : ordered :=
  Ordered (source o) (specs o ++ [Spec key desc cmp]).

Definition order_by (src : list A) (key : A → Z) : ordered :=
  Ordered src [Spec key false None].

Definition order_by_descending (src : list A) (key : A → Z) : ordered :=
  Ordered src [Spec key true None].

Definition then_by (o : ordered) (key : A → Z) : ordered :=
  create_ordered_enumerable o key None false.

Definition then_by_descending (o : ordered) (key : A → Z) : ordered :=
  create_ordered_enumerable o key None true.

(** Modelled from the spec: one criterion is the natural or the custom
    ordering of the two keys, negated for a descending criterion. *)
Definition compare_by (s : SortKeySpec) (x y : A) : comparison :=
  let c := default Z.compare (comparator s) (key_selector s x) (key_selector s y) in
  if descending s then CompOpp c else c.

(** Modelled from the spec: the composite comparator evaluates the
    criteria in declared order and returns the first result that is not
    [Eq]. *)
Fixpoint composite (ss : list SortKeySpec) (x y : A) : comparison :=
  match ss with
  | [] => Eq
  | s :: ss =>
      match compare_by s x y with
      | Eq => composite ss x y
      | c => c
      end
  end.

(** Modelled from the spec: the original index is the final tie-break. *)
Definition compare_indexed (ss : list SortKeySpec) (a b : nat * A) : comparison :=
  match composite ss a.2 b.2 with
  | Eq => Nat.compare a.1 b.1
  | c => c
  end.

Definition indexed (l : list A) : list (nat * A) := imap (λ i x, (i, x)) l.

Fixpoint insert_sorted (cmp : nat * A → nat * A → comparison)
    (a : nat * A) (l : list (nat * A)) : list (nat * A) :=
  match l with
  | [] => [a]
  | b :: l' =>
      match cmp a b with
      | Gt => b :: insert_sorted cmp a l'
      | _ => a :: l
      end
  end.

Definition sort_buffer (cmp : nat * A → nat * A → comparison)
    (l : list (nat * A)) : list (nat * A) :=
  foldr (insert_sorted cmp) [] l.

(** Modelled from the spec: materialization traverses the source into an
    indexed buffer and sorts it; a cursor runs over the sorted buffer. *)
Definition materialize_indexed (o : ordered) : list (nat * A) :=
  sort_buffer (compare_indexed (specs o)) (indexed (source o)).

Definition materialize (o : ordered) : list A :=
  (materialize_indexed o).*2.
End Ordered.
Global Arguments SortKeySpec : clear implicits.
Global Arguments ordered : clear implicits.
End OrderedEnumerable.


(* ===================================================================== *)
(** ** Reference definitions for the statements *)
(* ===================================================================== *)

Import Py MoreEnumerable.

Section Reference.
Context {A : Type}.

(** The heap once [it] has been pulled to its end. *)
Definition exhaust (it : iterator A) (w : world A) : gmap nat (list A) :=
  match it with
  | ListIter _ => heap w
  | SharedIter r =>
      match heap w !! r with
      | Some (_ :: _) => <[r := []]> (heap w)
      | _ => heap w
      end
  end.

(** A loop body that returns [g x acc] and leaves the heap alone. *)
Definition heap_neutral {Acc} (body : A → Acc → M A Acc) (g : A → Acc → Acc) :=
  ∀ x acc w, ∃ w', body x acc w = (Ok (g x acc), w') ∧ heap w' = heap w.

(** A computation that reads nothing of the world and leaves the heap
    alone: its result does not depend on the world, and all it does to
    the world is to extend the log; [Q] holds of what it returns. *)
Definition oblivious {X} (Q : X → Prop) (m : M A X) : Prop :=
  ∃ r evs,
    (∀ w, m w = (r, World (heap w) (trace w ++ evs)))
    ∧ (∀ x, r = Ok x → Q x).

(** The frames of a generator that hold no iterator of the caller's. *)
Definition private_frames `{Generator A G} (P : G → Prop) : Prop :=
  (∀ g, P g → P (close g))
  ∧ (∀ fuel g, P g → oblivious (λ r, P r.2) (resume fuel g)).

(** A re-iterable source hands out a fresh iterator on every [iter]. *)
Definition reiterable (src : iterable A) : Prop := ∃ l, src = FromList l.

(** An iterator created by the frame that holds it. *)
Definition fresh (it : iterator A) : Prop := ∃ l, it = ListIter l.

(** A selector whose nested sequences are lists. *)
Definition nested_lists (sel : A → returns (option (list A)))
    (x : A) : returns (option (iterable A)) :=
  match sel x with
  | Returns (Some l) => Returns (Some (FromList l))
  | Returns None => Returns None
  | Raises e => Raises e
  end.

(** How often a schedule advances the first and the second cursor. *)
Definition turns (b : bool) (sched : list bool) : nat :=
  length (filter (λ b', b' = b) sched).

(** Building the sequence and obtaining a cursor succeed and leave the
    world as it is: nothing is pulled and no callback is invoked. *)
Definition deferred `{Generator A G} (m : M A (Enumerable G)) : Prop :=
  ∀ w, ∃ e, m w = (Ok e, w) ∧ get_iter e w = (Ok (factory e ()), w).

(** The elements of an iterable as the world has them. *)
Definition elements_of (src : iterable A) (w : world A) : list A :=
  content (iter_ src) w.
End Reference.

Section ExceptByReference.
Context {A K : Type} `{Countable K}.

(** [except_by] as the claim words it: an element is kept when its key is
    neither the key of an element of [second] nor the key of an element
    yielded earlier. *)
Fixpoint except_by_spec (key : A → K) (second_keys : list K)
    (yielded : list A) (xs : list A) : list A :=
  match xs with
  | [] => []
  | x :: xs' =>
      if decide (key x ∈ second_keys ∨ key x ∈ key <$> yielded)
      then except_by_spec key second_keys yielded xs'
      else x :: except_by_spec key second_keys (yielded ++ [x]) xs'
  end.

(** The loop of [inner] over a list, with the set [s] of keys seen. *)
Fixpoint eb_filter (key : A → K) (s : gset K) (xs : list A) : list A :=
  match xs with
  | [] => []
  | x :: xs' =>
      if decide (key x ∈ s) then eb_filter key s xs'
      else x :: eb_filter key ({[key x]} ∪ s) xs'
  end.
End ExceptByReference.

Section PrivateFrames.
Context {A K : Type} `{Countable K}.

Definition eb_private (g : eb_frame (A:=A) (K:=K)) : Prop :=
  reiterable (eb_self g) ∧ reiterable (eb_second g)
  ∧ match eb_at g with
    | EbYielded _ it => fresh it
    | _ => True
    end.

Definition f2_private (g : f2_frame (A:=A)) : Prop :=
  reiterable (f2_self g)
  ∧ (∀ x n, f2_selector g x = Returns (Some n) → reiterable n)
  ∧ match f2_at g with
    | F2Yielded stack it => Forall fresh stack ∧ fresh it
    | _ => True
    end.

Definition il_private (g : il_frame (A:=A)) : Prop :=
  reiterable (il_self g) ∧ Forall reiterable (il_iters g)
  ∧ match il_at g with
    | IlYielded its _ => Forall fresh its
    | _ => True
    end.
End PrivateFrames.

Section InterleaveReference.
Context {A : Type}.

(** [n] rounds over the inputs: a round takes, in input order, the next
    element of every input that still has one. *)
Fixpoint rounds (n : nat) (ls : list (list A)) : list A :=
  match n with
  | 0 => []
  | S n => omap head ls ++ rounds n (tail <$> ls)
  end.

(** Round-robin over the inputs: as many rounds as the longest input has
    elements. *)
Definition round_robin (ls : list (list A)) : list A :=
  rounds (max_list_with length ls) ls.

(** What is still to come in the middle of a round, when [visited] have
    given their element of this round and [todo] have not. *)
Definition pending (n : nat) (visited todo : list (list A)) : list A :=
  omap head todo ++ rounds n (visited ++ (tail <$> todo)).
End InterleaveReference.

Section TraverseReference.
Context {V : Type}.

(** A tree: the elements of the traversal are its nodes, and the children
    selector gives the child nodes in order. *)
#[warnings="-register-all"]
Inductive tree := Node { label : V; children : list tree }.

(** Pre-order: a node, then the pre-order of each child in turn. *)
Fixpoint preorder (t : tree) : list tree :=
  match t with
  | Node v cs => Node v cs :: concat (map preorder cs)
  end.

Definition children_of (t : tree) : returns (iterable tree) :=
  Returns (FromList (children t)).
End TraverseReference.
Global Arguments tree : clear implicits.

(** What [flatten()] is to yield for one element: the elements of a list or
    a tuple, flattened in turn; a string, a number or [None] as it is. *)
Fixpoint flat (x : obj) : list obj :=
  match x with
  | PyList l | PyTuple l => concat (map flat l)
  | PyNone | PyInt _ | PyStr _ => [x]
  end.

(** The number of [next] calls a traversal spends on an element, and on a
    sequence (one for each element, one to find the end). *)
Fixpoint pulls_of (x : obj) : nat :=
  match x with
  | PyList l | PyTuple l => 2 + sum_list_with pulls_of l
  | PyNone | PyInt _ | PyStr _ => 1
  end.

Definition pulls (l : list obj) : nat := 1 + sum_list_with pulls_of l.

(** The selector [flatten()] hands to [flatten2]. *)
Definition default_selector : obj → returns (option (iterable obj)) :=
  flatten_selector (λ x, Returns (negb (isinstance_str x))).

Section CachedReference.
Import CachedEnumerable.
Context {A : Type}.

(** The buffer is a prefix of the source, what is left of the source
    follows it, every element produced is in the buffer, and the source was
    asked once more only to find its end. *)
Definition cache_ok (src : list A) (c : cached) : Prop :=
  buffer c ++ pending (underlying c) = src
  ∧ produced (underlying c) = length (buffer c)
  ∧ (complete c = true → pending (underlying c) = [])
  ∧ queried (underlying c) = length (buffer c) + (if complete c then 1 else 0).

(** A cursor has seen the buffer up to its position, and has reported
    exhaustion only at the end of a complete buffer. *)
Definition cursor_ok (c : cached) (k : cursor (A:=A)) : Prop :=
  position k ≤ length (buffer c)
  ∧ seen k = take (position k) (buffer c)
  ∧ (finished k = true → position k = length (buffer c) ∧ complete c = true).
End CachedReference.

Section OrderedReference.
Import OrderedEnumerable.

(** What sorting needs of a comparator: comparing the other way round
    gives the opposite result, and "not greater" is transitive. *)
Definition total_preorder {T : Type} (cmp : T → T → comparison) : Prop :=
  (∀ a b, cmp b a = CompOpp (cmp a b))
  ∧ (∀ a b c, cmp a b ≠ Gt → cmp b c ≠ Gt → cmp a c ≠ Gt).

(** The custom comparators of the criteria are total preorders. *)
Definition valid_specs {A : Type} (ss : list (SortKeySpec A)) : Prop :=
  Forall (λ s, ∀ cmp, comparator s = Some cmp → total_preorder cmp) ss.
End OrderedReference.

(* ===================================================================== *)
(** ** Inputs that are iterator objects *)
(* ===================================================================== *)

Section SharedInputs.
Context {A : Type}.

(** The iterator object an iterable is, when it is one. *)
Definition reg_of (src : iterable A) : option nat :=
  match src with
  | FromIter r => Some r
  | FromList _ => None
  end.

(** The iterator object a frame pulls from through [it], when it is not an
    iterator of the frame's own. *)
Definition reg_it (it : iterator A) : option nat :=
  match it with
  | SharedIter r => Some r
  | ListIter _ => None
  end.

(** From [w] to [w'] no iterator object moved, except perhaps [ro]. *)
Definition same_but (ro : option nat) (w w' : world A) : Prop :=
  ∀ r, Some r ≠ ro → heap w' !! r = heap w !! r.

(** The iterators [its] have the elements [ls] still to produce, and no
    iterator object is among them twice. *)
Definition tracks (its : list (iterator A)) (ls : list (list A)) (w : world A)
    : Prop :=
  Forall2 (λ it l, content it w = l) its ls ∧ NoDup (omap reg_it its).
End SharedInputs.

Section NestedReference.
Context {A : Type}.
Variable selector : A → returns (option (iterable A)).

(** Parts produced one after the other, up to the first one that ends with
    an exception. *)
Definition chain (parts : list (list A * option pyexn))
    : list A * option pyexn :=
  foldr (λ part rest,
           match part.2 with
           | Some e => (part.1, Some e)
           | None => (part.1 ++ rest.1, rest.2)
           end) ([], None) parts.

(** What flattening gives for an element whose nested structure is the
    tree [t]: the element itself when the selector gives [None]; the
    flattened children, in order, when it gives a nested sequence; nothing
    but the exception when the selector raises. *)
Fixpoint emit (t : tree A) : list A * option pyexn :=
  match t with
  | Node x cs =>
      match selector x with
      | Raises e => ([], Some e)
      | Returns None => ([x], None)
      | Returns (Some _) => chain (map emit cs)
      end
  end.

(** The iterations of the loop of [inner] that the tree accounts for. *)
Fixpoint steps (t : tree A) : nat :=
  match t with
  | Node x cs =>
      match selector x with
      | Returns (Some _) => 2 + sum_list_with steps cs
      | _ => 1
      end
  end.

Definition steps_all (forest : list (tree A)) : nat :=
  1 + sum_list_with steps forest.

(** The iterator objects among the nested sequences of the nodes. *)
Definition node_regs (nodes : list (tree A)) : list nat :=
  omap (λ n, match selector (label n) with
             | Returns (Some src) => reg_of src
             | _ => None
             end) nodes.

(** In the world [w] the selector shows the forest: the nested sequence
    of every node has the node's children as elements. *)
Definition describes (w : world A) (forest : list (tree A)) : Prop :=
  ∀ n, n ∈ concat (map preorder forest) →
  ∀ src, selector (label n) = Returns (Some src) →
  elements_of src w = label <$> children n.

(** The loop of [inner] with [it] as current iterator and [stack] below
    it: [cur] and [ls] are what they have still to produce, and no
    iterator object is met twice. *)
Definition f2_inv (w : world A) (it : iterator A) (stack : list (iterator A))
    (cur : list (tree A)) (ls : list (list (tree A))) : Prop :=
  content it w = label <$> cur
  ∧ Forall2 (λ it' l, content it' w = label <$> l) stack ls
  ∧ describes w (cur ++ concat ls)
  ∧ NoDup (omap reg_it (it :: stack)
           ++ node_regs (concat (map preorder (cur ++ concat ls)))).
End NestedReference.

(** How a traversal ends that stopped with or without an exception of a
    callback. *)
Definition ending_of (stop : option pyexn) : ending :=
  match stop with
  | None => Exhausted
  | Some e => Faulted (leave_generator (UserCallbackFault e))
  end.

Section ChildrenReference.
Context {A : Type}.
Variable children_selector : A → returns (iterable A).

(** The iterator objects among the children sequences of the nodes. *)
Definition child_regs (nodes : list (tree A)) : list nat :=
  omap (λ n, match children_selector (label n) with
             | Returns src => reg_of src
             | Raises _ => None
             end) nodes.

(** In the world [w] the children selector shows the forest: it raises
    nothing on its nodes, and what it returns for a node has the node's
    children as elements. *)
Definition shows (w : world A) (forest : list (tree A)) : Prop :=
  ∀ n, n ∈ concat (map preorder forest) →
  ∃ src, children_selector (label n) = Returns src
       ∧ elements_of src w = label <$> children n.
End ChildrenReference.

(** The nested structure of a value as [flatten()] sees it: lists and
    tuples have their elements as children. *)
Fixpoint tree_of (x : obj) : tree obj :=
  match x with
  | PyList l | PyTuple l => Node x (map tree_of l)
  | _ => Node x []
  end.

(* ===================================================================== *)
(** ** Reference definitions for further properties *)
(* ===================================================================== *)

Section FoldReference.
Context {A : Type}.

(** What the consumer gets of a callback's outcome. *)
Definition to_result {B} (r : returns B) : result B :=
  match r with
  | Returns b => Ok b
  | Raises e => Raise (UserCallbackFault e)
  end.

(** The right fold with a function that may raise: the last element is
    combined with the seed first, and the first exception ends the fold. *)
Fixpoint foldr_returns (func : A → A → returns A) (seed : A) (xs : list A)
    : returns A :=
  match xs with
  | [] => Returns seed
  | x :: xs' =>
      match foldr_returns func seed xs' with
      | Returns acc => func x acc
      | Raises e => Raises e
      end
  end.

(** Two sequences taken in turns; what is left of the longer one follows. *)
Fixpoint alternate (xs ys : list A) : list A :=
  match xs with
  | [] => ys
  | x :: xs' =>
      x :: match ys with
           | [] => xs'
           | y :: ys' => y :: alternate xs' ys'
           end
  end.
End FoldReference.

Section LevelOrderReference.
Context {V : Type}.

(** Level by level: the trees of a forest, then the children of all of
    them, [n] levels deep. *)
Fixpoint level_order (n : nat) (forest : list (tree V)) : list (tree V) :=
  match n with
  | 0 => []
  | S n => forest ++ level_order n (concat (map children forest))
  end.

(** The nodes of a tree level by level; a tree has no more levels than
    nodes. *)
Definition breadth_first (root : tree V) : list (tree V) :=
  level_order (length (preorder root)) [root].
End LevelOrderReference.

Section Flatten2Reference.
Context {A : Type}.

(** Flattening by a selector, [d] levels deep: an element the selector maps
    to a nested list stands for the flattened elements of that list. *)
Fixpoint flat_by (sel : A → option (list A)) (d : nat) (x : A) : list A :=
  match d with
  | 0 => []
  | S d =>
      match sel x with
      | None => [x]
      | Some l => concat (map (flat_by sel d) l)
      end
  end.

(** The nesting under [x] ends within [d] levels. *)
Fixpoint nested_within (sel : A → option (list A)) (d : nat) (x : A) : Prop :=
  match d with
  | 0 => False
  | S d =>
      match sel x with
      | None => True
      | Some l => Forall (nested_within sel d) l
      end
  end.

(** The iterations of the loop of [inner] that [x] accounts for: one for
    an element that is yielded; for a nested list one to enter it, those
    of its elements and one to see its end. *)
Fixpoint visits (sel : A → option (list A)) (d : nat) (x : A) : nat :=
  match d with
  | 0 => 0
  | S d =>
      match sel x with
      | None => 1
      | Some l => 2 + sum_list_with (visits sel d) l
      end
  end.

Definition visits_all (sel : A → option (list A)) (d : nat) (l : list A) : nat :=
  1 + sum_list_with (visits sel d) l.
End Flatten2Reference.

Section FailingSelectorReference.
Context {V : Type}.

(** The children selector of a tree that raises [e] on the nodes [bad]
    marks. *)
Definition failing_at (bad : tree V → bool) (e : pyexn) (t : tree V)
    : returns (iterable (tree V)) :=
  if bad t then Raises e else children_of t.

(** The elements up to the first one that [bad] marks, that one
    included. *)
Fixpoint up_to_first {X} (bad : X → bool) (l : list X) : list X :=
  match l with
  | [] => []
  | x :: l' => x :: if bad x then [] else up_to_first bad l'
  end.

(** How a traversal in the order [l] ends when the selector raises [e] on
    the nodes [bad] marks. *)
Definition ending_on (bad : tree V → bool) (e : pyexn) (l : list (tree V))
    : ending :=
  if existsb bad l then Faulted (leave_generator (UserCallbackFault e))
  else Exhausted.
End FailingSelectorReference.

Section ReachReference.
Context {A : Type}.
Variable children_selector : A → returns (iterable A).

(** In the world [w] the children selector shows the forest as far as it
    raises nothing: what it returns for a node has the node's children as
    elements. *)
Definition reaches (w : world A) (forest : list (tree A)) : Prop :=
  ∀ n, n ∈ concat (map preorder forest) →
  ∀ src, children_selector (label n) = Returns src →
  elements_of src w = label <$> children n.

(** The children selector raises on the node. *)
Definition raises_on (n : tree A) : bool :=
  match children_selector (label n) with
  | Raises _ => true
  | Returns _ => false
  end.

(** The exception of the first node, in the order given, the children
    selector raises on. *)
Fixpoint first_fault (nodes : list (tree A)) : option pyexn :=
  match nodes with
  | [] => None
  | n :: nodes' =>
      match children_selector (label n) with
      | Raises e => Some e
      | Returns _ => first_fault nodes'
      end
  end.
End ReachReference.

(* ===================================================================== *)
(** ** Properties of the runtime *)
(* ===================================================================== *)

Ltac munfold :=
  unfold construct, get_iter, call, call2, call_idx, lift, raise, out_of_fuel,
    mbind, M_bind, mret, M_ret in *.

Section RuntimeFacts.
Context {A : Type}.
Implicit Types (w : world A) (it : iterator A) (l xs : list A).

Lemma pull_nil it w :
  content it w = [] → pull it w = (Ok (None, it), log Pulled w).
Proof.
  destruct it as [l|r]; simpl.
  - by intros ->.
  - destruct (heap w !! r) as [[|x l]|]; simpl; by intros.
Qed.

Lemma pull_cons it w x l :
  content it w = x :: l →
  ∃ it' w', pull it w = (Ok (Some x, it'), w')
    ∧ content it' w' = l
    ∧ exhaust it' w' = exhaust it w
    ∧ trace w' = trace w ++ [Pulled]
    ∧ (∀ r', SharedIter r' ≠ it → heap w' !! r' = heap w !! r')
    ∧ (∀ l0, it = ListIter l0 → it' = ListIter l ∧ heap w' = heap w)
    ∧ (∀ r, it = SharedIter r → it' = it).
Proof.
  destruct it as [l0|r]; simpl.
  - intros ->. exists (ListIter l), (log Pulled w). simpl.
    split_and!; try done.
  - destruct (heap w !! r) as [[|y l']|] eqn:E; simpl; try done.
    intros [= -> ->]. eexists _, _. split; [done|]. simpl.
    rewrite lookup_insert_eq. simpl. split_and!; try done.
    + destruct l; [done|]. by rewrite insert_insert_eq.
    + intros r' Hr'. rewrite lookup_insert_ne; [done|congruence].
Qed.

Lemma exhaust_nil it w : content it w = [] → exhaust it w = heap w.
Proof.
  intros Hc. destruct it as [l|r]; simpl in *; [done|].
  by destruct (heap w !! r) as [[|y l']|].
Qed.

Lemma content_heap it w w' : heap w = heap w' → content it w = content it w'.
Proof. intros E. destruct it; simpl; [done|]. by rewrite E. Qed.

Lemma exhaust_heap it w w' : heap w = heap w' → exhaust it w = exhaust it w'.
Proof. intros E. destruct it; simpl; [done|]. by rewrite E. Qed.

Lemma content_log it e w : content it (log e w) = content it w.
Proof. by destruct it. Qed.

Lemma exhaust_log it e w : exhaust it (log e w) = exhaust it w.
Proof. by destruct it. Qed.

Lemma for_in_neutral {Acc} (body : A → Acc → M A Acc) g xs :
  heap_neutral body g →
  ∀ it w acc fuel, content it w = xs → length xs < fuel →
  ∃ w', for_in fuel it body acc w = (Ok (foldl (λ a x, g x a) acc xs), w')
        ∧ heap w' = exhaust it w.
Proof.
  intros Hb. induction xs as [|x l IH]; intros it w acc fuel Hc Hf.
  - destruct fuel as [|fuel]; [simpl in Hf; lia|]. simpl. munfold.
    rewrite (pull_nil _ _ Hc). eexists; split; [done|]. simpl.
    by rewrite exhaust_nil.
  - destruct fuel as [|fuel]; [simpl in Hf; lia|]. simpl. munfold.
    destruct (pull_cons _ _ _ _ Hc) as (it' & w1 & -> & Hc1 & He1 & _).
    destruct (Hb x acc w1) as (w2 & -> & Hh2).
    destruct (IH it' w2 (g x acc) fuel) as (w3 & -> & Hh3).
    { by rewrite (content_heap _ _ _ Hh2). }
    { simpl in Hf. lia. }
    eexists; split; [done|].
    by rewrite Hh3, (exhaust_heap _ _ _ Hh2).
Qed.

Lemma for_in_neutral_on {Acc} (body : A → Acc → M A Acc) g xs :
  (∀ x, x ∈ xs → ∀ acc w,
     ∃ w', body x acc w = (Ok (g x acc), w') ∧ heap w' = heap w) →
  ∀ it w acc fuel, content it w = xs → length xs < fuel →
  ∃ w', for_in fuel it body acc w = (Ok (foldl (λ a x, g x a) acc xs), w')
        ∧ heap w' = exhaust it w.
Proof.
  induction xs as [|x l IH]; intros Hb it w acc fuel Hc Hf.
  - destruct fuel as [|fuel]; [simpl in Hf; lia|]. simpl. munfold.
    rewrite (pull_nil _ _ Hc). eexists; split; [done|]. simpl.
    by rewrite exhaust_nil.
  - destruct fuel as [|fuel]; [simpl in Hf; lia|]. simpl. munfold.
    destruct (pull_cons _ _ _ _ Hc) as (it' & w1 & -> & Hc1 & He1 & _).
    destruct (Hb x (list_elem_of_here _ _) acc w1) as (w2 & -> & Hh2).
    destruct (IH (λ y Hy, Hb y (list_elem_of_further _ _ _ Hy))
                it' w2 (g x acc) fuel) as (w3 & -> & Hh3).
    { by rewrite (content_heap _ _ _ Hh2). }
    { simpl in Hf. lia. }
    eexists; split; [done|].
    by rewrite Hh3, (exhaust_heap _ _ _ Hh2).
Qed.

Lemma for_in_fault {Acc} (body : A → Acc → M A Acc) g pre x post f :
  (∀ y, y ∈ pre → ∀ acc w,
     ∃ w', body y acc w = (Ok (g y acc), w') ∧ heap w' = heap w) →
  (∀ acc w, ∃ w', body x acc w = (Raise f, w')) →
  ∀ it w acc fuel, content it w = pre ++ x :: post → length pre < fuel →
  ∃ w', for_in fuel it body acc w = (Raise f, w').
Proof.
  intros Hb Hx. induction pre as [|y l IH]; intros it w acc fuel Hc Hf.
  - destruct fuel as [|fuel]; [simpl in Hf; lia|]. simpl. munfold.
    destruct (pull_cons _ _ _ _ Hc) as (it' & w1 & -> & _).
    destruct (Hx acc w1) as (w2 & ->). by eexists.
  - destruct fuel as [|fuel]; [simpl in Hf; lia|]. simpl. munfold.
    destruct (pull_cons _ _ _ _ Hc) as (it' & w1 & -> & Hc1 & _).
    destruct (Hb y (list_elem_of_here _ _) acc w1) as (w2 & -> & Hh2).
    apply IH.
    { intros z Hz. apply Hb. by right. }
    { by rewrite (content_heap _ _ _ Hh2). }
    { simpl in Hf. lia. }
Qed.

Lemma unpack_list l fuel w :
  length l < fuel →
  ∃ w', unpack fuel (FromList l) w = (Ok l, w') ∧ heap w' = heap w.
Proof.
  intros Hf. unfold unpack.
  destruct (for_in_neutral (λ x acc, mret (acc ++ [x])) (λ x acc, acc ++ [x]) l)
    with (it := ListIter l) (w := w) (acc := @nil A) (fuel := fuel)
    as (w' & E & Hh); [|done|done|].
  { intros x acc w0. by eexists. }
  exists w'. split; [|done]. simpl. rewrite E. do 2 f_equal.
  assert (∀ acc : list A, foldl (λ a x, a ++ [x]) acc l = acc ++ l) as ->; [|done].
  clear. induction l as [|x l IH]; intros acc; simpl; [by rewrite app_nil_r|].
  by rewrite IH, <- app_assoc.
Qed.

End RuntimeFacts.

(* ===================================================================== *)
(** ** Iterator objects among the inputs *)
(* ===================================================================== *)

Section SharedFacts.
Context {A : Type}.
Implicit Types (w : world A) (it : iterator A) (src : iterable A)
  (its : list (iterator A)) (ro : option nat).

Lemma reg_it_iter src : reg_it (iter_ src) = reg_of src.
Proof. by destruct src. Qed.

Lemma omap_reg_it_cons it its :
  omap reg_it (it :: its)
  = match reg_it it with
    | Some r => r :: omap reg_it its
    | None => omap reg_it its
    end.
Proof. done. Qed.

Lemma same_but_heap ro w w' : heap w' = heap w → same_but ro w w'.
Proof. intros E r _. by rewrite E. Qed.

Lemma same_but_trans ro w1 w2 w3 :
  same_but ro w1 w2 → same_but ro w2 w3 → same_but ro w1 w3.
Proof. intros H1 H2 r Hr. by rewrite H2, H1. Qed.

Lemma same_but_log ro e w w' : same_but ro w w' → same_but ro w (log e w').
Proof. intros H1 r Hr. simpl. by apply H1. Qed.

Lemma content_same_but ro w w' it :
  same_but ro w w' → (∀ r, reg_it it = Some r → Some r ≠ ro) →
  content it w' = content it w.
Proof.
  intros Hw Hr. destruct it as [l|r]; simpl; [done|].
  by rewrite (Hw r) by by apply Hr.
Qed.

Lemma elements_same_but ro w w' src :
  same_but ro w w' → (∀ r, reg_of src = Some r → Some r ≠ ro) →
  elements_of src w' = elements_of src w.
Proof.
  intros Hw Hr. unfold elements_of. apply (content_same_but ro); [done|].
  by rewrite reg_it_iter.
Qed.

Lemma pull_same_but it w o it' w' :
  pull it w = (Ok (o, it'), w') →
  same_but (reg_it it) w w' ∧ reg_it it' = reg_it it.
Proof.
  destruct it as [[|x l]|r]; simpl.
  - intros [= <- <- <-]. split; [by apply same_but_heap|done].
  - intros [= <- <- <-]. split; [by apply same_but_heap|done].
  - destruct (heap w !! r) as [[|x l]|]; intros [= <- <- <-];
      (split; [|done]); try by apply same_but_heap.
    intros r' Hr'. simpl. apply lookup_insert_ne. congruence.
Qed.

Lemma exhaust_same_but it w w' :
  heap w' = exhaust it w → same_but (reg_it it) w w'.
Proof.
  intros Hh. destruct it as [l|r]; simpl in *; [by apply same_but_heap|].
  intros r' Hr'. rewrite Hh.
  destruct (heap w !! r) as [[|x l]|]; [done| |done].
  apply lookup_insert_ne. congruence.
Qed.

Lemma Forall2_content_same_but {B} (f : B → list A) ro w w' its (ls : list B) :
  same_but ro w w' → (∀ r, ro = Some r → r ∉ omap reg_it its) →
  Forall2 (λ it l, content it w = f l) its ls →
  Forall2 (λ it l, content it w' = f l) its ls.
Proof.
  intros Hw Hr. induction 1 as [|it l its ls Hc _ IH]; constructor.
  - rewrite <- Hc. apply (content_same_but ro); [done|].
    intros r Hit <-. apply (Hr r eq_refl). rewrite omap_reg_it_cons, Hit. left.
  - apply IH. intros r -> Hin. apply (Hr r eq_refl). rewrite omap_reg_it_cons.
    destruct (reg_it it); [by right|done].
Qed.

Lemma omap_reg_it_iter (srcs : list (iterable A)) :
  omap reg_it (iter_ <$> srcs) = omap reg_of srcs.
Proof.
  induction srcs as [|src srcs IH]; [done|]. simpl.
  rewrite reg_it_iter. destruct (reg_of src); [f_equal|]; exact IH.
Qed.

Lemma omap_reg_it_middle its1 it it' its2 :
  reg_it it' = reg_it it →
  omap reg_it (its1 ++ it' :: its2) = omap reg_it (its1 ++ it :: its2).
Proof. intros E. by rewrite !omap_app, !omap_reg_it_cons, E. Qed.

Lemma NoDup_omap_middle its1 it its2 r :
  NoDup (omap reg_it (its1 ++ it :: its2)) → reg_it it = Some r →
  (r ∉ omap reg_it its1) ∧ (r ∉ omap reg_it its2)
  ∧ NoDup (omap reg_it (its1 ++ its2)).
Proof.
  rewrite !omap_app, omap_reg_it_cons. intros Hnd E. rewrite E in Hnd.
  apply NoDup_app in Hnd as (H1 & H12 & H2).
  apply NoDup_cons in H2 as [Hr H2]. split_and!.
  - intros Hin. apply (H12 r Hin). left.
  - done.
  - apply NoDup_app. split_and!; [done| |done].
    intros x Hx Hx2. apply (H12 x Hx). by right.
Qed.

Lemma NoDup_omap_delete its1 it its2 :
  NoDup (omap reg_it (its1 ++ it :: its2)) →
  NoDup (omap reg_it (its1 ++ its2)).
Proof.
  destruct (reg_it it) as [r|] eqn:E.
  - intros Hnd. by destruct (NoDup_omap_middle its1 it its2 r Hnd E) as (_&_&?).
  - by rewrite !omap_app, omap_reg_it_cons, E.
Qed.
End SharedFacts.

(* ===================================================================== *)
(** ** Computations that do not touch the caller's iterators *)
(* ===================================================================== *)

Section Oblivious.
Context {A : Type}.
Implicit Types (w : world A).

Lemma world_eta w : World (heap w) (trace w ++ []) = w.
Proof. destruct w. simpl. by rewrite app_nil_r. Qed.

Lemma oblivious_ret {X} (Q : X → Prop) (x : X) :
  Q x → oblivious (A:=A) Q (mret x).
Proof.
  intros HQ. exists (Ok x), []. split.
  - intros w. munfold. by rewrite world_eta.
  - by intros ? [= <-].
Qed.

Lemma oblivious_bind {X Y} (Q1 : X → Prop) (Q2 : Y → Prop)
    (m : M A X) (k : X → M A Y) :
  oblivious Q1 m → (∀ x, Q1 x → oblivious Q2 (k x)) →
  oblivious Q2 (m ≫= k).
Proof.
  intros (r & evs & Hm & HQ) Hk. destruct r as [x|f|].
  - destruct (Hk x (HQ x eq_refl)) as (r2 & evs2 & Hk2 & HQ2).
    exists r2, (evs ++ evs2). split; [|done].
    intros w. munfold. rewrite Hm, Hk2. simpl. by rewrite app_assoc.
  - exists (Raise f), evs. split; [|done]. intros w. munfold. by rewrite Hm.
  - exists OutOfFuel, evs. split; [|done]. intros w. munfold. by rewrite Hm.
Qed.

Lemma oblivious_weaken {X} (Q1 Q2 : X → Prop) (m : M A X) :
  oblivious Q1 m → (∀ x, Q1 x → Q2 x) → oblivious Q2 m.
Proof.
  intros (r & evs & Hm & HQ) HQ2. exists r, evs. split; [done|].
  intros x Hx. by apply HQ2, HQ.
Qed.

Lemma oblivious_out_of_fuel {X} (Q : X → Prop) :
  oblivious (A:=A) Q out_of_fuel.
Proof.
  exists OutOfFuel, []. split; [|done]. intros w. munfold. by rewrite world_eta.
Qed.

Lemma oblivious_pull (l : list A) :
  oblivious (λ r, ∃ l', r.2 = ListIter l' ∧ (r.1 = None ∨ length l' < length l))
    (pull (ListIter l)).
Proof.
  destruct l as [|x l].
  - exists (Ok (None, ListIter [])), [Pulled]. split; [done|].
    intros ? [= <-]. exists []. simpl. split; [done|by left].
  - exists (Ok (Some x, ListIter l)), [Pulled]. split; [done|].
    intros ? [= <-]. exists l. simpl. split; [done|right; lia].
Qed.

Lemma oblivious_call {B} (f : A → returns B) (x : A) :
  oblivious (λ b, f x = Returns b) (call f x).
Proof.
  destruct (f x) as [b|e] eqn:E.
  - exists (Ok b), [Called x]. split; [|by intros ? [= <-]].
    intros w. munfold. by rewrite E.
  - exists (Raise (UserCallbackFault e)), [Called x]. split; [|done].
    intros w. munfold. by rewrite E.
Qed.

Lemma oblivious_for_in {Acc} (Q : Acc → Prop) (body : A → Acc → M A Acc) :
  (∀ x acc, Q acc → oblivious Q (body x acc)) →
  ∀ fuel l acc, Q acc → oblivious Q (for_in fuel (ListIter l) body acc).
Proof.
  intros Hb. induction fuel as [|fuel IH]; intros l acc Hacc; simpl.
  - apply oblivious_out_of_fuel.
  - eapply oblivious_bind; [apply oblivious_pull|].
    intros [[x|] it'] (l' & Hit & _); simpl in *; subst.
    + eapply oblivious_bind; [by apply Hb|]. intros acc' Hacc'. by apply IH.
    + by apply oblivious_ret.
Qed.

(** *** Cursors over private frames do not interfere *)
Context `{Generator A G} (P : G → Prop) (HP : private_frames P).

Lemma private_next fuel g :
  P g →
  ∃ s g' evs, P g' ∧ ∀ w, next_ fuel g w = (s, g', World (heap w) (trace w ++ evs)).
Proof.
  intros Hg. destruct HP as [Hclose Hres].
  destruct (Hres fuel g Hg) as (r & evs & Hm & HQ).
  destruct r as [[[x|] g']|f|].
  - exists (Yield x), g', evs. split; [by apply (HQ (Some x, g'))|].
    intros w. unfold next_. by rewrite Hm.
  - exists Stop, (close g), evs. split; [by apply Hclose|].
    intros w. unfold next_. by rewrite Hm.
  - exists (Fault (leave_generator f)), (close g), evs.
    split; [by apply Hclose|]. intros w. unfold next_. by rewrite Hm.
  - exists Unfinished, g, evs. split; [done|].
    intros w. unfold next_. by rewrite Hm.
Qed.

Lemma private_alone fuel n :
  ∀ g w1 w2, P g → (alone fuel n g w1).1 = (alone fuel n g w2).1.
Proof.
  induction n as [|n IH]; intros g w1 w2 Hg; simpl; [done|].
  destruct (private_next fuel g Hg) as (s & g' & evs & Hg' & Hn).
  rewrite !Hn.
  specialize (IH g' (World (heap w1) (trace w1 ++ evs))
                (World (heap w2) (trace w2 ++ evs)) Hg').
  destruct (alone fuel n g' (World (heap w1) _)) as [o1 w1'].
  destruct (alone fuel n g' (World (heap w2) _)) as [o2 w2'].
  simpl in *. by rewrite IH.
Qed.

Lemma private_traverse fuel n :
  ∀ g w1 w2, P g → (traverse fuel n g w1).1 = (traverse fuel n g w2).1.
Proof.
  induction n as [|n IH]; intros g w1 w2 Hg; simpl; [done|].
  destruct (private_next fuel g Hg) as (s & g' & evs & Hg' & Hn).
  rewrite !Hn. destruct s; try done.
  specialize (IH g' (World (heap w1) (trace w1 ++ evs))
                (World (heap w2) (trace w2 ++ evs)) Hg').
  destruct (traverse fuel n g' (World (heap w1) _)) as [[o1 e1] w1'].
  destruct (traverse fuel n g' (World (heap w2) _)) as [[o2 e2] w2'].
  simpl in *. by injection IH as -> ->.
Qed.

Lemma private_interleaved fuel sched :
  ∀ g1 g2 w w1 w2, P g1 → P g2 →
  (interleaved fuel sched g1 g2 w).1
  = ((alone fuel (length (filter (λ b, b = true) sched)) g1 w1).1,
     (alone fuel (length (filter (λ b, b = false) sched)) g2 w2).1).
Proof.
  induction sched as [|[|] sched IH]; intros g1 g2 w w1 w2 Hg1 Hg2; [done|..].
  - rewrite filter_cons_True by done.
    rewrite (filter_cons_False (λ b, b = false)) by done. simpl.
    destruct (private_next fuel g1 Hg1) as (s & g' & evs & Hg' & Hn).
    rewrite !Hn.
    specialize (IH g' g2 (World (heap w) (trace w ++ evs))
                  (World (heap w1) (trace w1 ++ evs)) w2 Hg' Hg2).
    destruct (interleaved fuel sched g' g2 _) as [[o1 o2] w'].
    destruct (alone fuel _ g' _) as [a1 w1'].
    simpl in *. by injection IH as -> ->.
  - rewrite filter_cons_False by done.
    rewrite (filter_cons_True (λ b, b = false)) by done. simpl.
    destruct (private_next fuel g2 Hg2) as (s & g' & evs & Hg' & Hn).
    rewrite !Hn.
    specialize (IH g1 g' (World (heap w) (trace w ++ evs)) w1
                  (World (heap w2) (trace w2 ++ evs)) Hg1 Hg').
    destruct (interleaved fuel sched g1 g' _) as [[o1 o2] w'].
    destruct (alone fuel _ g' _) as [a2 w2'].
    simpl in *. by injection IH as -> ->.
Qed.

(** A sequence whose cursors start in a private frame: two traversals
    give the same, and two cursors advanced in any order each give what
    they give when advanced alone. *)
Lemma private_sequence (g0 : G) :
  P g0 →
  ∀ fuel n sched w w1 w2,
  (traverse_twice fuel n (construct (λ _, g0)) w).1
  = (traverse_twice fuel n (construct (λ _, g0)) w).2
  ∧ two_cursors fuel sched (construct (λ _, g0)) w
    = (one_cursor fuel (turns true sched) (construct (λ _, g0)) w1,
       one_cursor fuel (turns false sched) (construct (λ _, g0)) w2).
Proof.
  intros Hg fuel n sched w w1 w2. split.
  - unfold traverse_twice. munfold. simpl.
    destruct (traverse fuel n g0 w) as [r1 w'] eqn:E. simpl.
    change r1 with (r1, w').1. rewrite <- E. by apply private_traverse.
  - unfold two_cursors, one_cursor. munfold. simpl.
    by apply private_interleaved.
Qed.
End Oblivious.

(* ===================================================================== *)
(** ** [except_by] and [distinct_by] *)
(* ===================================================================== *)

Section ExceptByFacts.
Context {A K : Type} `{Countable K}.
Implicit Types (w : world A) (it : iterator A) (xs ys : list A) (s : gset K).

Lemma eb_loop_spec (key : A → K) g xs :
  eb_key_selector g = (λ x, Returns (key x)) →
  ∀ it w s fuel, content it w = xs → length xs < fuel →
  ∃ w',
    (eb_filter key s xs = []
     ∧ eb_loop fuel g s it w = (Ok (None, eb_goto g EbDone), w')
     ∧ heap w' = exhaust it w)
    ∨ (∃ x s' it',
        eb_loop fuel g s it w = (Ok (Some x, eb_goto g (EbYielded s' it')), w')
        ∧ eb_filter key s xs = x :: eb_filter key s' (content it' w')
        ∧ length (content it' w') < length xs
        ∧ exhaust it' w' = exhaust it w).
Proof.
  intros Hk. induction xs as [|x l IH]; intros it w s fuel Hc Hf.
  - destruct fuel as [|fuel]; [simpl in Hf; lia|]. simpl. munfold.
    rewrite (pull_nil _ _ Hc). eexists; left. split_and!; [done..|].
    simpl. by rewrite exhaust_nil.
  - destruct fuel as [|fuel]; [simpl in Hf; lia|]. simpl. munfold.
    destruct (pull_cons _ _ _ _ Hc) as (it' & w1 & -> & Hc1 & He1 & _).
    rewrite Hk. simpl. destruct (decide (key x ∈ s)) as [Hin|Hin].
    + destruct (IH it' (log (Called x) w1) s fuel)
        as [w2 [(?&?&Hh)|(y&s'&it2&?&?&?&Hh)]];
        [by rewrite content_log|simpl in Hf; lia|..];
        rewrite exhaust_log in Hh; exists w2.
      * left. split_and!; [done..|]. congruence.
      * right. exists y, s', it2. split_and!; [done|done|simpl; lia|congruence].
    + eexists. right. exists x, ({[key x]} ∪ s), it'. split_and!; [done| |..].
      * by rewrite content_log, Hc1.
      * rewrite content_log, Hc1. simpl. lia.
      * by rewrite exhaust_log.
Qed.

Lemma eb_traverse (key : A → K) g :
  eb_key_selector g = (λ x, Returns (key x)) →
  ∀ n it w s fuel, length (content it w) < fuel → length (content it w) < n →
  ∃ w', traverse fuel n (eb_goto g (EbYielded s it)) w
          = (eb_filter key s (content it w), Exhausted, w')
        ∧ heap w' = exhaust it w.
Proof.
  intros Hk. induction n as [|n IH]; intros it w s fuel Hf Hn; [lia|].
  simpl. unfold next_. simpl.
  change (eb_resume fuel (eb_goto g (EbYielded s it)) w)
    with (eb_loop fuel (eb_goto g (EbYielded s it)) s it w).
  destruct (eb_loop_spec key (eb_goto g (EbYielded s it)) (content it w) Hk
              it w s fuel eq_refl Hf)
    as [w1 [(E1&->&Hh)|(y&s'&it2&->&E2&Hl&He)]]; simpl.
  - rewrite E1. by exists w1.
  - destruct (IH it2 w1 s' fuel) as (w2 & E3 & Hh2); [lia..|].
    unfold eb_goto in E3 |- *. simpl in E3 |- *. rewrite E3.
    exists w2. rewrite E2. split; [done|congruence].
Qed.

Lemma content_after_exhaust (it1 it2 : iterator A) w w1 :
  heap w1 = exhaust it2 w →
  content it1 w1 = content it1 w
  ∨ (content it1 w1 = [] ∧ content it1 w = content it2 w).
Proof.
  intros Hh. destruct it1 as [l1|r1]; [by left|].
  destruct it2 as [l2|r2]; simpl in *; [left; by rewrite Hh|].
  rewrite Hh. destruct (heap w !! r2) as [[|y l]|] eqn:E; [by left| |by left].
  destruct (decide (r1 = r2)) as [->|Hne].
  - right. by rewrite lookup_insert_eq, E.
  - left. by rewrite lookup_insert_ne.
Qed.

Lemma seen_keys_elem_of (key : A → K) ys s k :
  k ∈ foldl (λ a x, {[key x]} ∪ a) s ys ↔ k ∈ s ∨ k ∈ key <$> ys.
Proof.
  revert s. induction ys as [|y l IH]; intros s; simpl.
  - rewrite elem_of_nil. tauto.
  - rewrite IH, elem_of_cons, elem_of_union, elem_of_singleton. tauto.
Qed.

Lemma eb_filter_spec (key : A → K) sk xs :
  ∀ s yielded,
  (∀ k, k ∈ s ↔ k ∈ sk ∨ k ∈ key <$> yielded) →
  eb_filter key s xs = except_by_spec key sk yielded xs.
Proof.
  induction xs as [|x l IH]; intros s yl Hs; simpl; [done|].
  destruct (decide (key x ∈ s)) as [Hin|Hin];
    destruct (decide (key x ∈ sk ∨ key x ∈ key <$> yl)) as [Hin'|Hin'];
    try (exfalso; rewrite Hs in Hin; tauto).
  - by apply IH.
  - f_equal. apply IH. intros k. rewrite fmap_app, elem_of_app. simpl.
    rewrite elem_of_union, elem_of_singleton, Hs, list_elem_of_singleton. tauto.
Qed.

Lemma except_by_spec_all_excluded (key : A → K) sk xs :
  ∀ yielded, (∀ x, x ∈ xs → key x ∈ sk) → except_by_spec key sk yielded xs = [].
Proof.
  induction xs as [|x l IH]; intros yl Hall; simpl; [done|].
  rewrite decide_True by (left; apply Hall; left).
  apply IH. intros y Hy. apply Hall. by right.
Qed.

Lemma except_by_spec_sublist (key : A → K) sk xs :
  ∀ yielded, (except_by_spec key sk yielded xs) `sublist_of` xs.
Proof.
  induction xs as [|x l IH]; intros yl; simpl; [done|].
  case_decide; [apply sublist_cons|apply sublist_skip]; apply IH.
Qed.

Lemma except_by_spec_keys (key : A → K) sk xs :
  ∀ yielded k,
  k ∈ key <$> except_by_spec key sk yielded xs
  ↔ k ∈ (key <$> xs) ∧ (k ∉ sk) ∧ (k ∉ key <$> yielded).
Proof.
  induction xs as [|x l IH]; intros yl k; simpl.
  - rewrite elem_of_nil. tauto.
  - case_decide as Hd.
    + rewrite IH, elem_of_cons. split; [tauto|].
      intros [[->|?] [? ?]]; tauto.
    + simpl. rewrite !elem_of_cons, IH, fmap_app, elem_of_app. simpl.
      rewrite list_elem_of_singleton.
      destruct (decide (k = key x)) as [->|Hne]; tauto.
Qed.

Lemma except_by_spec_NoDup (key : A → K) sk xs :
  ∀ yielded, NoDup (key <$> except_by_spec key sk yielded xs).
Proof.
  induction xs as [|x l IH]; intros yl; simpl; [constructor|].
  case_decide; [apply IH|]. simpl. constructor; [|apply IH].
  rewrite except_by_spec_keys, fmap_app, elem_of_app. simpl.
  rewrite list_elem_of_singleton. tauto.
Qed.

Lemma except_by_materialize (self second : iterable A) (key : A → K) w k1 k2 :
  (materialize (S (length (elements_of self w) + length (elements_of second w)) + k1)
     (S (length (elements_of self w)) + k2)
     (except_by self second (λ x, Returns (key x))) w).1
  = (except_by_spec key (key <$> elements_of second w) [] (elements_of self w),
     Exhausted).
Proof.
  unfold elements_of. set (xs := content (iter_ self) w).
  set (ys := content (iter_ second) w).
  unfold materialize, except_by. munfold. simpl.
  set (keyf := λ x, Returns (key x)).
  set (g := EbFrame self second keyf EbStart).
  assert (∃ fuel, fuel = S (length xs + length ys + k1)) as [fuel Hfuel]
    by by eexists.
  rewrite <- Hfuel.
  unfold next_. simpl. unfold eb_resume. simpl.
  destruct (for_in_neutral
              (λ x s, mbind (λ key0, mret ({[key0]} ∪ s)) (call keyf x))
              (λ x s, {[key x]} ∪ s) ys) with (it := iter_ second) (w := w)
              (acc := (∅ : gset K)) (fuel := fuel) as (w1 & E1 & Hh1).
  { intros x acc w0. munfold. simpl. by eexists. }
  { done. } { lia. }
  munfold. rewrite E1.
  set (s := foldl _ _ _).
  assert (Hs : ∀ k, k ∈ s ↔ k ∈ key <$> ys ∨ k ∈ key <$> ([] : list A)).
  { intros k. unfold s. rewrite seen_keys_elem_of, elem_of_empty. simpl.
    rewrite elem_of_nil. tauto. }
  assert (Hout : eb_filter key s (content (iter_ self) w1)
                 = except_by_spec key (key <$> ys) [] xs).
  { destruct (content_after_exhaust (iter_ self) (iter_ second) w w1 Hh1)
      as [->|[-> Hxy]].
    - by apply eb_filter_spec.
    - simpl. symmetry. apply except_by_spec_all_excluded.
      intros x Hx. apply list_elem_of_fmap. exists x. split; [done|].
      unfold ys. by rewrite <- Hxy. }
  assert (Hlen : length (content (iter_ self) w1) ≤ length xs).
  { destruct (content_after_exhaust (iter_ self) (iter_ second) w w1 Hh1)
      as [->|[-> _]]; simpl; [done|lia]. }
  destruct (eb_loop_spec key g (content (iter_ self) w1) eq_refl
              (iter_ self) w1 s fuel eq_refl)
    as [w2 [(E2&->&_)|(y&s'&it2&->&E2&Hl&_)]]; [lia|..]; simpl.
  - by rewrite <- Hout, E2.
  - destruct (eb_traverse key g eq_refl (length xs + k2) it2 w2 s' fuel)
      as (w3 & E3 & _); [lia|lia|].
    unfold eb_goto in E3 |- *. simpl in E3 |- *. rewrite E3. simpl.
    by rewrite <- Hout, E2.
Qed.

(** C4. For every source, every iterable [second] and every pure
    [key_selector], a traversal of [except_by(second, key_selector)]
    yields, in source order, exactly the source elements whose key is
    neither the key of an element of [second] nor the key of an element
    yielded earlier: the result is a subsequence of the source with at
    most one element per key, its keys are the source keys that are not
    keys of [second], and [distinct_by(key_selector)] is
    [except_by((), key_selector)]. *)
Theorem except_by_keeps_first_of_each_new_key
    (self second : iterable A) (key : A → K) (w : world A) (k1 k2 : nat) :
  let xs := elements_of self w in
  let ys := elements_of second w in
  let out := except_by_spec key (key <$> ys) [] xs in
  (materialize (S (length xs + length ys) + k1) (S (length xs) + k2)
     (except_by self second (λ x, Returns (key x))) w).1 = (out, Exhausted)
  ∧ out `sublist_of` xs
  ∧ NoDup (key <$> out)
  ∧ (∀ k, k ∈ (key <$> out) ↔ k ∈ (key <$> xs) ∧ (k ∉ key <$> ys))
  ∧ distinct_by self (λ x, Returns (key x))
    = except_by self (FromList []) (λ x, Returns (key x))
  ∧ (materialize (S (length xs) + k1) (S (length xs) + k2)
       (distinct_by self (λ x, Returns (key x))) w).1
    = (except_by_spec key [] [] xs, Exhausted).
Proof.
  intros xs ys out. split_and!.
  - apply except_by_materialize.
  - apply except_by_spec_sublist.
  - apply except_by_spec_NoDup.
  - intros k. unfold out. rewrite except_by_spec_keys. simpl.
    rewrite elem_of_nil. tauto.
  - done.
  - unfold distinct_by.
    pose proof (except_by_materialize self (FromList []) key w k1 k2) as E.
    unfold elements_of in E at 2 4. simpl in E.
    rewrite Nat.add_0_r in E. apply E.
Qed.
End ExceptByFacts.

(* ===================================================================== *)
(** ** Frames over re-iterable inputs are private *)
(* ===================================================================== *)

Section Private.
Context {A K : Type} `{Countable K}.

Lemma fresh_iter (src : iterable A) : reiterable src → fresh (iter_ src).
Proof. intros [l ->]. by exists l. Qed.

Lemma eb_loop_oblivious (g : eb_frame (A:=A) (K:=K)) :
  reiterable (eb_self g) → reiterable (eb_second g) →
  ∀ fuel s l, oblivious (λ r, eb_private r.2) (eb_loop fuel g s (ListIter l)).
Proof.
  intros Hself Hsecond. induction fuel as [|fuel IH]; intros s l; simpl.
  - apply oblivious_out_of_fuel.
  - eapply oblivious_bind; [apply oblivious_pull|].
    intros [[x|] it'] (l' & Hit & _); simpl in *; subst.
    + eapply oblivious_bind; [apply oblivious_call|]. intros key _.
      case_decide; [apply IH|].
      apply oblivious_ret. split_and!; simpl; [done..|by eexists].
    + by apply oblivious_ret.
Qed.

Lemma eb_private_frames : private_frames (eb_private (A:=A) (K:=K)).
Proof.
  split.
  - intros g (?&?&_). by split_and!.
  - intros fuel g (Hself & Hsecond & Hat). simpl. unfold eb_resume.
    destruct (eb_at g) as [|s it|] eqn:E.
    + destruct Hsecond as [ys Hys]. destruct Hself as [xs Hxs].
      rewrite Hys, Hxs. simpl.
      eapply oblivious_bind.
      * apply (oblivious_for_in (λ _, True)); [|done].
        intros x acc _. eapply oblivious_bind; [apply oblivious_call|].
        intros. by apply oblivious_ret.
      * intros s _. apply eb_loop_oblivious; rewrite ?Hys, ?Hxs; by eexists.
    + destruct Hat as [l ->]. by apply eb_loop_oblivious.
    + apply oblivious_ret. simpl. split_and!; [done..|]. by rewrite E.
Qed.

Lemma f2_loop_oblivious (g : f2_frame (A:=A)) :
  reiterable (f2_self g) →
  (∀ x n, f2_selector g x = Returns (Some n) → reiterable n) →
  ∀ fuel stack l, Forall fresh stack →
  oblivious (λ r, f2_private r.2) (f2_loop fuel g stack (ListIter l)).
Proof.
  intros Hself Hsel. induction fuel as [|fuel IH]; intros stack l Hst; simpl.
  - apply oblivious_out_of_fuel.
  - eapply oblivious_bind; [apply oblivious_pull|].
    intros [[x|] it'] (l' & Hit & _); simpl in *; subst.
    + eapply oblivious_bind; [apply oblivious_call|]. intros [n|] Hn.
      * destruct (Hsel _ _ Hn) as [ln ->]. simpl. apply IH.
        constructor; [by eexists|done].
      * apply oblivious_ret. split_and!; simpl; [done..|].
        split; [done|by eexists].
    + destruct stack as [|top stack'].
      * by apply oblivious_ret.
      * inversion Hst as [|? ? [lt ->] Hst']; subst. by apply IH.
Qed.

Lemma f2_private_frames : private_frames (f2_private (A:=A)).
Proof.
  split.
  - intros g (?&?&_). by split_and!.
  - intros fuel g (Hself & Hsel & Hat). simpl. unfold f2_resume.
    destruct (f2_at g) as [|stack it|] eqn:E.
    + destruct (fresh_iter _ Hself) as [l ->]. by apply f2_loop_oblivious.
    + destruct Hat as [Hst [l ->]]. by apply f2_loop_oblivious.
    + apply oblivious_ret. simpl. split_and!; [done..|]. by rewrite E.
Qed.

Lemma il_loop_oblivious (g : il_frame (A:=A)) :
  reiterable (il_self g) → Forall reiterable (il_iters g) →
  ∀ fuel its i, Forall fresh its →
  oblivious (λ r, il_private r.2) (il_loop fuel g its i).
Proof.
  intros Hself Hiters. induction fuel as [|fuel IH]; intros its i Hits; simpl.
  - apply oblivious_out_of_fuel.
  - destruct (its !! i) as [it|] eqn:E.
    + destruct (proj1 (Forall_lookup _ _) Hits _ _ E) as [l ->].
      eapply oblivious_bind; [apply oblivious_pull|].
      intros [[x|] it'] (l' & Hit & _); simpl in *; subst.
      * apply oblivious_ret. split_and!; simpl; [done..|].
        apply Forall_insert; [done|by eexists].
      * apply IH. by apply Forall_delete.
    + destruct its as [|it0 its'].
      * by apply oblivious_ret.
      * by apply IH.
Qed.

Lemma il_start_fresh (its0 : list (iterator A)) (iters : list (iterable A)) :
  Forall fresh its0 → Forall reiterable iters →
  Forall fresh (foldl (λ its iter', its ++ [iter_ iter']) its0 iters).
Proof.
  intros H0 Hi. revert its0 H0.
  induction Hi as [|x l Hx Hl IH]; intros its0 H0; simpl; [done|].
  apply IH. apply Forall_app. split; [done|].
  constructor; [by apply fresh_iter|constructor].
Qed.

Lemma il_private_frames : private_frames (il_private (A:=A)).
Proof.
  split.
  - intros g (?&?&_). by split_and!.
  - intros fuel g (Hself & Hiters & Hat). simpl. unfold il_resume.
    destruct (il_at g) as [|its i|] eqn:E.
    + apply il_loop_oblivious; [done..|]. apply il_start_fresh; [|done].
      constructor; [by apply fresh_iter|constructor].
    + by apply il_loop_oblivious.
    + apply oblivious_ret. simpl. split_and!; [done..|]. by rewrite E.
Qed.
End Private.

(* ===================================================================== *)
(** ** Independent traversals *)
(* ===================================================================== *)

Section Independence.
Context {A K : Type} `{Countable K}.

(** C1, as amended.  When the source and the other sequences handed to
    the operator ([second] of [except_by], the nested sequences the
    selector of [flatten2] returns, the arguments of [interleave]) are
    re-iterable and the callbacks are functions of their argument, two
    full traversals of the returned sequence give the same elements in
    the same order and end the same way, and two cursors advanced in any
    interleaving each give what a cursor advanced alone gives, in any
    world. *)
Theorem traversals_over_reiterable_inputs_agree :
  (∀ (xs ys : list A) (key_selector : A → returns K) fuel n sched w w1 w2,
     let seq := except_by (FromList xs) (FromList ys) key_selector in
     (traverse_twice fuel n seq w).1 = (traverse_twice fuel n seq w).2
     ∧ two_cursors fuel sched seq w
       = (one_cursor fuel (turns true sched) seq w1,
          one_cursor fuel (turns false sched) seq w2))
  ∧ (∀ (xs : list A) (selector : A → returns (option (list A)))
       fuel n sched w w1 w2,
     let seq := flatten2 (FromList xs) (nested_lists selector) in
     (traverse_twice fuel n seq w).1 = (traverse_twice fuel n seq w).2
     ∧ two_cursors fuel sched seq w
       = (one_cursor fuel (turns true sched) seq w1,
          one_cursor fuel (turns false sched) seq w2))
  ∧ (∀ (xs : list A) (ls : list (list A)) fuel n sched w w1 w2,
     let seq := interleave (FromList xs) (FromList <$> ls) in
     (traverse_twice fuel n seq w).1 = (traverse_twice fuel n seq w).2
     ∧ two_cursors fuel sched seq w
       = (one_cursor fuel (turns true sched) seq w1,
          one_cursor fuel (turns false sched) seq w2)).
Proof.
  split_and!.
  - intros xs ys key fuel n sched w w1 w2.
    apply (private_sequence _ (eb_private_frames (K:=K))).
    split_and!; simpl; [by eexists..|done].
  - intros xs selector fuel n sched w w1 w2.
    apply (private_sequence _ f2_private_frames).
    split_and!; simpl; [by eexists| |done].
    intros x n0. unfold nested_lists.
    destruct (selector x) as [[l|]|]; intros [= <-]. by eexists.
  - intros xs ls fuel n sched w w1 w2.
    apply (private_sequence _ il_private_frames).
    split_and!; simpl; [by eexists| |done].
    apply Forall_fmap, Forall_true. intros l. by eexists.
Qed.
End Independence.

(** C1, as stated, fails: [second] may be an iterator object, which the
    first traversal exhausts.  With the source [[1; 2]], [second] an
    iterator that has [1] to produce and the identity as key selector, the
    first traversal yields [[2]] and the second [[1; 2]]. *)
Lemma except_by_second_traversal_differs :
  traverse_twice 5 5
    (except_by (K:=nat) (FromList [1; 2]) (FromIter 0) (λ x, Returns x))
    (World {[0 := [1]]} [])
  = (([2], Exhausted), ([1; 2], Exhausted))
  ∧ (traverse_twice 5 5
       (except_by (K:=nat) (FromList [1; 2]) (FromIter 0) (λ x, Returns x))
       (World {[0 := [1]]} [])).1
    ≠ (traverse_twice 5 5
         (except_by (K:=nat) (FromList [1; 2]) (FromIter 0) (λ x, Returns x))
         (World {[0 := [1]]} [])).2.
Proof. vm_compute. split; [done|]. intros [=]. Qed.

(* ===================================================================== *)
(** ** [interleave] *)
(* ===================================================================== *)

Section InterleaveFacts.
Context {A : Type}.
Implicit Types (ls cs visited todo : list (list A)) (w : world A).

Lemma rounds_all_nil n ls : Forall (λ l, l = []) ls → rounds n ls = [].
Proof.
  revert ls. induction n as [|n IH]; intros ls Hall; simpl; [done|].
  rewrite IH.
  - rewrite app_nil_r. induction Hall as [|l ls' -> _ IH']; simpl; [done|].
    apply IH'.
  - apply Forall_fmap. eapply Forall_impl; [done|]. by intros l ->.
Qed.

Lemma all_nil_of_bound ls :
  Forall (λ l, length l ≤ 0) ls → Forall (λ l, l = []) ls.
Proof.
  intros Hb. eapply Forall_impl; [exact Hb|]. simpl.
  intros l Hl. apply length_zero_iff_nil. lia.
Qed.

Lemma bound_tail n ls :
  Forall (λ l, length l ≤ S n) ls → Forall (λ l, length l ≤ n) (tail <$> ls).
Proof.
  intros Hb. apply Forall_fmap. eapply Forall_impl; [exact Hb|].
  simpl. intros [|x l]; simpl; lia.
Qed.

Lemma rounds_enough n m ls :
  Forall (λ l, length l ≤ n) ls → Forall (λ l, length l ≤ m) ls →
  rounds n ls = rounds m ls.
Proof.
  revert m ls. induction n as [|n IH]; intros m ls Hn Hm.
  - by rewrite !rounds_all_nil by by apply all_nil_of_bound.
  - destruct m as [|m].
    + by rewrite !rounds_all_nil by by apply all_nil_of_bound.
    + simpl. f_equal. apply IH; by apply bound_tail.
Qed.

Lemma rounds_skip_nil n visited todo :
  rounds n (visited ++ [] :: todo) = rounds n (visited ++ todo).
Proof.
  revert visited todo. induction n as [|n IH]; intros vs td; simpl; [done|].
  rewrite !omap_app, !fmap_app. simpl. by rewrite IH.
Qed.

Lemma pending_yield n visited x l todo :
  pending n visited ((x :: l) :: todo) = x :: pending n (visited ++ [l]) todo.
Proof. unfold pending. simpl. by rewrite <- app_assoc. Qed.

Lemma pending_pop n visited todo :
  pending n visited ([] :: todo) = pending n visited todo.
Proof. unfold pending. simpl. by rewrite rounds_skip_nil. Qed.

Lemma pending_round n ls : pending n [] ls = rounds (S n) ls.
Proof. done. Qed.

Lemma pending_end n visited : pending n visited [] = rounds n visited.
Proof. unfold pending. simpl. by rewrite app_nil_r. Qed.

Lemma rounds_Permutation n ls :
  Forall (λ l, length l ≤ n) ls → rounds n ls ≡ₚ concat ls.
Proof.
  revert ls. induction n as [|n IH]; intros ls Hn.
  - simpl. apply all_nil_of_bound in Hn.
    induction Hn as [|l ls' -> _ IH']; [done|]. apply IH'.
  - simpl. rewrite IH.
    + clear. induction ls as [|[|x l] ls' IH']; simpl; [done|exact IH'|].
      constructor. rewrite <- IH', !app_assoc.
      f_equiv; [apply Permutation_app_comm|done].
    + by apply bound_tail.
Qed.

Lemma il_loop_spec (g : il_frame (A:=A)) :
  ∀ fuel visited todo n w,
  2 * length (visited ++ todo) + (if todo is [] then 1 else 0) < fuel →
  Forall (λ l, length l ≤ n) (visited ++ (tail <$> todo)) →
  ∃ w',
    (il_loop fuel g (ListIter <$> (visited ++ todo)) (length visited) w
       = (Ok (None, il_goto g IlDone), w')
     ∧ pending n visited todo = [])
    ∨ (∃ x visited' l todo' n',
        il_loop fuel g (ListIter <$> (visited ++ todo)) (length visited) w
          = (Ok (Some x,
                 il_goto g (IlYielded (ListIter <$> (visited' ++ l :: todo'))
                              (length visited'))), w')
        ∧ pending n visited todo = x :: pending n' (visited' ++ [l]) todo'
        ∧ Forall (λ l, length l ≤ n') ((visited' ++ [l]) ++ (tail <$> todo'))
        ∧ sum_list_with length (visited' ++ l :: todo')
          < sum_list_with length (visited ++ todo)
        ∧ length (visited' ++ l :: todo') ≤ length (visited ++ todo)).
Proof.
  induction fuel as [|fuel IH]; intros visited todo n w Hf Hn; [lia|].
  simpl. rewrite list_lookup_fmap. destruct todo as [|[|x l] todo'].
  - rewrite app_nil_r in *. rewrite lookup_ge_None_2 by done. simpl.
    destruct visited as [|v vs]; simpl.
    + eexists. left. split; [done|]. by rewrite pending_end, rounds_all_nil.
    + destruct (IH [] (v :: vs) n w) as [w' [(E&Hp)|(y&vs'&l&td'&n'&E&Hp&?&?&?)]].
      { simpl in *. lia. }
      { apply (bound_tail n (v :: vs)). eapply Forall_impl; [exact Hn|].
        simpl. intros; lia. }
      * exists w'. left. simpl in E. split; [done|].
        rewrite pending_end, <- Hp, pending_round.
        apply rounds_enough; [done|]. eapply Forall_impl; [exact Hn|].
        simpl. intros; lia.
      * exists w'. right. exists y, vs', l, td', n'. simpl in E.
        split_and!; try done.
        rewrite pending_end, <- Hp, pending_round.
        apply rounds_enough; [done|]. eapply Forall_impl; [exact Hn|].
        simpl. intros; lia.
  - rewrite list_lookup_middle by done. simpl. munfold. simpl.
    rewrite <- list_fmap_delete, delete_middle.
    destruct (IH visited todo' n (log Pulled w))
      as [w' [(E&Hp)|(y&vs'&l&td'&n'&E&Hp&?&Hs&Hl)]].
    { rewrite !length_app in *. simpl in *. destruct todo'; lia. }
    { apply Forall_app in Hn as [Hv Ht]. simpl in Ht.
      apply Forall_cons in Ht as [_ Ht]. by apply Forall_app. }
    * exists w'. left. split; [done|]. by rewrite pending_pop.
    * exists w'. right. exists y, vs', l, td', n'.
      split_and!; try done.
      -- by rewrite pending_pop.
      -- rewrite !sum_list_with_app in *. simpl in *. lia.
      -- rewrite !length_app in *. simpl in *. lia.
  - rewrite list_lookup_middle by done. simpl. munfold. simpl.
    eexists. right. exists x, visited, l, todo', n. split_and!.
    + do 3 f_equal. unfold il_goto. do 2 f_equal.
      rewrite <- (list_fmap_insert ListIter).
      rewrite insert_app_r_alt by done.
      by rewrite Nat.sub_diag.
    + apply pending_yield.
    + by rewrite <- app_assoc.
    + rewrite !sum_list_with_app. simpl. lia.
    + rewrite !length_app. simpl. lia.
Qed.

Lemma il_traverse (g : il_frame (A:=A)) :
  ∀ N visited todo n i w fuel,
  i + 1 = length visited →
  sum_list_with length (visited ++ todo) < N →
  2 * length (visited ++ todo) + 1 < fuel →
  Forall (λ l, length l ≤ n) (visited ++ (tail <$> todo)) →
  ∃ w', traverse fuel N
          (il_goto g (IlYielded (ListIter <$> (visited ++ todo)) i)) w
        = (pending n visited todo, Exhausted, w').
Proof.
  induction N as [|N IH]; intros visited todo n i w fuel Hi HN Hf Hn; [lia|].
  simpl. unfold next_. simpl.
  change (il_resume fuel (il_goto g (IlYielded (ListIter <$> (visited ++ todo)) i)) w)
    with (il_loop fuel (il_goto g (IlYielded (ListIter <$> (visited ++ todo)) i))
            (ListIter <$> (visited ++ todo)) (i + 1) w).
  rewrite Hi.
  destruct (il_loop_spec (il_goto g (IlYielded (ListIter <$> (visited ++ todo)) i))
              fuel visited todo n w)
    as [w1 [(->&Hp)|(y&vs'&l&td'&n'&->&Hp&Hn'&Hs&Hl)]]; [destruct todo; lia|done|..].
  - exists w1. by rewrite Hp.
  - unfold il_goto. simpl.
    destruct (IH (vs' ++ [l]) td' n' (length vs') w1 fuel) as (w2 & E2).
    { rewrite length_app. simpl. lia. }
    { rewrite <- app_assoc. simpl. lia. }
    { rewrite <- app_assoc. simpl. lia. }
    { done. }
    rewrite <- app_assoc in E2. simpl in E2. unfold il_goto in E2.
    rewrite E2. exists w2. by rewrite Hp.
Qed.

Lemma il_start_lists (its0 : list (iterator A)) ls :
  foldl (λ its iter', its ++ [iter_ iter']) its0 (FromList <$> ls)
  = its0 ++ (ListIter <$> ls).
Proof.
  revert its0. induction ls as [|l ls' IH]; intros its0; simpl.
  - by rewrite app_nil_r.
  - by rewrite IH, <- app_assoc.
Qed.

Lemma max_list_with_bound ls :
  Forall (λ l, length l ≤ max_list_with length ls) ls.
Proof.
  induction ls as [|l ls' IH]; simpl; constructor; [lia|].
  eapply Forall_impl; [done|]. simpl. intros; lia.
Qed.

Lemma interleave_materialize (xs : list A) ls w k1 k2 :
  (materialize (2 * length (xs :: ls) + 2 + k1)
     (S (sum_list_with length (xs :: ls)) + k2)
     (interleave (FromList xs) (FromList <$> ls)) w).1
  = (round_robin (xs :: ls), Exhausted).
Proof.
  unfold materialize, interleave. munfold.
  assert (∃ fuel, fuel = 2 * length (xs :: ls) + 2 + k1) as [fuel Hfuel]
    by by eexists.
  rewrite <- Hfuel.
  change (S (sum_list_with length (xs :: ls)) + k2)
    with (S (sum_list_with length (xs :: ls) + k2)).
  assert (∃ N, N = sum_list_with length (xs :: ls) + k2) as [N HN]
    by by eexists.
  rewrite <- HN.
  set (g := IlFrame (FromList xs) (FromList <$> ls) IlStart).
  simpl. unfold next_. simpl.
  change (il_resume fuel g w)
    with (il_loop fuel g
            (foldl (λ its iter', its ++ [iter_ iter']) [ListIter xs]
               (FromList <$> ls)) 0 w).
  rewrite il_start_lists.
  set (n := max_list_with length (xs :: ls)).
  pose proof (max_list_with_bound (xs :: ls)) as Hb. fold n in Hb.
  assert (Hr : pending n [] (xs :: ls) = round_robin (xs :: ls)).
  { rewrite pending_round. apply rounds_enough; [|done].
    eapply Forall_impl; [exact Hb|]. simpl. intros; lia. }
  destruct (il_loop_spec g fuel [] (xs :: ls) n w)
    as [w1 [(E&Hp)|(y&vs'&l&td'&n'&E&Hp&Hn'&Hs&Hl)]].
  { simpl in *. lia. }
  { apply (bound_tail n (xs :: ls)).
    eapply Forall_impl; [exact Hb|]. simpl. intros; lia. }
  - change (il_loop fuel g ([ListIter xs] ++ (ListIter <$> ls)) 0 w
            = (Ok (None, il_goto g IlDone), w1)) in E.
    rewrite E. simpl. by rewrite <- Hr, Hp.
  - change (il_loop fuel g ([ListIter xs] ++ (ListIter <$> ls)) 0 w
            = (Ok (Some y, il_goto g (IlYielded (ListIter <$> (vs' ++ l :: td'))
                                        (length vs'))), w1)) in E.
    rewrite E.
    destruct (il_traverse g N (vs' ++ [l]) td' n' (length vs') w1 fuel)
      as (w2 & E2).
    { rewrite length_app. simpl. lia. }
    { rewrite <- app_assoc. simpl in *. lia. }
    { rewrite <- app_assoc. simpl in *. lia. }
    { done. }
    rewrite <- app_assoc in E2. simpl in E2. unfold il_goto in E2 |- *.
    simpl in E2 |- *. rewrite E2. simpl. by rewrite <- Hr, Hp.
Qed.

Lemma tracks_middle its visited l todo w :
  tracks its (visited ++ l :: todo) w →
  ∃ its1 it its2,
    its = its1 ++ it :: its2 ∧ length its1 = length visited
    ∧ content it w = l
    ∧ Forall2 (λ it l, content it w = l) its1 visited
    ∧ Forall2 (λ it l, content it w = l) its2 todo.
Proof.
  intros [(its1 & its2' & H1 & H2 & ->)%Forall2_app_inv_r _].
  apply Forall2_cons_inv_r in H2 as (it & its2 & Hc & H2 & ->).
  exists its1, it, its2. split_and!; try done. by eapply Forall2_length.
Qed.

Lemma il_loop_shared (g : il_frame (A:=A)) :
  ∀ fuel its visited todo n w,
  tracks its (visited ++ todo) w →
  2 * length (visited ++ todo) + (if todo is [] then 1 else 0) < fuel →
  Forall (λ l, length l ≤ n) (visited ++ (tail <$> todo)) →
  ∃ w',
    (il_loop fuel g its (length visited) w = (Ok (None, il_goto g IlDone), w')
     ∧ pending n visited todo = [])
    ∨ (∃ x its' visited' l todo' n',
        il_loop fuel g its (length visited) w
          = (Ok (Some x, il_goto g (IlYielded its' (length visited'))), w')
        ∧ tracks its' (visited' ++ l :: todo') w'
        ∧ pending n visited todo = x :: pending n' (visited' ++ [l]) todo'
        ∧ Forall (λ l, length l ≤ n') ((visited' ++ [l]) ++ (tail <$> todo'))
        ∧ sum_list_with length (visited' ++ l :: todo')
          < sum_list_with length (visited ++ todo)
        ∧ length (visited' ++ l :: todo') ≤ length (visited ++ todo)).
Proof.
  induction fuel as [|fuel IH]; intros its visited todo n w Htr Hf Hn; [lia|].
  simpl. destruct todo as [|[|x l] todo'].
  - rewrite app_nil_r in *.
    pose proof (Forall2_length _ _ _ (proj1 Htr)) as Hlen.
    rewrite lookup_ge_None_2 by lia.
    destruct visited as [|v vs].
    + destruct its; [|done]. simpl.
      eexists. left. split; [done|]. by rewrite pending_end, rounds_all_nil.
    + destruct its as [|it0 its0]; [done|].
      destruct (IH (it0 :: its0) [] (v :: vs) n w)
        as [w' [(E&Hp)|(y&its'&vs'&l&td'&n'&E&Htr'&Hp&?&?&?)]].
      { done. }
      { simpl in *. lia. }
      { apply (bound_tail n (v :: vs)). eapply Forall_impl; [exact Hn|].
        simpl. intros; lia. }
      * exists w'. left. simpl in E. split; [done|].
        rewrite pending_end, <- Hp, pending_round.
        apply rounds_enough; [done|]. eapply Forall_impl; [exact Hn|].
        simpl. intros; lia.
      * exists w'. right. exists y, its', vs', l, td', n'. simpl in E.
        split_and!; try done.
        rewrite pending_end, <- Hp, pending_round.
        apply rounds_enough; [done|]. eapply Forall_impl; [exact Hn|].
        simpl. intros; lia.
  - destruct (tracks_middle its visited [] todo' w Htr)
      as (its1 & it & its2 & -> & Hl1 & Hc & H1 & H2).
    rewrite <- Hl1, list_lookup_middle by done. munfold.
    rewrite (pull_nil _ _ Hc). rewrite delete_middle, Hl1.
    destruct (IH (its1 ++ its2) visited todo' n (log Pulled w))
      as [w' [(E&Hp)|(y&its'&vs'&l&td'&n'&E&Htr'&Hp&?&Hs&Hl)]].
    { split.
      - apply Forall2_app; (eapply Forall2_impl; [done|]); simpl;
          intros it0 l0 <-; apply content_log.
      - eapply NoDup_omap_delete, (proj2 Htr). }
    { rewrite !length_app in *. simpl in *. destruct todo'; lia. }
    { apply Forall_app in Hn as [Hv Ht]. simpl in Ht.
      apply Forall_cons in Ht as [_ Ht]. by apply Forall_app. }
    * exists w'. left. split; [done|]. by rewrite pending_pop.
    * exists w'. right. exists y, its', vs', l, td', n'.
      split_and!; try done.
      -- by rewrite pending_pop.
      -- rewrite !sum_list_with_app in *. simpl in *. lia.
      -- rewrite !length_app in *. simpl in *. lia.
  - destruct (tracks_middle its visited (x :: l) todo' w Htr)
      as (its1 & it & its2 & -> & Hl1 & Hc & H1 & H2).
    rewrite <- Hl1, list_lookup_middle by done. munfold.
    destruct (pull_cons _ _ _ _ Hc) as (it' & w1 & E & Hc1 & _).
    rewrite E. simpl.
    destruct (pull_same_but _ _ _ _ _ E) as [Hw Hreg].
    eexists. right. exists x, (its1 ++ it' :: its2), visited, l, todo', n.
    split_and!.
    + do 3 f_equal. unfold il_goto. do 2 f_equal; [|done].
      rewrite insert_app_r_alt by lia. by rewrite Nat.sub_diag.
    + destruct Htr as [_ Hnd]. split.
      * apply Forall2_app; [|constructor; [done|]];
          apply (Forall2_content_same_but id (reg_it it) w w1); try done;
          intros r Hr;
          by destruct (NoDup_omap_middle its1 it its2 r Hnd Hr) as (?&?&_).
      * by rewrite (omap_reg_it_middle its1 it it' its2).
    + apply pending_yield.
    + by rewrite <- app_assoc.
    + rewrite !sum_list_with_app. simpl. lia.
    + rewrite !length_app. simpl. lia.
Qed.

Lemma il_traverse_shared (g : il_frame (A:=A)) :
  ∀ N its visited todo n i w fuel,
  tracks its (visited ++ todo) w →
  i + 1 = length visited →
  sum_list_with length (visited ++ todo) < N →
  2 * length (visited ++ todo) + 1 < fuel →
  Forall (λ l, length l ≤ n) (visited ++ (tail <$> todo)) →
  ∃ w', traverse fuel N (il_goto g (IlYielded its i)) w
        = (pending n visited todo, Exhausted, w').
Proof.
  induction N as [|N IH]; intros its visited todo n i w fuel Htr Hi HN Hf Hn; [lia|].
  simpl. unfold next_. simpl.
  change (il_resume fuel (il_goto g (IlYielded its i)) w)
    with (il_loop fuel (il_goto g (IlYielded its i)) its (i + 1) w).
  rewrite Hi.
  destruct (il_loop_shared (il_goto g (IlYielded its i))
              fuel its visited todo n w Htr)
    as [w1 [(->&Hp)|(y&its'&vs'&l&td'&n'&->&Htr'&Hp&Hn'&Hs&Hl)]];
    [destruct todo; lia|done|..].
  - exists w1. by rewrite Hp.
  - unfold il_goto. simpl.
    destruct (IH its' (vs' ++ [l]) td' n' (length vs') w1 fuel) as (w2 & E2).
    { by rewrite <- app_assoc. }
    { rewrite length_app. simpl. lia. }
    { rewrite <- app_assoc. simpl. lia. }
    { rewrite <- app_assoc. simpl. lia. }
    { done. }
    unfold il_goto in E2. simpl in E2.
    rewrite E2. exists w2. by rewrite Hp.
Qed.

Lemma il_start_iters (its0 : list (iterator A)) (srcs : list (iterable A)) :
  foldl (λ its iter', its ++ [iter_ iter']) its0 srcs
  = its0 ++ (iter_ <$> srcs).
Proof.
  revert its0. induction srcs as [|src srcs IH]; intros its0; simpl.
  - by rewrite app_nil_r.
  - by rewrite IH, <- app_assoc.
Qed.

Lemma interleave_materialize_shared
    (self : iterable A) (iters : list (iterable A)) w k1 k2 :
  NoDup (omap reg_of (self :: iters)) →
  (materialize (2 * length (self :: iters) + 2 + k1)
     (S (sum_list_with length ((λ src, elements_of src w) <$> self :: iters)) + k2)
     (interleave self iters) w).1
  = (round_robin ((λ src, elements_of src w) <$> self :: iters), Exhausted).
Proof.
  intros Hnd.
  set (ls := (λ src, elements_of src w) <$> self :: iters).
  assert (Hlen : length ls = length (self :: iters))
    by (unfold ls; by rewrite length_fmap).
  unfold materialize, interleave. munfold.
  assert (∃ fuel, fuel = 2 * length (self :: iters) + 2 + k1) as [fuel Hfuel]
    by by eexists.
  rewrite <- Hfuel.
  change (S (sum_list_with length ls) + k2)
    with (S (sum_list_with length ls + k2)).
  assert (∃ N, N = sum_list_with length ls + k2) as [N HN] by by eexists.
  rewrite <- HN.
  set (g := IlFrame self iters IlStart).
  cbn [traverse factory]. unfold next_.
  change (resume fuel g w)
    with (il_loop fuel g
            (foldl (λ its iter', its ++ [iter_ iter']) [iter_ self] iters) 0 w).
  rewrite il_start_iters.
  change ([iter_ self] ++ (iter_ <$> iters)) with (iter_ <$> self :: iters).
  assert (Htr : tracks (iter_ <$> self :: iters) ([] ++ ls) w).
  { split.
    - unfold ls. apply Forall2_fmap, Forall_Forall2_diag, Forall_forall.
      by intros src _.
    - by rewrite omap_reg_it_iter. }
  set (n := max_list_with length ls).
  pose proof (max_list_with_bound ls) as Hb. fold n in Hb.
  assert (Hr : pending n [] ls = round_robin ls).
  { rewrite pending_round. apply rounds_enough; [|done].
    eapply Forall_impl; [exact Hb|]. simpl. intros; lia. }
  destruct (il_loop_shared g fuel (iter_ <$> self :: iters) [] ls n w Htr)
    as [w1 [(E&Hp)|(y&its'&vs'&l&td'&n'&E&Htr'&Hp&Hn'&Hs&Hl)]].
  { simpl in *. destruct ls; simpl in *; lia. }
  { apply (bound_tail n ls).
    eapply Forall_impl; [exact Hb|]. simpl. intros; lia. }
  - change (length []) with 0 in E. rewrite E. simpl. by rewrite <- Hr, Hp.
  - change (length []) with 0 in E. rewrite E.
    destruct (il_traverse_shared g N its' (vs' ++ [l]) td' n' (length vs') w1 fuel)
      as (w2 & E2).
    { by rewrite <- app_assoc. }
    { rewrite length_app. simpl. lia. }
    { rewrite <- app_assoc. simpl in *. lia. }
    { rewrite <- app_assoc. simpl in *. lia. }
    { done. }
    unfold il_goto in E2 |- *. simpl in E2 |- *. rewrite E2. simpl.
    by rewrite <- Hr, Hp.
Qed.

(** C8. [interleave] over the receiver and the given inputs yields their
    elements round-robin: round after round, the next element of every
    input that still has one, in argument order, the receiver first; an
    exhausted input is dropped and the round goes on with the next one.
    The inputs are lists or iterator objects, no iterator object given
    twice.  For finite inputs the traversal ends, and every element of
    every input is yielded exactly once. *)
Theorem interleave_yields_round_robin
    (self : iterable A) (iters : list (iterable A)) w k1 k2 :
  NoDup (omap reg_of (self :: iters)) →
  (materialize (2 * length (self :: iters) + 2 + k1)
     (S (sum_list_with length ((λ src, elements_of src w) <$> self :: iters)) + k2)
     (interleave self iters) w).1
  = (round_robin ((λ src, elements_of src w) <$> self :: iters), Exhausted)
  ∧ round_robin ((λ src, elements_of src w) <$> self :: iters)
    ≡ₚ concat ((λ src, elements_of src w) <$> self :: iters)
  ∧ (∀ (xs : list A) ls w k1 k2,
       (materialize (2 * length (xs :: ls) + 2 + k1)
          (S (sum_list_with length (xs :: ls)) + k2)
          (interleave (FromList xs) (FromList <$> ls)) w).1
       = (round_robin (xs :: ls), Exhausted)
       ∧ round_robin (xs :: ls) ≡ₚ concat (xs :: ls))
  ∧ (∀ n cs, rounds (S n) cs = omap head cs ++ rounds n (tail <$> cs))
  ∧ (∀ n visited todo, rounds n (visited ++ [] :: todo) = rounds n (visited ++ todo)).
Proof.
  intros Hnd. split_and!.
  - by apply interleave_materialize_shared.
  - apply rounds_Permutation, max_list_with_bound.
  - intros xs ls w0 k1' k2'. split.
    + apply interleave_materialize.
    + apply rounds_Permutation, max_list_with_bound.
  - done.
  - intros. apply rounds_skip_nil.
Qed.
End InterleaveFacts.

Lemma interleave_iterator_object_witness :
  (materialize 6 5 (interleave (FromList [1; 2]) [FromIter 0])
     (World {[0 := [7; 8]]} [])).1
  = ([1; 7; 2; 8], Exhausted).
Proof.
  assert (Hnd : NoDup (omap reg_of [FromList [1; 2]; FromIter (A:=nat) 0])).
  { simpl. apply NoDup_singleton. }
  exact (proj1 (interleave_yields_round_robin (FromList [1; 2]) [FromIter 0]
                  (World {[0 := [7; 8]]} []) 0 0 Hnd)).
Defined.

(* ===================================================================== *)
(** ** [traverse_depth_first] *)
(* ===================================================================== *)

Section DepthFirstFacts.
Context {V : Type}.
Implicit Types (t : tree V) (stack : list (tree V)) (w : world (tree V)).

Lemma push_reversed (cs stack : list (tree V)) :
  foldl (λ stack child, child :: stack) stack (reverse cs) = cs ++ stack.
Proof.
  revert stack. induction cs as [|c cs IH]; intros stack; [done|].
  rewrite reverse_cons, foldl_app. simpl. by rewrite IH.
Qed.

Lemma preorder_unfold t :
  preorder t = t :: concat (map preorder (children t)).
Proof. by destruct t. Qed.

Lemma children_length t : length (children t) < length (preorder t).
Proof.
  rewrite preorder_unfold. simpl. apply Nat.lt_succ_r.
  induction (children t) as [|c cs IH]; simpl; [lia|].
  rewrite length_app, (preorder_unfold c). simpl. lia.
Qed.

Lemma df_traverse (g : df_frame (A:=tree V)) :
  df_children_selector g = children_of →
  ∀ N elem stack w fuel,
  length (concat (map preorder (elem :: stack))) < fuel →
  length (concat (map preorder (children elem ++ stack))) < N →
  ∃ w', traverse fuel N (df_goto g (TrYielded elem stack)) w
        = (concat (map preorder (children elem ++ stack)), Exhausted, w').
Proof.
  intros Hsel. induction N as [|N IH]; intros elem stack w fuel Hf HN; [lia|].
  simpl. unfold next_. simpl. unfold df_resume. simpl. rewrite Hsel.
  munfold. unfold children_of at 1.
  destruct (unpack_list (children elem) fuel (log (Called elem) w))
    as (w1 & -> & _).
  { pose proof (children_length elem). simpl in Hf. rewrite length_app in Hf. lia. }
  rewrite push_reversed.
  destruct (children elem ++ stack) as [|c rest] eqn:E; simpl.
  - by eexists.
  - destruct (IH c rest w1 fuel) as (w2 & E2).
    + simpl in Hf |- *. rewrite length_app in Hf |- *.
      assert (length (concat (map preorder (children elem ++ stack)))
              < length (preorder elem) + length (concat (map preorder stack))).
      { rewrite map_app, concat_app, length_app, (preorder_unfold elem).
        simpl. lia. }
      rewrite E in H. simpl in H. rewrite length_app in H. lia.
    + simpl in HN. rewrite (preorder_unfold c) in HN. simpl in HN.
      rewrite map_app, concat_app, !length_app in *. lia.
    + unfold df_goto in E2 |- *. simpl in E2 |- *. rewrite E2.
      exists w2. rewrite (preorder_unfold c). simpl.
      by rewrite map_app, concat_app.
Qed.

End DepthFirstFacts.

Section DepthFirstShared.
Context {A : Type}.
Implicit Types (t : tree A) (rest forest : list (tree A)) (w : world A)
  (children_selector : A → returns (iterable A)).

Lemma push_reversed_labels (cs stack : list A) :
  foldl (λ stack child, child :: stack) stack (reverse cs) = cs ++ stack.
Proof.
  revert stack. induction cs as [|c cs IH]; intros stack; [done|].
  rewrite reverse_cons, foldl_app. simpl. by rewrite IH.
Qed.

Lemma nodes_cons t rest :
  concat (map preorder (t :: rest))
  = t :: concat (map preorder (children t ++ rest)).
Proof.
  cbn [map concat]. by rewrite (preorder_unfold t), map_app, concat_app.
Qed.

Lemma unpack_shared (src : iterable A) fuel w :
  length (elements_of src w) < fuel →
  ∃ w', unpack fuel src w = (Ok (elements_of src w), w')
      ∧ same_but (reg_of src) w w'.
Proof.
  intros Hf. unfold unpack, elements_of in *.
  destruct (for_in_neutral (λ x acc, mret (acc ++ [x])) (λ x acc, acc ++ [x])
              (content (iter_ src) w))
    with (it := iter_ src) (w := w) (acc := @nil A) (fuel := fuel)
    as (w' & E & Hh); [|done|done|].
  { intros x acc w0. by eexists. }
  exists w'. split.
  - rewrite E. do 2 f_equal.
    generalize (content (iter_ src) w). intros l.
    assert (∀ acc : list A, foldl (λ a x, a ++ [x]) acc l = acc ++ l) as ->; [|done].
    induction l as [|x l IH]; intros acc; simpl; [by rewrite app_nil_r|].
    by rewrite IH, <- app_assoc.
  - rewrite <- reg_it_iter. by apply exhaust_same_but.
Qed.

Lemma child_regs_cons children_selector t (nodes : list (tree A)) src :
  children_selector (label t) = Returns src →
  child_regs children_selector (t :: nodes)
  = match reg_of src with
    | Some r => r :: child_regs children_selector nodes
    | None => child_regs children_selector nodes
    end.
Proof. intros E. unfold child_regs. simpl. by rewrite E. Qed.

Lemma shows_after children_selector w w' t rest src :
  shows children_selector w (t :: rest) →
  NoDup (child_regs children_selector (concat (map preorder (t :: rest)))) →
  children_selector (label t) = Returns src →
  same_but (reg_of src) w w' →
  shows children_selector w' (children t ++ rest)
  ∧ NoDup (child_regs children_selector
             (concat (map preorder (children t ++ rest)))).
Proof.
  intros Hsh Hnd Hsrc Hw. rewrite nodes_cons in Hnd.
  rewrite (child_regs_cons _ _ _ src Hsrc) in Hnd. split.
  - intros n Hn. destruct (Hsh n) as (src' & Hsel & Hel).
    { rewrite nodes_cons. by right. }
    exists src'. split; [done|]. rewrite <- Hel.
    apply (elements_same_but (reg_of src)); [done|].
    intros r Hr Heq. rewrite <- Heq in Hnd. apply NoDup_cons in Hnd as [Hnin _].
    apply Hnin. unfold child_regs. apply list_elem_of_omap.
    exists n. split; [done|]. by rewrite Hsel.
  - destruct (reg_of src); [by apply NoDup_cons in Hnd as [_ ?]|done].
Qed.

Lemma df_traverse_shared (g : df_frame (A:=A)) :
  ∀ N t rest w fuel,
  shows (df_children_selector g) w (t :: rest) →
  NoDup (child_regs (df_children_selector g) (concat (map preorder (t :: rest)))) →
  length (concat (map preorder (t :: rest))) < fuel →
  length (concat (map preorder (children t ++ rest))) < N →
  ∃ w', traverse fuel N (df_goto g (TrYielded (label t) (label <$> rest))) w
        = (label <$> concat (map preorder (children t ++ rest)), Exhausted, w').
Proof.
  induction N as [|N IH]; intros t rest w fuel Hsh Hnd Hf HN; [lia|].
  destruct (Hsh t) as (src & Hsel & Hel); [rewrite nodes_cons; left|].
  simpl. unfold next_. simpl. unfold df_resume. simpl.
  destruct (unpack_shared src fuel (log (Called (label t)) w)) as (w1 & E1 & Hw1).
  { unfold elements_of in *. rewrite content_log, Hel, length_fmap.
    rewrite nodes_cons in Hf. cbn [length] in Hf.
    rewrite map_app, concat_app, length_app in Hf.
    assert (length (children t) ≤ length (concat (map preorder (children t)))).
    { clear. induction (children t) as [|c cs IHc]; simpl; [lia|].
      rewrite length_app, (preorder_unfold c). simpl. lia. }
    lia. }
  munfold. rewrite Hsel. simpl. rewrite E1.
  unfold elements_of in E1 |- *. rewrite content_log.
  fold (elements_of src w). rewrite Hel.
  rewrite push_reversed_labels, <- fmap_app.
  destruct (shows_after _ w w1 t rest src Hsh Hnd Hsel) as [Hsh1 Hnd1].
  { intros r Hr. simpl. by apply Hw1. }
  destruct (children t ++ rest) as [|c rest'] eqn:E; simpl.
  - by eexists.
  - destruct (IH c rest' w1 fuel) as (w2 & E2); [done|done| | |].
    + rewrite nodes_cons, E in Hf. cbn [length] in Hf. lia.
    + rewrite nodes_cons in HN. cbn [length] in HN. lia.
    + unfold df_goto in E2 |- *. simpl in E2 |- *.
      change (list_fmap (tree A) A label rest') with (label <$> rest').
      rewrite E2. exists w2.
      pose proof (nodes_cons c rest') as Hnc. cbn [map concat] in Hnc.
      by rewrite Hnc.
Qed.

Lemma df_materialize_shared t children_selector w k1 k2 :
  shows children_selector w [t] →
  NoDup (child_regs children_selector (preorder t)) →
  (materialize (S (length (preorder t)) + k1) (S (length (preorder t)) + k2)
     (traverse_depth_first (label t) children_selector) w).1
  = (label <$> preorder t, Exhausted).
Proof.
  intros Hsh Hnd. unfold materialize, traverse_depth_first. munfold.
  change (S (length (preorder t)) + k2) with (S (length (preorder t) + k2)).
  remember (S (length (preorder t)) + k1) as fuel eqn:Hfuel.
  remember (length (preorder t) + k2) as N eqn:HN.
  simpl. unfold next_. simpl.
  set (g := DfFrame (label t) children_selector TrStart).
  destruct (df_traverse_shared g N t [] w fuel) as (w' & E).
  { done. }
  { simpl. by rewrite app_nil_r. }
  { simpl. rewrite app_nil_r. lia. }
  { rewrite app_nil_r, HN, (preorder_unfold t). simpl. lia. }
  change (label <$> []) with (@nil A) in E. rewrite E. simpl.
  by rewrite app_nil_r, (preorder_unfold t).
Qed.

(** C9. [traverse_depth_first(root, children_selector)] yields the nodes of
    the tree in pre-order: the root first, and for every node the whole
    subtree of a child before the next child, in the order of the children
    selector; pushing the children in reversed order leaves the first child
    on top of the stack.  The children selector hands over the children of
    a node as a list or as an iterator object, no iterator object for two
    nodes. *)
Theorem traverse_depth_first_is_preorder t children_selector w k1 k2 :
  shows children_selector w [t] →
  NoDup (child_regs children_selector (preorder t)) →
  (materialize (S (length (preorder t)) + k1) (S (length (preorder t)) + k2)
     (traverse_depth_first (label t) children_selector) w).1
  = (label <$> preorder t, Exhausted)
  ∧ (∀ (V : Type) (root : tree V) (w : world (tree V)) k1 k2,
       (materialize (S (length (preorder root)) + k1)
          (S (length (preorder root)) + k2)
          (traverse_depth_first root children_of) w).1
       = (preorder root, Exhausted))
  ∧ (∀ (V : Type) (v : V) (cs : list (tree V)),
       preorder (Node v cs) = Node v cs :: concat (map preorder cs))
  ∧ (∀ (V : Type) (cs stack : list (tree V)),
       foldl (λ stack child, child :: stack) stack (reverse cs) = cs ++ stack).
Proof.
  intros Hsh Hnd. split_and!; [by apply df_materialize_shared| |done|].
  - intros V root w0 k1' k2'.
    unfold materialize, traverse_depth_first. munfold.
    change (S (length (preorder root)) + k2')
      with (S (length (preorder root) + k2')).
    remember (S (length (preorder root)) + k1') as fuel eqn:Hfuel.
    remember (length (preorder root) + k2') as N eqn:HN.
    simpl. unfold next_. simpl.
    set (g := DfFrame root children_of TrStart).
    destruct (df_traverse g eq_refl N root [] w0 fuel) as (w' & E).
    { simpl. rewrite app_nil_r. lia. }
    { rewrite app_nil_r, HN, (preorder_unfold root). simpl. lia. }
    rewrite E. simpl.
    by rewrite app_nil_r, (preorder_unfold root).
  - intros V cs stack. apply push_reversed.
Qed.
End DepthFirstShared.

Lemma traverse_depth_first_iterator_children_witness :
  (materialize 4 4
     (traverse_depth_first 1
        (λ x, if x =? 1 then Returns (FromIter 0) else Returns (FromList [])))
     (World {[0 := [2; 3]]} [])).1
  = ([1; 2; 3], Exhausted).
Proof.
  assert (Hsh : shows
                  (λ x, if x =? 1 then Returns (FromIter 0) else Returns (FromList []))
                  (World {[0 := [2; 3]]} []) [Node 1 [Node 2 []; Node 3 []]]).
  { intros n Hn. cbn in Hn. rewrite !elem_of_cons, elem_of_nil in Hn.
    destruct Hn as [->|[->|[->|[]]]]; eexists; by split. }
  assert (Hnd : NoDup (child_regs
                  (λ x, if x =? 1 then Returns (FromIter 0) else Returns (FromList []))
                  (preorder (Node 1 [Node 2 []; Node 3 []])))).
  { cbn. apply NoDup_singleton. }
  exact (proj1 (traverse_depth_first_is_preorder (Node 1 [Node 2 []; Node 3 []])
                  (λ x, if x =? 1 then Returns (FromIter 0) else Returns (FromList []))
                  (World {[0 := [2; 3]]} []) 0 0 Hsh Hnd)).
Defined.

(* ===================================================================== *)
(** ** [flatten2] over nested sequences of any kind *)
(* ===================================================================== *)

Section NestedFacts.
Context {A : Type}.
Variable selector : A → returns (option (iterable A)).
Implicit Types (t : tree A) (cur forest : list (tree A))
  (ls : list (list (tree A))) (w : world A) (it : iterator A)
  (stack : list (iterator A)).

Lemma chain_cons (part : list A * option pyexn) parts :
  chain (part :: parts)
  = match part.2 with
    | Some e => (part.1, Some e)
    | None => (part.1 ++ (chain parts).1, (chain parts).2)
    end.
Proof. done. Qed.

Lemma chain_app (parts1 parts2 : list (list A * option pyexn)) :
  chain (parts1 ++ parts2) = chain (chain parts1 :: parts2).
Proof.
  induction parts1 as [|p parts1 IH].
  - rewrite chain_cons. simpl. by destruct (chain parts2).
  - rewrite <- app_comm_cons, !chain_cons. destruct p as [ys [e|]]; simpl; [done|].
    rewrite IH, chain_cons. destruct (chain parts1) as [zs [e|]]; simpl; [done|].
    by rewrite app_assoc.
Qed.

Lemma emit_unfold t :
  emit selector t
  = match selector (label t) with
    | Raises e => ([], Some e)
    | Returns None => ([label t], None)
    | Returns (Some _) => chain (map (emit selector) (children t))
    end.
Proof. by destruct t. Qed.

Lemma steps_unfold t :
  steps selector t
  = match selector (label t) with
    | Returns (Some _) => 2 + sum_list_with (steps selector) (children t)
    | _ => 1
    end.
Proof. by destruct t. Qed.

Lemma node_regs_app (l1 l2 : list (tree A)) :
  node_regs selector (l1 ++ l2) = node_regs selector l1 ++ node_regs selector l2.
Proof. apply omap_app. Qed.

Lemma node_regs_cons t (l : list (tree A)) :
  node_regs selector (t :: l)
  = option_list (match selector (label t) with
                 | Returns (Some src) => reg_of src
                 | _ => None
                 end) ++ node_regs selector l.
Proof.
  unfold node_regs. simpl.
  by destruct (selector (label t)) as [[[l0|r]|]|e].
Qed.

Lemma omap_reg_it_option it stack :
  omap reg_it (it :: stack) = option_list (reg_it it) ++ omap reg_it stack.
Proof. rewrite omap_reg_it_cons. by destruct (reg_it it). Qed.

Lemma describes_mono w forest forest' :
  describes selector w forest →
  (∀ n, n ∈ concat (map preorder forest') → n ∈ concat (map preorder forest)) →
  describes selector w forest'.
Proof. intros Hd Hsub n Hn. apply Hd. by apply Hsub. Qed.

Lemma f2_frame_step w w1 it stack forest ls :
  NoDup (omap reg_it (it :: stack)
         ++ node_regs selector (concat (map preorder forest))) →
  same_but (reg_it it) w w1 →
  Forall2 (λ it' l, content it' w = label <$> l) stack ls →
  describes selector w forest →
  Forall2 (λ it' l, content it' w1 = label <$> l) stack ls
  ∧ describes selector w1 forest.
Proof.
  rewrite omap_reg_it_option. intros Hnd Hw Hst Hd. split.
  - apply (Forall2_content_same_but (fmap label) (reg_it it) w w1); [done| |done].
    intros r Hr. rewrite Hr in Hnd. simpl in Hnd.
    apply NoDup_cons in Hnd as [Hnin _]. intros Hin. apply Hnin.
    apply elem_of_app. by left.
  - intros n Hn src Hsrc. rewrite <- (Hd n Hn src Hsrc).
    apply (elements_same_but (reg_it it)); [done|].
    intros r Hr Heq. rewrite <- Heq in Hnd. simpl in Hnd.
    apply NoDup_cons in Hnd as [Hnin _]. apply Hnin.
    apply elem_of_app. right. apply list_elem_of_omap.
    exists n. split; [done|]. by rewrite Hsrc.
Qed.

Lemma f2_loop_tree (g : f2_frame (A:=A)) :
  f2_selector g = selector →
  ∀ fuel stack it cur ls w,
  f2_inv selector w it stack cur ls →
  steps_all selector cur + sum_list_with (steps_all selector) ls < fuel →
  ∃ w',
    (f2_loop fuel g stack it w = (Ok (None, f2_goto g F2Done), w')
     ∧ chain (map (emit selector) (cur ++ concat ls)) = ([], None))
    ∨ (∃ e,
        f2_loop fuel g stack it w = (Raise (UserCallbackFault e), w')
        ∧ chain (map (emit selector) (cur ++ concat ls)) = ([], Some e))
    ∨ (∃ x stack' it' cur' ls',
        f2_loop fuel g stack it w
          = (Ok (Some x, f2_goto g (F2Yielded stack' it')), w')
        ∧ chain (map (emit selector) (cur ++ concat ls))
          = (x :: (chain (map (emit selector) (cur' ++ concat ls'))).1,
             (chain (map (emit selector) (cur' ++ concat ls'))).2)
        ∧ f2_inv selector w' it' stack' cur' ls'
        ∧ steps_all selector cur' + sum_list_with (steps_all selector) ls'
          < steps_all selector cur + sum_list_with (steps_all selector) ls).
Proof.
  intros Hsel. induction fuel as [|fuel IH]; intros stack it cur ls w Hinv Hf; [lia|].
  destruct Hinv as (Hc & Hst & Hd & Hnd).
  simpl. munfold. destruct cur as [|t cur].
  - rewrite (pull_nil _ _ Hc).
    destruct Hst as [|top ltop stack ls Htop Hst]; simpl.
    + eexists. by left.
    + destruct (f2_frame_step w (log Pulled w) it (top :: stack)
                  (ltop ++ concat ls) (ltop :: ls)) as [Hst1 Hd1];
        [done|by apply same_but_heap|by constructor|done|].
      apply Forall2_cons in Hst1 as [Htop1 Hst1].
      destruct (IH stack top ltop ls (log Pulled w))
        as [w' [(E&Ho)|[(e&E&Ho)|(y&st2&it2&cur2&ls2&E&Ho&Hinv2&Hm)]]].
      { split_and!; [done..|].
        rewrite (omap_reg_it_option it) in Hnd. rewrite <- app_assoc in Hnd.
        by apply NoDup_app in Hnd as (_&_&?). }
      { unfold steps_all in *. simpl in *. lia. }
      * exists w'. by left.
      * exists w'. right. left. by exists e.
      * exists w'. right. right. exists y, st2, it2, cur2, ls2.
        split_and!; [done..|]. unfold steps_all in *. simpl in *. lia.
  - simpl in Hc.
    destruct (pull_cons _ _ _ _ Hc) as (it' & w1 & E & Hc1 & _).
    rewrite E. destruct (pull_same_but _ _ _ _ _ E) as [Hw Hreg].
    rewrite Hsel.
    assert (Hw2 : same_but (reg_it it) w (log (Called (label t)) w1))
      by by apply same_but_log.
    destruct (f2_frame_step w (log (Called (label t)) w1) it stack
                ((t :: cur) ++ concat ls) ls) as [Hst2 Hd2]; [done..|].
    assert (Hc2 : content it' (log (Called (label t)) w1) = label <$> cur)
      by by rewrite content_log.
    assert (Hnodes : concat (map preorder ((t :: cur) ++ concat ls))
                     = t :: concat (map preorder
                                      (children t ++ cur ++ concat ls))).
    { rewrite <- app_comm_cons. apply nodes_cons. }
    rewrite <- app_comm_cons, map_cons, chain_cons, (emit_unfold t).
    destruct (selector (label t)) as [[src|]|e] eqn:Esel; simpl.
    + destruct (IH (it' :: stack) (iter_ src) (children t) (cur :: ls)
                  (log (Called (label t)) w1))
        as [w' [(E2&Ho)|[(e&E2&Ho)|(y&st2&it2&cur2&ls2&E2&Ho&Hinv2&Hm)]]].
      { split_and!.
        - apply (Hd2 t); [rewrite Hnodes; left|done].
        - by constructor.
        - eapply describes_mono; [exact Hd2|]. intros n Hn. simpl in Hn.
          rewrite Hnodes. by right.
        - change (concat (cur :: ls)) with (cur ++ concat ls).
          rewrite Hnodes, node_regs_cons, Esel in Hnd.
          rewrite (omap_reg_it_option (iter_ src)), (omap_reg_it_option it'),
            reg_it_iter, Hreg.
          rewrite (omap_reg_it_option it) in Hnd.
          revert Hnd. apply NoDup_Permutation_proper.
          rewrite <- !app_assoc.
          rewrite !(app_assoc (option_list (reg_it it)) (omap reg_it stack)).
          apply Permutation_app_swap_app. }
      { unfold steps_all in *. cbn [sum_list_with] in Hf |- *.
        rewrite (steps_unfold t), Esel in Hf. lia. }
      * exists w'. left. split; [done|].
        simpl in Ho. rewrite map_app, chain_app in Ho.
        rewrite chain_cons in Ho. simpl.
        destruct (chain (map (emit selector) (children t))) as [zs [e|]];
          simpl in *; [done|]. done.
      * exists w'. right. left. exists e. split; [done|].
        simpl in Ho. rewrite map_app, chain_app in Ho.
        rewrite chain_cons in Ho.
        destruct (chain (map (emit selector) (children t))) as [zs [e'|]];
          simpl in *; done.
      * exists w'. right. right. exists y, st2, it2, cur2, ls2.
        split_and!; [done| |done|].
        -- simpl in Ho. rewrite map_app, chain_app in Ho.
           rewrite chain_cons in Ho.
           destruct (chain (map (emit selector) (children t))) as [zs [e'|]];
             simpl in *; done.
        -- unfold steps_all in *. cbn [sum_list_with] in Hm |- *.
           rewrite (steps_unfold t), Esel. lia.
    + eexists. right. right. exists (label t), stack, it', cur, ls.
      split_and!; [done|done| |].
      * split_and!; [done|done| |].
        -- eapply describes_mono; [exact Hd2|]. intros n Hn.
           rewrite Hnodes, map_app, concat_app. right.
           apply elem_of_app. by right.
        -- rewrite Hnodes, node_regs_cons, Esel in Hnd.
           change (option_list None) with (@nil nat) in Hnd.
           rewrite app_nil_l in Hnd.
           rewrite map_app, concat_app, node_regs_app in Hnd.
           rewrite (omap_reg_it_option it') , Hreg.
           rewrite (omap_reg_it_option it) in Hnd.
           eapply sublist_NoDup; [exact Hnd|].
           apply sublist_app; [done|]. by apply sublist_inserts_l.
      * unfold steps_all. cbn [sum_list_with].
        rewrite (steps_unfold t), Esel. lia.
    + eexists. right. left. by exists e.
Qed.

Lemma f2_traverse_tree (g : f2_frame (A:=A)) :
  f2_selector g = selector →
  ∀ N pc stack it cur ls w fuel,
  (pc = F2Start ∧ it = iter_ (f2_self g) ∧ stack = []) ∨ pc = F2Yielded stack it →
  f2_inv selector w it stack cur ls →
  steps_all selector cur + sum_list_with (steps_all selector) ls < fuel →
  steps_all selector cur + sum_list_with (steps_all selector) ls < N →
  (traverse fuel N (f2_goto g pc) w).1
  = ((chain (map (emit selector) (cur ++ concat ls))).1,
     ending_of (chain (map (emit selector) (cur ++ concat ls))).2).
Proof.
  intros Hsel. induction N as [|N IH];
    intros pc stack it cur ls w fuel Hpc Hinv Hf HN; [lia|].
  cbn [traverse]. unfold next_.
  assert (resume fuel (f2_goto g pc) w
          = f2_loop fuel (f2_goto g pc) stack it w) as ->.
  { by destruct Hpc as [(-> & -> & ->)| ->]. }
  destruct (f2_loop_tree (f2_goto g pc) Hsel fuel stack it cur ls w Hinv Hf)
    as [w1 [(->&Ho)|[(e&->&Ho)|(y&st2&it2&cur2&ls2&->&Ho&Hinv2&Hm)]]].
  - by rewrite Ho.
  - by rewrite Ho.
  - specialize (IH (F2Yielded st2 it2) st2 it2 cur2 ls2 w1 fuel
                  (or_intror eq_refl) Hinv2 ltac:(lia) ltac:(lia)).
    change (f2_goto (f2_goto g pc) (F2Yielded st2 it2))
      with (f2_goto g (F2Yielded st2 it2)).
    destruct (traverse fuel N (f2_goto g (F2Yielded st2 it2)) w1) as [[xs en] w2].
    rewrite Ho. simpl in IH |- *.
    by injection IH as -> ->.
Qed.

Lemma f2_materialize_tree (self : iterable A) forest w k1 k2 :
  elements_of self w = label <$> forest →
  describes selector w forest →
  NoDup (option_list (reg_of self)
         ++ node_regs selector (concat (map preorder forest))) →
  (materialize (S (steps_all selector forest) + k1)
     (S (steps_all selector forest) + k2) (flatten2 self selector) w).1
  = ((chain (map (emit selector) forest)).1,
     ending_of (chain (map (emit selector) forest)).2).
Proof.
  intros Hel Hd Hnd. unfold materialize, flatten2. munfold.
  set (g := F2Frame self selector F2Start).
  change (factory (MoreEnumerable (λ _ : (), g)) ()) with (f2_goto g F2Start).
  rewrite (f2_traverse_tree g eq_refl _ F2Start [] (iter_ self) forest [] w).
  - simpl. by rewrite app_nil_r.
  - by left.
  - split_and!; [done|constructor|by rewrite app_nil_r|].
    simpl concat. rewrite app_nil_r, omap_reg_it_option, reg_it_iter.
    simpl. by rewrite app_nil_r.
  - unfold steps_all. simpl. lia.
  - unfold steps_all. simpl. lia.
Qed.
End NestedFacts.

Section NestedPrefix.
Context {A : Type}.
Implicit Types (t : tree A) (forest : list (tree A))
  (selector : A → returns (option (iterable A))).

Lemma tree_nested_ind (P : tree A → Prop) :
  (∀ x cs, Forall P cs → P (Node x cs)) → ∀ t, P t.
Proof.
  intros HP. fix IH 1. intros [x cs]. apply HP.
  induction cs as [|c cs IHcs]; constructor; [apply IH|apply IHcs].
Qed.

Lemma chain_prefix (parts parts' : list (list A * option pyexn)) :
  Forall2 (λ p p', p.1 `prefix_of` p'.1 ∧ (p.2 = None → p = p')) parts parts' →
  (chain parts).1 `prefix_of` (chain parts').1
  ∧ ((chain parts).2 = None → chain parts = chain parts').
Proof.
  induction 1 as [|p p' parts parts' [Hp Heq] _ [IH1 IH2]]; [done|].
  rewrite !chain_cons. destruct p as [ys [e|]]; simpl in *.
  - split; [|done]. etrans; [exact Hp|].
    destruct (p'.2); simpl; [done|]. by apply prefix_app_r.
  - rewrite <- (Heq eq_refl). simpl. split.
    + by apply prefix_app.
    + intros Hn. by rewrite (IH2 Hn).
Qed.

Lemma emit_prefix selector selector' :
  (∀ x, (∃ e, selector x = Raises e) ∨ selector' x = selector x) →
  ∀ t, (emit selector t).1 `prefix_of` (emit selector' t).1
       ∧ ((emit selector t).2 = None → emit selector t = emit selector' t).
Proof.
  intros Hsel. induction t as [x cs IH] using tree_nested_ind.
  rewrite !emit_unfold. simpl.
  destruct (Hsel x) as [[e He]| ->].
  - rewrite He. simpl. split; [apply prefix_nil|done].
  - destruct (selector x) as [[src|]|e]; simpl; [|done|done].
    apply chain_prefix. apply Forall2_fmap, Forall_Forall2_diag.
    exact IH.
Qed.

Lemma emit_forest_prefix selector selector' forest :
  (∀ x, (∃ e, selector x = Raises e) ∨ selector' x = selector x) →
  (chain (map (emit selector) forest)).1
  `prefix_of` (chain (map (emit selector') forest)).1.
Proof.
  intros Hsel. apply chain_prefix. apply Forall2_fmap, Forall_Forall2_diag.
  apply Forall_forall. intros t _. by apply emit_prefix.
Qed.
End NestedPrefix.

(* ===================================================================== *)
(** ** [flatten] *)
(* ===================================================================== *)

Section FlattenFacts.
Implicit Types (x y : obj) (l : list obj) (ls : list (list obj)) (w : world obj).

Lemma obj_nested_ind (P : obj → Prop) :
  P PyNone → (∀ z, P (PyInt z)) → (∀ s, P (PyStr s)) →
  (∀ l, Forall P l → P (PyList l)) → (∀ l, Forall P l → P (PyTuple l)) →
  ∀ x, P x.
Proof.
  intros HN HI HS HL HT. fix IH 1. intros [|z|s|l|l]; [done..| |].
  - apply HL. induction l as [|x l IHl]; constructor; [apply IH|apply IHl].
  - apply HT. induction l as [|x l IHl]; constructor; [apply IH|apply IHl].
Qed.

Lemma default_selector_spec x :
  default_selector x
  = match x with
    | PyList l | PyTuple l => Returns (Some (FromList l))
    | PyNone | PyInt _ | PyStr _ => Returns None
    end.
Proof. by destruct x. Qed.

Lemma flat_spec x :
  flat x = if isinstance_Iterable x && negb (isinstance_str x)
           then match as_iterable x with
                | FromList l => concat (map flat l)
                | FromIter _ => []
                end
           else [x].
Proof. by destruct x. Qed.

Lemma flat_yields_atoms x :
  ∀ y, y ∈ flat x → isinstance_Iterable y = false ∨ isinstance_str y = true.
Proof.
  induction x as [|z|s|l IH|l IH] using obj_nested_ind; intros y; simpl;
    try (rewrite list_elem_of_singleton; intros ->; simpl; by auto).
  - induction IH as [|x l Hx _ IHl]; simpl; [by rewrite elem_of_nil|].
    rewrite elem_of_app. intros [?|?]; [by apply Hx|by apply IHl].
  - induction IH as [|x l Hx _ IHl]; simpl; [by rewrite elem_of_nil|].
    rewrite elem_of_app. intros [?|?]; [by apply Hx|by apply IHl].
Qed.

Lemma f2_loop_flatten (g : f2_frame (A:=obj)) :
  f2_selector g = default_selector →
  ∀ fuel ls l w,
  pulls l + sum_list_with pulls ls < fuel →
  ∃ w',
    (f2_loop fuel g (ListIter <$> ls) (ListIter l) w
       = (Ok (None, f2_goto g F2Done), w')
     ∧ concat (map flat (l ++ concat ls)) = [])
    ∨ (∃ x ls' l',
        f2_loop fuel g (ListIter <$> ls) (ListIter l) w
          = (Ok (Some x, f2_goto g (F2Yielded (ListIter <$> ls') (ListIter l'))), w')
        ∧ concat (map flat (l ++ concat ls))
          = x :: concat (map flat (l' ++ concat ls'))
        ∧ pulls l' + sum_list_with pulls ls' < pulls l + sum_list_with pulls ls).
Proof.
  intros Hsel. induction fuel as [|fuel IH]; intros ls l w Hf; [lia|].
  simpl. destruct l as [|x l]; munfold; simpl.
  - destruct ls as [|top ls']; simpl.
    + eexists. by left.
    + destruct (IH ls' top (log Pulled w)) as [w' [(E&Ho)|(y&ls2&l2&E&Ho&Hw)]].
      { unfold pulls in *. simpl in *. lia. }
      * exists w'. by left.
      * exists w'. right. exists y, ls2, l2. split_and!; [done..|].
        unfold pulls in *. simpl in *. lia.
  - rewrite Hsel, default_selector_spec.
    destruct x as [|z|s|lx|lx]; simpl.
    1-3: eexists; right; eexists _, ls, l; split_and!;
      [done|done|unfold pulls; simpl; lia].
    + destruct (IH (l :: ls) lx (log (Called (PyList lx)) (log Pulled w)))
        as [w' [(E&Ho)|(y&ls2&l2&E&Ho&Hw)]].
      { unfold pulls in *. simpl in *. lia. }
      * exists w'. left. split; [exact E|].
        simpl in Ho. by rewrite map_app, concat_app in Ho.
      * exists w'. right. exists y, ls2, l2. split_and!; [exact E| |].
        -- rewrite <- Ho. simpl. by rewrite !map_app, !concat_app.
        -- unfold pulls in *. simpl in *. lia.
    + destruct (IH (l :: ls) lx (log (Called (PyTuple lx)) (log Pulled w)))
        as [w' [(E&Ho)|(y&ls2&l2&E&Ho&Hw)]].
      { unfold pulls in *. simpl in *. lia. }
      * exists w'. left. split; [exact E|].
        simpl in Ho. by rewrite map_app, concat_app in Ho.
      * exists w'. right. exists y, ls2, l2. split_and!; [exact E| |].
        -- rewrite <- Ho. simpl. by rewrite !map_app, !concat_app.
        -- unfold pulls in *. simpl in *. lia.
Qed.

Lemma f2_traverse_flatten (g : f2_frame (A:=obj)) :
  f2_selector g = default_selector →
  ∀ N ls l w fuel,
  pulls l + sum_list_with pulls ls < fuel →
  pulls l + sum_list_with pulls ls < N →
  ∃ w', traverse fuel N (f2_goto g (F2Yielded (ListIter <$> ls) (ListIter l))) w
        = (concat (map flat (l ++ concat ls)), Exhausted, w').
Proof.
  intros Hsel. induction N as [|N IH]; intros ls l w fuel Hf HN; [lia|].
  simpl. unfold next_. simpl.
  change (f2_resume fuel (f2_goto g (F2Yielded (ListIter <$> ls) (ListIter l))) w)
    with (f2_loop fuel (f2_goto g (F2Yielded (ListIter <$> ls) (ListIter l)))
            (ListIter <$> ls) (ListIter l) w).
  destruct (f2_loop_flatten (f2_goto g (F2Yielded (ListIter <$> ls) (ListIter l)))
              Hsel fuel ls l w Hf) as [w1 [(->&Ho)|(y&ls2&l2&->&Ho&Hw)]].
  - exists w1. by rewrite Ho.
  - destruct (IH ls2 l2 w1 fuel) as (w2 & E2); [lia..|].
    unfold f2_goto in E2 |- *. simpl in E2 |- *. rewrite E2.
    exists w2. by rewrite Ho.
Qed.

Lemma label_tree_of x : label (tree_of x) = x.
Proof. by destruct x. Qed.

Lemma labels_tree_of (l : list obj) : label <$> map tree_of l = l.
Proof.
  induction l as [|x l IH]; [done|].
  cbn [map]. rewrite fmap_cons, label_tree_of. by f_equal.
Qed.

Lemma children_tree_of x :
  children (tree_of x)
  = match x with
    | PyList l | PyTuple l => map tree_of l
    | PyNone | PyInt _ | PyStr _ => []
    end.
Proof. by destruct x. Qed.

Lemma nodes_forest_tree_of (l : list obj) :
  Forall (λ x, ∀ n, n ∈ preorder (tree_of x) → n = tree_of (label n)) l →
  ∀ n, n ∈ concat (map preorder (map tree_of l)) → n = tree_of (label n).
Proof.
  induction 1 as [|x l Hx _ IH]; intros n; cbn [map concat].
  - by intros ?%elem_of_nil.
  - intros [Hn|Hn]%elem_of_app; [by apply Hx|by apply IH].
Qed.

Lemma nodes_tree_of x :
  ∀ n, n ∈ preorder (tree_of x) → n = tree_of (label n).
Proof.
  induction x as [|z|s|l IH|l IH] using obj_nested_ind; intros n;
    rewrite preorder_unfold, children_tree_of; cbn [map concat];
    intros [->|Hn]%elem_of_cons; try (by rewrite label_tree_of);
    try (by apply elem_of_nil in Hn); by apply (nodes_forest_tree_of l).
Qed.

Lemma describes_tree_of w (src : list obj) :
  describes default_selector w (map tree_of src).
Proof.
  intros n Hn nested Hsel.
  assert (n = tree_of (label n)) as Hn'.
  { apply (nodes_forest_tree_of src); [|done].
    apply Forall_forall. intros x _. apply nodes_tree_of. }
  rewrite default_selector_spec in Hsel. rewrite Hn', children_tree_of.
  destruct (label n) as [|z|s|l|l]; try done;
    injection Hsel as <-; unfold elements_of; simpl;
    by rewrite labels_tree_of.
Qed.

Lemma node_regs_default (nodes : list (tree obj)) :
  node_regs default_selector nodes = [].
Proof.
  induction nodes as [|t nodes IH]; [done|].
  rewrite node_regs_cons, default_selector_spec, IH.
  by destruct (label t).
Qed.

Lemma emit_forest_tree_of (l : list obj) :
  Forall (λ x, emit default_selector (tree_of x) = (flat x, None)) l →
  chain (map (emit default_selector) (map tree_of l))
  = (concat (map flat l), None).
Proof.
  induction 1 as [|x l Hx _ IH]; [done|].
  cbn [map concat]. by rewrite chain_cons, Hx, IH.
Qed.

Lemma emit_tree_of x : emit default_selector (tree_of x) = (flat x, None).
Proof.
  induction x as [|z|s|l IH|l IH] using obj_nested_ind;
    rewrite emit_unfold, label_tree_of, default_selector_spec,
      ?children_tree_of; try done; by apply emit_forest_tree_of.
Qed.

Lemma steps_tree_of x : steps default_selector (tree_of x) = pulls_of x.
Proof.
  induction x as [|z|s|l IH|l IH] using obj_nested_ind;
    rewrite steps_unfold, label_tree_of, default_selector_spec,
      ?children_tree_of; try done; simpl; do 2 f_equal;
    induction IH as [|x l Hx _ IHl]; simpl; try done; by rewrite Hx, IHl.
Qed.

Lemma steps_all_tree_of (l : list obj) :
  steps_all default_selector (map tree_of l) = pulls l.
Proof.
  unfold steps_all, pulls. f_equal.
  induction l as [|x l IH]; simpl; [done|]. by rewrite steps_tree_of, IH.
Qed.

Lemma flatten_materialize_shared (self : iterable obj) w k1 k2 :
  (materialize (S (pulls (elements_of self w)) + k1)
     (S (pulls (elements_of self w)) + k2) (flatten self []) w).1
  = (concat (map flat (elements_of self w)), Exhausted).
Proof.
  set (src := elements_of self w).
  pose proof (f2_materialize_tree default_selector self (map tree_of src)
                w k1 k2) as E.
  rewrite steps_all_tree_of, emit_forest_tree_of in E.
  - unfold flatten. fold default_selector. rewrite E; [done| |apply describes_tree_of|].
    + by rewrite labels_tree_of.
    + rewrite node_regs_default, app_nil_r.
      destruct (reg_of self); [apply NoDup_singleton|constructor].
  - apply Forall_forall. intros x _. apply emit_tree_of.
Qed.

(** C10. [flatten()] without arguments flattens, at every depth, exactly
    the elements that are iterable and not strings: a string and an element
    that is not iterable are yielded as they are, every other iterable
    element is descended into and not yielded.  The receiver is a list or
    an iterator object. *)
Theorem flatten_descends_into_iterables_but_strings (self : iterable obj) w k1 k2 :
  (materialize (S (pulls (elements_of self w)) + k1)
     (S (pulls (elements_of self w)) + k2) (flatten self []) w).1
  = (concat (map flat (elements_of self w)), Exhausted)
  ∧ (∀ x, flat x = if isinstance_Iterable x && negb (isinstance_str x)
                   then match as_iterable x with
                        | FromList l => concat (map flat l)
                        | FromIter _ => []
                        end
                   else [x])
  ∧ (∀ (src : list obj) y, y ∈ concat (map flat src) →
       isinstance_Iterable y = false ∨ isinstance_str y = true).
Proof.
  split_and!; [apply flatten_materialize_shared|apply flat_spec|].
  intros src y Hy. apply list_elem_of_In, in_concat in Hy as (l & Hl & Hy).
  apply in_map_iff in Hl as (x & <- & _).
  apply (flat_yields_atoms x). by apply list_elem_of_In.
Qed.
End FlattenFacts.

Example flatten_iterator_receiver_example :
  (materialize 6 6 (flatten (FromIter 0) [])
     (World {[0 := [PyInt 1; PyList [PyInt 2]]]} [])).1
  = ([PyInt 1; PyInt 2], Exhausted).
Proof. by vm_compute. Qed.

(* ===================================================================== *)
(** ** [aggregate_right] *)
(* ===================================================================== *)

Section AggregateFacts.
Context {A : Type}.
Implicit Types (w : world A) (self : iterable A).

Lemma unpack_elements self fuel w :
  length (elements_of self w) < fuel →
  ∃ w', unpack fuel self w = (Ok (elements_of self w), w').
Proof.
  intros Hf. unfold unpack, elements_of in *.
  destruct (for_in_neutral (λ x acc, mret (acc ++ [x])) (λ x acc, acc ++ [x])
              (content (iter_ self) w))
    with (it := iter_ self) (w := w) (acc := @nil A) (fuel := fuel)
    as (w' & E & Hh); [|done|done|].
  { intros x acc w0. by eexists. }
  exists w'. rewrite E. do 2 f_equal.
  generalize (content (iter_ self) w). intros l.
  assert (∀ acc : list A, foldl (λ a x, a ++ [x]) acc l = acc ++ l) as ->; [|done].
  induction l as [|x l IH]; intros acc; simpl; [by rewrite app_nil_r|].
  by rewrite IH, <- app_assoc.
Qed.

Lemma fold_elems_fault (func : A → A → returns A) it seed w :
  (fold_elems func it seed w).1 ≠ Raise EmptySequenceFault.
Proof.
  revert seed w. induction it as [|elem it IH]; intros seed w; simpl; [done|].
  munfold. destruct (func elem seed) as [b|e]; simpl; [apply IH|done].
Qed.

(** C5. [aggregate_right] raises the empty-sequence fault exactly when it
    is called with the folding function alone on an empty source; with a
    seed an empty source gives the seed, passed through the result selector
    when there is one. *)
Theorem aggregate_right_faults_only_unseeded_on_empty
    self (args : aggregate_args (A:=A)) w (k : nat) :
  let xs := elements_of self w in
  let r := (aggregate_right (S (length xs) + k) self args w).1 in
  (r = Raise EmptySequenceFault ↔ (∃ func, args = Args1 func) ∧ xs = [])
  ∧ (xs = [] → ∀ seed func, args = Args2 seed func → r = Ok seed)
  ∧ (xs = [] → ∀ seed func result_selector,
       args = Args3 seed func result_selector →
       r = match result_selector seed with
           | Returns v => Ok v
           | Raises e => Raise (UserCallbackFault e)
           end).
Proof.
  intros xs r. subst r. unfold aggregate_right, reverse_. munfold.
  destruct (unpack_elements self (S (length xs) + k) w) as (w1 & ->);
    [unfold xs; lia|]. fold xs.
  split_and!.
  - destruct args as [func|seed func|seed func rs].
    + destruct xs as [|x l] using rev_ind.
      * simpl. split; [by eauto|done].
      * rewrite reverse_snoc. split.
        -- intros Hr. by apply fold_elems_fault in Hr.
        -- intros [_ Hnil]. by destruct l.
    + split.
      * intros Hr. by apply fold_elems_fault in Hr.
      * by intros [[? [=]] _].
    + split.
      * pose proof (fold_elems_fault func (reverse xs) seed w1) as Hne.
        destruct (fold_elems func (reverse xs) seed w1) as [[v|f|] w2];
          simpl in *; [|done..].
        by destruct (rs v).
      * by intros [[? [=]] _].
  - by intros -> seed func ->.
  - intros -> seed func rs ->. simpl. by destruct (rs seed).
Qed.
End AggregateFacts.

Lemma aggregate_right_seeded_empty_witness :
  (aggregate_right 1 (FromList []) (Args2 7 (λ x y, Returns (x + y)))
     (World ∅ [])).1 = Ok 7.
Proof.
  apply (proj1 (proj2 (aggregate_right_faults_only_unseeded_on_empty
           (FromList []) (Args2 7 (λ x y, Returns (x + y))) (World ∅ []) 0))
           eq_refl 7 (λ x y, Returns (x + y)) eq_refl).
Defined.

(* ===================================================================== *)
(** ** Deferred execution *)
(* ===================================================================== *)

Section DeferredFacts.
Context {A K : Type} `{Countable K}.
Implicit Types (w : world A).

Lemma pull_extends (it : iterator A) w :
  ∃ r w', pull it w = (Ok r, w') ∧ trace w' = trace w ++ [Pulled].
Proof.
  destruct it as [[|x l]|r]; simpl; [by eexists _, _..|].
  destruct (heap w !! r) as [[|x l]|]; by eexists _, _.
Qed.

Lemma f2_loop_extends (g : f2_frame (A:=A)) fuel :
  ∀ stack it w, ∃ evs, trace (f2_loop fuel g stack it w).2 = trace w ++ evs.
Proof.
  induction fuel as [|fuel IH]; intros stack it w; simpl.
  - exists []. by rewrite app_nil_r.
  - munfold. destruct (pull_extends it w) as ([[x|] it'] & w1 & -> & Ht).
    + destruct (f2_selector g x) as [[n|]|e]; simpl.
      * destruct (IH (it' :: stack) (iter_ n) (log (Called x) w1)) as [evs ->].
        simpl. rewrite Ht, <- !app_assoc. by eexists.
      * rewrite Ht, <- !app_assoc. by eexists.
      * rewrite Ht, <- !app_assoc. by eexists.
    + destruct stack as [|top stack']; simpl.
      * rewrite Ht. by eexists.
      * destruct (IH stack' top w1) as [evs ->].
        rewrite Ht, <- !app_assoc. by eexists.
Qed.

(** C7. Calling a chaining operator pulls nothing and invokes no callback,
    and neither does obtaining a cursor: the world, with its log of pulls
    and calls, is as before.  The source is pulled and the callback invoked
    when the cursor is advanced for the first time. *)
Theorem chaining_operators_are_deferred :
  (∀ self second (key_selector : A → returns K),
     deferred (except_by self second key_selector))
  ∧ (∀ self (key_selector : A → returns K),
       deferred (distinct_by self key_selector))
  ∧ (∀ self args, deferred (flatten self args))
  ∧ (∀ self (selector : A → returns (option (iterable A))),
       deferred (flatten2 self selector))
  ∧ (∀ self (iters : list (iterable A)), deferred (interleave self iters))
  ∧ (∀ (root : A) children_selector,
       deferred (traverse_breath_first root children_selector))
  ∧ (∀ (root : A) children_selector,
       deferred (traverse_depth_first root children_selector))
  ∧ (∀ x xs (key_selector : A → returns K) fuel w,
       trace (world_after (S fuel) 1
                (except_by (FromList (x :: xs)) (FromList []) key_selector) w)
       = trace w ++ [Pulled; Pulled; Called x])
  ∧ (∀ x xs (selector : A → returns (option (iterable A))) fuel w,
       ∃ rest,
         trace (world_after (S fuel) 1 (flatten2 (FromList (x :: xs)) selector) w)
         = trace w ++ Pulled :: Called x :: rest).
Proof.
  split_and!; try (intros; intros w; by eexists).
  - intros self [|p args] w; by eexists.
  - intros x xs key fuel w. unfold world_after, except_by. munfold. simpl.
    unfold next_. simpl. unfold eb_resume. simpl. munfold. simpl.
    destruct (key x) as [k|e]; simpl.
    + rewrite decide_False by apply not_elem_of_empty. simpl.
      by rewrite <- !app_assoc.
    + by rewrite <- !app_assoc.
  - intros x xs sel fuel w. unfold world_after, flatten2. munfold. simpl.
    unfold next_. simpl. unfold f2_resume. simpl. munfold. simpl.
    set (g := F2Frame _ _ _).
    destruct (sel x) as [[n|]|e]; simpl.
    + destruct (f2_loop_extends g fuel [ListIter xs] (iter_ n)
                  (log (Called x) (log Pulled w))) as [evs Hev].
      destruct (f2_loop fuel g _ _ _) as [[[[y|] g']|f|] w1]; simpl in *;
        rewrite Hev, <- !app_assoc; by eexists.
    + rewrite <- !app_assoc. by eexists.
    + rewrite <- !app_assoc. by eexists.
Qed.
End DeferredFacts.

(* ===================================================================== *)
(** ** Callbacks that raise *)
(* ===================================================================== *)

Section FaultFacts.
Context {A K : Type} `{Countable K}.
Implicit Types (w : world A) (it : iterator A) (s : gset K)
  (pre post : list A) (e : pyexn).

Lemma eb_loop_fault (key : A → K) (g : eb_frame (A:=A) (K:=K)) x post e :
  eb_key_selector g x = Raises e →
  ∀ pre, (∀ y, y ∈ pre → eb_key_selector g y = Returns (key y)) →
  ∀ it w s fuel, content it w = pre ++ x :: post → length pre < fuel →
  ∃ w',
    (eb_filter key s pre = []
     ∧ eb_loop fuel g s it w = (Raise (UserCallbackFault e), w'))
    ∨ (∃ y s' it' pre',
        eb_loop fuel g s it w = (Ok (Some y, eb_goto g (EbYielded s' it')), w')
        ∧ eb_filter key s pre = y :: eb_filter key s' pre'
        ∧ content it' w' = pre' ++ x :: post
        ∧ length pre' < length pre
        ∧ (∀ z, z ∈ pre' → eb_key_selector g z = Returns (key z))).
Proof.
  intros Hx. induction pre as [|p pre IH]; intros Hpre it w s fuel Hc Hf.
  - destruct fuel as [|fuel]; [simpl in Hf; lia|]. simpl. munfold.
    destruct (pull_cons _ _ _ _ Hc) as (it' & w1 & -> & _).
    rewrite Hx. simpl. eexists. by left.
  - destruct fuel as [|fuel]; [simpl in Hf; lia|]. simpl. munfold.
    destruct (pull_cons _ _ _ _ Hc) as (it' & w1 & -> & Hc1 & _).
    rewrite (Hpre p) by left. simpl.
    destruct (decide (key p ∈ s)) as [Hin|Hin].
    + destruct (IH (λ y Hy, Hpre y (list_elem_of_further _ _ _ Hy))
                  it' (log (Called p) w1) s fuel)
        as [w2 [(?&?)|(y&s'&it2&pre'&?&?&?&?&?)]];
        [by rewrite content_log|simpl in Hf; lia|..]; exists w2.
      * by left.
      * right. exists y, s', it2, pre'. split_and!; [done..|simpl; lia|done].
    + eexists. right. exists p, ({[key p]} ∪ s), it', pre.
      split_and!; [done|done|by rewrite content_log|simpl; lia|].
      intros z Hz. apply Hpre. by right.
Qed.

Lemma eb_traverse_fault (key : A → K) (g : eb_frame (A:=A) (K:=K)) x post e :
  eb_key_selector g x = Raises e →
  ∀ N pre it w s fuel,
  (∀ y, y ∈ pre → eb_key_selector g y = Returns (key y)) →
  content it w = pre ++ x :: post → length pre < fuel → length pre < N →
  ∃ w', traverse fuel N (eb_goto g (EbYielded s it)) w
        = (eb_filter key s pre,
           Faulted (leave_generator (UserCallbackFault e)), w').
Proof.
  intros Hx. induction N as [|N IH]; intros pre it w s fuel Hpre Hc Hf HN; [lia|].
  simpl. unfold next_. simpl.
  change (eb_resume fuel (eb_goto g (EbYielded s it)) w)
    with (eb_loop fuel (eb_goto g (EbYielded s it)) s it w).
  destruct (eb_loop_fault key (eb_goto g (EbYielded s it)) x post e Hx pre Hpre
              it w s fuel Hc Hf)
    as [w1 [(E1&->)|(y&s'&it2&pre'&->&E2&Hc2&Hl&Hpre')]]; simpl.
  - rewrite E1. by exists w1.
  - destruct (IH pre' it2 w1 s' fuel Hpre' Hc2) as (w2 & E3); [lia..|].
    unfold eb_goto in E3 |- *. simpl in E3 |- *. rewrite E3.
    exists w2. by rewrite E2.
Qed.

Lemma except_by_source_fault (self second : iterable A)
    (key_selector : A → returns K) (key : A → K) pre x post e w k1 k2 :
  elements_of self w = pre ++ x :: post →
  (∀ y, y ∈ elements_of second w → key_selector y = Returns (key y)) →
  (∀ y, y ∈ pre → key_selector y = Returns (key y)) →
  key_selector x = Raises e →
  (materialize (S (length pre + length (elements_of second w)) + k1)
     (S (length pre) + k2) (except_by self second key_selector) w).1
  = (except_by_spec key (key <$> elements_of second w) [] pre,
     Faulted (leave_generator (UserCallbackFault e))).
Proof.
  unfold elements_of. set (ys := content (iter_ second) w).
  intros Hxs Hys Hpre Hx.
  unfold materialize, except_by. munfold.
  change (S (length pre) + k2) with (S (length pre + k2)).
  remember (S (length pre + length ys) + k1) as fuel eqn:Hfuel.
  remember (length pre + k2) as N eqn:HN.
  simpl. set (g := EbFrame self second key_selector EbStart).
  unfold next_. simpl. unfold eb_resume. simpl.
  destruct (for_in_neutral_on
              (λ x s, mbind (λ key0, mret ({[key0]} ∪ s)) (call key_selector x))
              (λ x s, {[key x]} ∪ s) ys) with (it := iter_ second) (w := w)
              (acc := (∅ : gset K)) (fuel := fuel) as (w1 & E1 & Hh1).
  { intros y Hy acc w0. munfold. rewrite (Hys y Hy). by eexists. }
  { done. } { lia. }
  munfold. rewrite E1. set (s := foldl _ _ _).
  assert (Hs : ∀ k, k ∈ s ↔ k ∈ key <$> ys ∨ k ∈ key <$> ([] : list A)).
  { intros k. unfold s. rewrite seen_keys_elem_of, elem_of_empty. simpl.
    rewrite elem_of_nil. tauto. }
  assert (Hc : content (iter_ self) w1 = pre ++ x :: post).
  { destruct (content_after_exhaust (iter_ self) (iter_ second) w w1 Hh1)
      as [->|[_ Hxy]]; [done|].
    exfalso. assert (x ∈ ys) as Hin.
    { unfold ys. rewrite <- Hxy, Hxs. apply elem_of_app. right. left. }
    rewrite (Hys x Hin) in Hx. done. }
  destruct (eb_loop_fault key g x post e Hx pre Hpre (iter_ self) w1 s fuel Hc)
    as [w2 [(E2&->)|(y&s'&it2&pre'&->&E2&Hc2&Hl&Hpre')]]; [lia|..]; simpl.
  - by rewrite <- (eb_filter_spec key (key <$> ys) pre s [] Hs), E2.
  - destruct (eb_traverse_fault key g x post e Hx N pre' it2 w2 s' fuel Hpre' Hc2)
      as (w3 & E3); [lia..|].
    unfold eb_goto in E3 |- *. simpl in E3 |- *. rewrite E3. simpl.
    by rewrite <- (eb_filter_spec key (key <$> ys) pre s [] Hs), E2.
Qed.

Lemma except_by_second_fault (self second : iterable A)
    (key_selector : A → returns K) (key : A → K) pre x post e w k1 k2 :
  elements_of second w = pre ++ x :: post →
  (∀ y, y ∈ pre → key_selector y = Returns (key y)) →
  key_selector x = Raises e →
  (materialize (S (length pre) + k1) (S k2)
     (except_by self second key_selector) w).1
  = ([], Faulted (leave_generator (UserCallbackFault e))).
Proof.
  unfold elements_of. intros Hys Hpre Hx.
  unfold materialize, except_by. munfold.
  remember (S (length pre) + k1) as fuel eqn:Hfuel.
  simpl. unfold next_. simpl. unfold eb_resume. simpl.
  destruct (for_in_fault
              (λ x s, mbind (λ key0, mret ({[key0]} ∪ s)) (call key_selector x))
              (λ x s, {[key x]} ∪ s) pre x post (UserCallbackFault e))
    with (it := iter_ second) (w := w) (acc := (∅ : gset K)) (fuel := fuel)
    as (w1 & E1).
  { intros y Hy acc w0. munfold. rewrite (Hpre y Hy). by eexists. }
  { intros acc w0. munfold. rewrite Hx. by eexists. }
  { done. } { lia. }
  munfold. by rewrite E1.
Qed.

Lemma for_each_loop_fault {B} (action : A → returns B) x post e :
  action x = Raises e →
  ∀ pre, (∀ y, y ∈ pre → ∃ b, action y = Returns b) →
  ∀ it w fuel, content it w = pre ++ x :: post → length pre < fuel →
  ∃ w', for_in fuel it (λ elem _, _ ← call action elem; mret ()) () w
        = (Raise (UserCallbackFault e), w')
      ∧ trace w' = trace w ++ concat ((λ y, [Pulled; Called y]) <$> pre ++ [x]).
Proof.
  intros Hx. induction pre as [|p pre IH]; intros Hpre it w fuel Hc Hf.
  - destruct fuel as [|fuel]; [simpl in Hf; lia|]. simpl. munfold.
    destruct (pull_cons _ _ _ _ Hc) as (it' & w1 & -> & _ & _ & Ht & _).
    rewrite Hx. simpl. eexists. split; [done|]. simpl.
    by rewrite Ht, <- app_assoc.
  - destruct fuel as [|fuel]; [simpl in Hf; lia|]. simpl. munfold.
    destruct (pull_cons _ _ _ _ Hc) as (it' & w1 & -> & Hc1 & _ & Ht & _).
    destruct (Hpre p) as [b Hb]; [left|]. rewrite Hb. simpl.
    destruct (IH (λ y Hy, Hpre y (list_elem_of_further _ _ _ Hy))
                it' (log (Called p) w1) fuel) as (w2 & E & Ht2).
    { by rewrite content_log. } { simpl in Hf. lia. }
    exists w2. split; [exact E|]. rewrite Ht2. simpl.
    by rewrite Ht, <- !app_assoc.
Qed.

Lemma for_each2_loop_fault {B} (action : A → nat → returns B) x post e :
  ∀ pre i0,
  action x (i0 + length pre) = Raises e →
  (∀ j y, pre !! j = Some y → ∃ b, action y (i0 + j) = Returns b) →
  ∀ it w fuel, content it w = pre ++ x :: post → length pre < fuel →
  ∃ w', for_in fuel it (λ elem i, _ ← call_idx action elem i; mret (S i)) i0 w
        = (Raise (UserCallbackFault e), w')
      ∧ trace w'
        = trace w ++ concat (imap (λ j y, [Pulled; CalledIdx y (i0 + j)]) (pre ++ [x])).
Proof.
  induction pre as [|p pre IH]; intros i0 Hx Hpre it w fuel Hc Hf.
  - destruct fuel as [|fuel]; [simpl in Hf; lia|]. simpl. munfold.
    destruct (pull_cons _ _ _ _ Hc) as (it' & w1 & -> & _ & _ & Ht & _).
    simpl in Hx. rewrite Nat.add_0_r in Hx |- *. rewrite Hx. simpl.
    eexists. split; [done|]. simpl. by rewrite Ht, <- app_assoc.
  - destruct fuel as [|fuel]; [simpl in Hf; lia|]. simpl. munfold.
    destruct (pull_cons _ _ _ _ Hc) as (it' & w1 & -> & Hc1 & _ & Ht & _).
    destruct (Hpre 0 p eq_refl) as [b Hb]. rewrite Nat.add_0_r in Hb |- *.
    rewrite Hb. simpl.
    destruct (IH (S i0)) with (it := it') (w := log (CalledIdx p i0) w1)
      (fuel := fuel) as (w2 & E & Ht2).
    { simpl in Hx. by rewrite Nat.add_succ_comm. }
    { intros j y Hj. rewrite Nat.add_succ_comm. by apply (Hpre (S j)). }
    { by rewrite content_log. } { simpl in Hf. lia. }
    exists w2. split; [exact E|]. rewrite Ht2. simpl.
    rewrite Ht, <- !app_assoc. simpl. do 4 f_equal.
    apply imap_ext. intros j y _. simpl. by rewrite Nat.add_succ_r.
Qed.

Lemma f2_traverse_fault (g : f2_frame (A:=A)) x post e :
  f2_selector g x = Raises e →
  ∀ N pre pc it w fuel,
  (pc = F2Start ∧ it = iter_ (f2_self g)) ∨ pc = F2Yielded [] it →
  (∀ y, y ∈ pre → f2_selector g y = Returns None) →
  content it w = pre ++ x :: post → length pre < N →
  ∃ w', traverse (S fuel) N (f2_goto g pc) w
        = (pre, Faulted (leave_generator (UserCallbackFault e)), w').
Proof.
  intros Hx. induction N as [|N IH]; intros pre pc it w fuel Hpc Hpre Hc HN; [lia|].
  cbn [traverse]. unfold next_.
  assert (resume (S fuel) (f2_goto g pc) w
          = f2_loop (S fuel) (f2_goto g pc) [] it w) as ->.
  { by destruct Hpc as [[-> ->]| ->]. }
  simpl. munfold.
  destruct pre as [|p pre]; simpl in Hc;
    destruct (pull_cons _ _ _ _ Hc) as (it' & w1 & E & Hc1 & _); rewrite E.
  - rewrite Hx. simpl. by eexists.
  - rewrite (Hpre p) by left. simpl.
    destruct (IH pre (F2Yielded [] it') it' (log (Called p) w1) fuel)
      as (w2 & E2).
    { by right. }
    { intros y Hy. apply Hpre. by right. }
    { by rewrite content_log. } { simpl in HN. lia. }
    unfold f2_goto in E2 |- *. simpl in E2 |- *. rewrite E2. by eexists.
Qed.

Lemma flatten2_fault_at_any_depth (g : f2_frame (A:=A)) stack it x l e fuel w :
  f2_at g = F2Yielded stack it → content it w = x :: l →
  f2_selector g x = Raises e →
  (next_ (S fuel) g w).1.1 = Fault (leave_generator (UserCallbackFault e)).
Proof.
  intros Hat Hc Hx. unfold next_. simpl. unfold f2_resume. rewrite Hat.
  simpl. munfold.
  destruct (pull_cons _ _ _ _ Hc) as (it' & w1 & -> & _).
  by rewrite Hx.
Qed.

(** C6, as amended.  When a caller-supplied function raises an exception
    other than StopIteration during a traversal ([key_selector] inside
    [except_by], [selector] inside [flatten2]), that exception reaches the
    consumer as it is, at the element where it was raised, after the
    elements before it were produced as in a traversal without the fault;
    inside [for_each] and [for_each2] this holds of every exception,
    StopIteration included, and the action was invoked on the elements
    before the failing one.  A StopIteration raised by [key_selector] or
    [selector] leaves the generator as a RuntimeError.  For [flatten2] this
    holds at every depth of nesting, of nested sequences that are lists or
    iterator objects (no iterator object met twice): the traversal yields
    what flattening gives up to the first element, in the order of the
    descent, on which the selector raises, and then ends with that
    exception; what it yielded is the beginning of what a selector without
    the fault gives. *)
Theorem callback_fault_reaches_the_consumer :
  (∀ (self second : iterable A) (key_selector : A → returns K) (key : A → K)
     pre x post e w k1 k2,
     elements_of self w = pre ++ x :: post →
     (∀ y, y ∈ elements_of second w → key_selector y = Returns (key y)) →
     (∀ y, y ∈ pre → key_selector y = Returns (key y)) →
     key_selector x = Raises e →
     (materialize (S (length pre + length (elements_of second w)) + k1)
        (S (length pre) + k2) (except_by self second key_selector) w).1
     = (except_by_spec key (key <$> elements_of second w) [] pre,
        Faulted (leave_generator (UserCallbackFault e))))
  ∧ (∀ (self second : iterable A) (key_selector : A → returns K) (key : A → K)
       pre x post e w k1 k2,
       elements_of second w = pre ++ x :: post →
       (∀ y, y ∈ pre → key_selector y = Returns (key y)) →
       key_selector x = Raises e →
       (materialize (S (length pre) + k1) (S k2)
          (except_by self second key_selector) w).1
       = ([], Faulted (leave_generator (UserCallbackFault e))))
  ∧ (∀ (B : Type) (self : iterable A) (action : A → returns B)
       pre x post e w k,
       elements_of self w = pre ++ x :: post →
       (∀ y, y ∈ pre → ∃ b, action y = Returns b) →
       action x = Raises e →
       (for_each (S (length pre) + k) self action w).1
       = Raise (UserCallbackFault e)
       ∧ trace (for_each (S (length pre) + k) self action w).2
         = trace w ++ concat ((λ y, [Pulled; Called y]) <$> pre ++ [x]))
  ∧ (∀ (B : Type) (self : iterable A) (action : A → nat → returns B)
       pre x post e w k,
       elements_of self w = pre ++ x :: post →
       (∀ j y, pre !! j = Some y → ∃ b, action y j = Returns b) →
       action x (length pre) = Raises e →
       (for_each2 (S (length pre) + k) self action w).1
       = Raise (UserCallbackFault e)
       ∧ trace (for_each2 (S (length pre) + k) self action w).2
         = trace w ++ concat (imap (λ j y, [Pulled; CalledIdx y j]) (pre ++ [x])))
  ∧ (∀ (self : iterable A) (selector : A → returns (option (iterable A)))
       pre x post e w k1 k2,
       elements_of self w = pre ++ x :: post →
       (∀ y, y ∈ pre → selector y = Returns None) →
       selector x = Raises e →
       (materialize (S k1) (S (length pre) + k2) (flatten2 self selector) w).1
       = (pre, Faulted (leave_generator (UserCallbackFault e))))
  ∧ (∀ (g : f2_frame (A:=A)) stack it x l e fuel w,
       f2_at g = F2Yielded stack it → content it w = x :: l →
       f2_selector g x = Raises e →
       (next_ (S fuel) g w).1.1 = Fault (leave_generator (UserCallbackFault e)))
  ∧ (∀ (self : iterable A) (selector : A → returns (option (iterable A)))
       (forest : list (tree A)) w k1 k2,
       elements_of self w = label <$> forest →
       describes selector w forest →
       NoDup (option_list (reg_of self)
              ++ node_regs selector (concat (map preorder forest))) →
       (materialize (S (steps_all selector forest) + k1)
          (S (steps_all selector forest) + k2) (flatten2 self selector) w).1
       = ((chain (map (emit selector) forest)).1,
          ending_of (chain (map (emit selector) forest)).2))
  ∧ (∀ (selector : A → returns (option (iterable A))) (t : tree A),
       emit selector t
       = match selector (label t) with
         | Raises e => ([], Some e)
         | Returns None => ([label t], None)
         | Returns (Some _) => chain (map (emit selector) (children t))
         end)
  ∧ (∀ (part : list A * option pyexn) parts,
       chain (part :: parts)
       = match part.2 with
         | Some e => (part.1, Some e)
         | None => (part.1 ++ (chain parts).1, (chain parts).2)
         end)
  ∧ (∀ (selector selector' : A → returns (option (iterable A)))
       (forest : list (tree A)),
       (∀ x, (∃ e, selector x = Raises e) ∨ selector' x = selector x) →
       (chain (map (emit selector) forest)).1
       `prefix_of` (chain (map (emit selector') forest)).1)
  ∧ (∀ e, e ≠ StopIteration →
       leave_generator (UserCallbackFault e) = UserCallbackFault e)
  ∧ leave_generator (UserCallbackFault StopIteration)
    = GeneratorRuntimeError StopIteration.
Proof.
  split_and!.
  - intros. by eapply except_by_source_fault.
  - intros self second ks key pre x post e w k1 k2 Hc Hpre Hx.
    by apply (except_by_second_fault self second ks key pre x post e w k1 k2).
  - intros B self action pre x post e w k Hc Hpre Hx. unfold for_each.
    destruct (for_each_loop_fault action x post e Hx pre Hpre (iter_ self) w
                (S (length pre) + k) Hc) as (w' & -> & Ht); [lia|]. done.
  - intros B self action pre x post e w k Hc Hpre Hx. unfold for_each2.
    destruct (for_each2_loop_fault action x post e pre 0 Hx Hpre (iter_ self) w
                (S (length pre) + k) Hc) as (w' & E & Ht); [lia|].
    munfold. by rewrite E.
  - intros self selector pre x post e w k1 k2 Hc Hpre Hx.
    unfold materialize, flatten2. munfold.
    change (S (length pre) + k2) with (S (length pre + k2)).
    set (g := F2Frame self selector F2Start).
    destruct (f2_traverse_fault g x post e Hx (S (length pre + k2)) pre
                F2Start (iter_ self) w k1) as (w' & E); [by left|done|done|lia|].
    change (f2_goto g F2Start) with g in E.
    cbn -[traverse]. fold g. by rewrite E.
  - intros. by eapply flatten2_fault_at_any_depth.
  - intros self selector forest w k1 k2 Hel Hd Hnd.
    by apply f2_materialize_tree.
  - intros selector t. apply emit_unfold.
  - intros part parts. apply chain_cons.
  - intros selector selector' forest Hsel. by apply emit_forest_prefix.
  - by intros [|n].
  - done.
Qed.
End FaultFacts.

Lemma for_each_fault_witness :
  ((for_each 2 (FromList [1; 2; 3])
      (λ y, if y =? 2 then Raises (PyError 0) else Returns y) (World ∅ [])).1
   = Raise (UserCallbackFault (PyError 0))
   ∧ trace (for_each 2 (FromList [1; 2; 3])
              (λ y, if y =? 2 then Raises (PyError 0) else Returns y)
              (World ∅ [])).2
     = [Pulled; Called 1; Pulled; Called 2])
  ∧ (materialize 9 9
       (flatten2 (FromList [1; 0; 2])
          (λ x, match x with
                | 0 => Returns (Some (FromIter 0))
                | 5 => Raises (PyError 7)
                | _ => Returns None
                end))
       (World {[0 := [4; 5; 6]]} [])).1
    = ([1; 4], Faulted (UserCallbackFault (PyError 7))).
Proof.
  destruct (callback_fault_reaches_the_consumer (A:=nat) (K:=nat))
    as (_ & _ & Hfor & _ & _ & _ & Hflat & _).
  split.
  - apply (Hfor nat (FromList [1; 2; 3])
             (λ y, if y =? 2 then Raises (PyError 0) else Returns y)
             [1] 2 [3] (PyError 0) (World ∅ []) 0 eq_refl).
    + intros y Hy. apply list_elem_of_singleton in Hy as ->. by exists 1.
    + reflexivity.
  - apply (Hflat (FromList [1; 0; 2])
             (λ x, match x with
                   | 0 => Returns (Some (FromIter 0))
                   | 5 => Raises (PyError 7)
                   | _ => Returns None
                   end)
             [Node 1 []; Node 0 [Node 4 []; Node 5 []; Node 6 []]; Node 2 []]
             (World {[0 := [4; 5; 6]]} []) 0 0).
    + reflexivity.
    + intros n Hn. cbn in Hn. rewrite !elem_of_cons, elem_of_nil in Hn.
      destruct Hn as [->|[->|[->|[->|[->|[->|[]]]]]]]; intros src [=];
        by subst.
    + cbn. apply NoDup_singleton.
Defined.

Example flatten2_fault_after_descent_example :
  (materialize 5 5
     (flatten2 (FromList [1; 0; 2])
        (λ x, match x with
              | 0 => Returns (Some (FromIter 0))
              | 5 => Raises (PyError 7)
              | _ => Returns None
              end))
     (World {[0 := [4; 5; 6]]} [])).1
  = ([1; 4], Faulted (UserCallbackFault (PyError 7))).
Proof. by vm_compute. Qed.

(** C6, as stated, fails for StopIteration: raised by the key selector
    inside the generator of [except_by], it reaches the consumer as a
    RuntimeError and not as the exception that was raised. *)
Lemma except_by_replaces_stop_iteration :
  (materialize 3 3
     (except_by (K:=nat) (FromList [1]) (FromList []) (λ _, Raises StopIteration))
     (World ∅ [])).1
  = ([], Faulted (GeneratorRuntimeError StopIteration))
  ∧ (materialize 3 3
       (except_by (K:=nat) (FromList [1]) (FromList []) (λ _, Raises StopIteration))
       (World ∅ [])).1
    ≠ ([], Faulted (UserCallbackFault StopIteration)).
Proof. vm_compute. split; [done|]. intros [=]. Qed.

(* ===================================================================== *)
(** ** The cached sequence *)
(* ===================================================================== *)

Section CachedFacts.
Import CachedEnumerable.
Context {A : Type}.
Implicit Types (src : list A) (c : cached (A:=A)) (k : cursor (A:=A))
  (ks : list (cursor (A:=A))).

Lemma as_cached_ok src : cache_ok src (as_cached src).
Proof. by split_and!. Qed.

Lemma iterate_ok c : cursor_ok c iterate.
Proof. split_and!; simpl; [lia|by rewrite take_0|done]. Qed.

Lemma advance_ok src c k :
  cache_ok src c → cursor_ok c k →
  cache_ok src (advance c k).2
  ∧ cursor_ok (advance c k).2 (advance c k).1
  ∧ (∀ k0, cursor_ok c k0 → cursor_ok (advance c k).2 k0)
  ∧ (finished (advance c k).1 = false →
       position (advance c k).1 = S (position k)).
Proof.
  intros Hc Hk. pose proof Hc as (Hsrc & Hprod & Hcompl & Hq).
  pose proof Hk as (Hpos & Hseen & Hfin). unfold advance.
  destruct (buffer c !! position k) as [x|] eqn:E; simpl.
  - split; [done|]. split; [|by split]. red. cbn [position seen finished].
    split; [apply lookup_lt_Some in E; lia|]. split; [|done].
    rewrite Hseen. symmetry. by apply take_S_r.
  - apply lookup_ge_None in E.
    assert (position k = length (buffer c)) as Hlen by lia.
    destruct (complete c) eqn:Ec; simpl.
    + split; [done|]. split; [|by split]. red. cbn [position seen finished].
      by rewrite Ec.
    + unfold source_next.
      destruct (pending (underlying c)) as [|x l] eqn:Ep; simpl.
      * split; [|split; [|split]].
        -- red. simpl. split; [done|]. split; [done|]. split; [done|lia].
        -- red. by simpl.
        -- intros k0 (? & ? & Hf0). red. simpl. split; [done|]. split; [done|].
           intros Hk0. destruct (Hf0 Hk0) as [_ ?]. congruence.
        -- done.
      * split; [|split; [|split]].
        -- red. simpl. rewrite length_app, <- app_assoc. simpl.
           split; [done|]. split; [lia|]. split; [done|lia].
        -- red. simpl. rewrite length_app. simpl. split; [lia|]. split; [|done].
           rewrite Hseen, Hlen. rewrite take_ge by done.
           rewrite take_ge; [done|]. rewrite length_app. simpl. lia.
        -- intros k0 (Hp0 & Hs0 & Hf0). red. simpl. rewrite length_app.
           split; [lia|]. split; [by rewrite take_app_le|].
           intros Hk0. destruct (Hf0 Hk0) as [_ ?]. congruence.
        -- by rewrite Hlen.
Qed.

Lemma run_ok src sched :
  ∀ c ks, cache_ok src c → Forall (cursor_ok c) ks →
  cache_ok src (run sched c ks).1
  ∧ Forall (cursor_ok (run sched c ks).1) (run sched c ks).2
  ∧ length (run sched c ks).2 = length ks.
Proof.
  induction sched as [|i sched IH]; intros c ks Hc Hks; simpl; [done|].
  destruct (ks !! i) as [k|] eqn:E; [|by apply IH].
  pose proof (advance_ok src c k Hc (proj1 (Forall_lookup _ _) Hks _ _ E))
    as (Hc' & Hk' & Hothers & _).
  destruct (advance c k) as [k' c']. simpl in *.
  destruct (IH c' (<[i:=k']> ks)) as (? & ? & Hl); [done| |].
  - apply Forall_insert; [|done]. eapply Forall_impl; [exact Hks|done].
  - split_and!; [done..|]. by rewrite Hl, length_insert.
Qed.

Lemma cache_ok_length src c : cache_ok src c → length (buffer c) ≤ length src.
Proof. intros (<- & _). rewrite length_app. lia. Qed.

Lemma cache_ok_complete src c :
  cache_ok src c → complete c = true →
  buffer c = src ∧ produced (underlying c) = length src
  ∧ queried (underlying c) = S (length src).
Proof.
  intros (Hsrc & Hprod & Hcompl & Hq) Hc. rewrite Hcompl, app_nil_r in Hsrc by done.
  rewrite Hc in Hq. subst src. split_and!; [done..|lia].
Qed.

Lemma full_ok src fuel :
  ∀ c k, cache_ok src c → cursor_ok c k → length src < fuel + position k →
  cache_ok src (full fuel c k).2
  ∧ cursor_ok (full fuel c k).2 (full fuel c k).1
  ∧ finished (full fuel c k).1 = true.
Proof.
  induction fuel as [|fuel IH]; intros c k Hc Hk Hf.
  - pose proof (cache_ok_length _ _ Hc). destruct Hk as (? & _). simpl in Hf. lia.
  - simpl. pose proof (advance_ok src c k Hc Hk) as (Hc' & Hk' & _ & Hpos).
    destruct (advance c k) as [k' c']. simpl in *.
    destruct (finished k') eqn:Ef; [done|].
    apply IH; [done..|]. rewrite Hpos by done. lia.
Qed.

Lemma traversals_ok src fuel n :
  length src < fuel →
  ∀ c, cache_ok src c →
  (traversals fuel n c).1 = replicate n src
  ∧ cache_ok src (traversals fuel n c).2
  ∧ (complete c = true ∨ 1 ≤ n → complete (traversals fuel n c).2 = true).
Proof.
  intros Hf. induction n as [|n IH]; intros c Hc; simpl.
  - split_and!; [done..|]. intros [?|?]; [done|lia].
  - pose proof (full_ok src fuel c iterate Hc (iterate_ok c)) as (Hc' & Hk' & Hfin).
    { simpl. lia. }
    destruct (full fuel c iterate) as [k c']. simpl in *.
    destruct (IH c' Hc') as (Hl & Hc2 & Hcompl).
    destruct (traversals fuel n c') as [ls c2]. simpl in *.
    destruct Hk' as (_ & Hseen & Hend). destruct (Hend Hfin) as [Hpos Hcc].
    destruct (cache_ok_complete _ _ Hc' Hcc) as (Hbuf & _).
    split_and!; [|done|].
    + rewrite Hl, Hseen, Hpos, take_ge by done. by rewrite Hbuf.
    + intros _. apply Hcompl. by left.
Qed.

(** C2. Wrapping a source of [M] elements in the cached sequence and
    traversing it fully any number [N] of times, one traversal after the
    other or with the cursors advanced in any interleaving, makes the
    underlying source produce [M] elements in total, each once, and every
    traversal observes the [M] elements of the source in order; a cursor
    that has not reached the end has observed a prefix of them. *)
Theorem cached_source_is_traversed_once src (n : nat) (sched : list nat) (extra : nat) :
  let r := run sched (as_cached src) (cursors n) in
  let t := traversals (S (length src) + extra) n (as_cached src) in
  produced (underlying r.1) ≤ length src
  ∧ Forall (λ k, seen k = take (position k) src) r.2
  ∧ (1 ≤ n → Forall (λ k, finished k = true) r.2 →
       produced (underlying r.1) = length src
       ∧ queried (underlying r.1) = S (length src)
       ∧ Forall (λ k, seen k = src) r.2
       ∧ length r.2 = n)
  ∧ (1 ≤ n →
       t.1 = replicate n src
       ∧ produced (underlying t.2) = length src
       ∧ queried (underlying t.2) = S (length src)).
Proof.
  intros r t.
  destruct (run_ok src sched (as_cached src) (cursors n) (as_cached_ok src))
    as (Hc & Hks & Hlen).
  { apply Forall_replicate, iterate_ok. }
  fold r in Hc, Hks, Hlen. unfold cursors in Hlen. rewrite length_replicate in Hlen.
  split_and!.
  - pose proof (cache_ok_length _ _ Hc) as Hle. destruct Hc as (_ & Hp & _).
    by rewrite Hp.
  - eapply Forall_impl; [exact Hks|]. intros k (Hpos & -> & _).
    transitivity (take (position k) (buffer r.1 ++ pending (underlying r.1)));
      [by rewrite take_app_le|by rewrite (proj1 Hc)].
  - intros Hn Hfin.
    assert (complete r.1 = true) as Hcompl.
    { destruct r.2 as [|k ks]; [simpl in Hlen; lia|].
      apply Forall_cons in Hfin as [Hfk _]. apply Forall_cons in Hks as [Hk _].
      destruct Hk as (_ & _ & Hend). by destruct (Hend Hfk). }
    destruct (cache_ok_complete _ _ Hc Hcompl) as (Hbuf & Hprod & Hq).
    split_and!; [done..| |done].
    apply Forall_forall. intros k Hk.
    pose proof (proj1 (Forall_forall _ _) Hks k Hk) as (_ & -> & Hend).
    destruct (Hend (proj1 (Forall_forall _ _) Hfin k Hk)) as [-> _].
    by rewrite take_ge, Hbuf.
  - intros Hn.
    destruct (traversals_ok src (S (length src) + extra) n) with (c := as_cached src)
      as (Hl & Hc2 & Hcompl); [lia|apply as_cached_ok|].
    fold t in Hl, Hc2, Hcompl.
    destruct (cache_ok_complete _ _ Hc2) as (_ & ? & ?); [by apply Hcompl; right|].
    done.
Qed.
End CachedFacts.

Lemma cached_three_cursors_witness :
  CachedEnumerable.produced (CachedEnumerable.underlying
              (CachedEnumerable.run [0; 1; 1; 2; 0; 1; 2; 0; 2]
                 (CachedEnumerable.as_cached [10; 20])
                 (CachedEnumerable.cursors 3)).1) = 2
  ∧ Forall (λ k, CachedEnumerable.seen k = [10; 20])
      (CachedEnumerable.run [0; 1; 1; 2; 0; 1; 2; 0; 2]
         (CachedEnumerable.as_cached [10; 20]) (CachedEnumerable.cursors 3)).2.
Proof.
  destruct (proj1 (proj2 (proj2 (cached_source_is_traversed_once
              [10; 20] 3 [0; 1; 1; 2; 0; 1; 2; 0; 2] 0))))
    as (Hp & _ & Hs & _).
  - lia.
  - vm_compute. repeat constructor.
  - split; [exact Hp|exact Hs].
Defined.

(* ===================================================================== *)
(** ** The ordered sequence *)
(* ===================================================================== *)

Section Comparators.
Context {T : Type}.
Implicit Types (cmp : T → T → comparison).

Lemma tp_lt_le cmp a b c :
  total_preorder cmp → cmp a b = Lt → cmp b c ≠ Gt → cmp a c = Lt.
Proof.
  intros [Hopp Htr] Hab Hbc.
  destruct (cmp a c) eqn:Hac; [|done|].
  - exfalso. apply (Htr b c a); [done| |].
    + rewrite Hopp, Hac. done.
    + rewrite Hopp, Hab. done.
  - exfalso. apply (Htr a b c); [by rewrite Hab|done|done].
Qed.

Lemma tp_le_lt cmp a b c :
  total_preorder cmp → cmp a b ≠ Gt → cmp b c = Lt → cmp a c = Lt.
Proof.
  intros [Hopp Htr] Hab Hbc.
  destruct (cmp a c) eqn:Hac; [|done|].
  - exfalso. apply (Htr c a b); [| |].
    + rewrite Hopp, Hac. done.
    + done.
    + rewrite Hopp, Hbc. done.
  - exfalso. apply (Htr a b c); [done|by rewrite Hbc|done].
Qed.

Lemma tp_eq_eq cmp a b c :
  total_preorder cmp → cmp a b = Eq → cmp b c = Eq → cmp a c = Eq.
Proof.
  intros [Hopp Htr] Hab Hbc.
  destruct (cmp a c) eqn:Hac; [done| |].
  - exfalso. apply (Htr c b a).
    + rewrite Hopp, Hbc. done.
    + rewrite Hopp, Hab. done.
    + rewrite Hopp, Hac. done.
  - exfalso. apply (Htr a b c); [by rewrite Hab|by rewrite Hbc|done].
Qed.

Lemma tp_opp cmp :
  total_preorder cmp → total_preorder (λ a b, CompOpp (cmp a b)).
Proof.
  intros [Hopp Htr]. split.
  - intros a b. by rewrite (Hopp a b).
  - intros a b c Hab Hbc Hac. apply (Htr c b a).
    + rewrite Hopp. by destruct (cmp b c).
    + rewrite Hopp. by destruct (cmp a b).
    + rewrite Hopp. by destruct (cmp a c).
Qed.

Lemma tp_pull {U} (f : U → T) cmp :
  total_preorder cmp → total_preorder (λ x y, cmp (f x) (f y)).
Proof. intros [Hopp Htr]. split; [by intros|]. intros a b c. apply Htr. Qed.

Lemma tp_lex (c1 c2 : T → T → comparison) :
  total_preorder c1 → total_preorder c2 →
  total_preorder (λ a b, match c1 a b with Eq => c2 a b | c => c end).
Proof.
  intros H1 H2. split.
  - intros a b. rewrite (proj1 H1 a b). destruct (c1 a b); simpl; [|done..].
    apply H2.
  - intros a b c Hab Hbc.
    destruct (c1 a b) eqn:E1; [| |done]; destruct (c1 b c) eqn:E2; [| |done| | |done].
    + rewrite (tp_eq_eq c1 a b c) by done. by apply (proj2 H2 a b c).
    + rewrite (tp_le_lt c1 a b c) by (done || by rewrite E1). done.
    + rewrite (tp_lt_le c1 a b c) by (done || by rewrite E2). done.
    + rewrite (tp_lt_le c1 a b c) by (done || by rewrite E2). done.
Qed.
End Comparators.

Lemma tp_Z : total_preorder Z.compare.
Proof.
  split.
  - intros a b. apply Z.compare_antisym.
  - intros a b c. rewrite !Z.compare_le_iff || (fold (Z.le a b) (Z.le b c) (Z.le a c)).
    apply Z.le_trans.
Qed.

Lemma tp_nat : total_preorder Nat.compare.
Proof.
  split.
  - intros a b. apply Nat.compare_antisym.
  - intros a b c. rewrite !Nat.compare_le_iff. apply Nat.le_trans.
Qed.

Section OrderedFacts.
Import OrderedEnumerable.
Context {A : Type}.
Implicit Types (s : SortKeySpec A) (ss : list (SortKeySpec A))
  (a b : nat * A) (l : list (nat * A)) (o : ordered A).

Lemma compare_by_tp s :
  (∀ cmp, comparator s = Some cmp → total_preorder cmp) →
  total_preorder (compare_by s).
Proof.
  intros Hs. unfold compare_by.
  assert (total_preorder (default Z.compare (comparator s))) as Hc.
  { destruct (comparator s) as [cmp|]; simpl; [by apply Hs|apply tp_Z]. }
  destruct (descending s).
  - apply (tp_pull (key_selector s) (λ x y, CompOpp (default Z.compare (comparator s) x y))).
    by apply tp_opp.
  - by apply (tp_pull (key_selector s)).
Qed.

Lemma composite_tp ss : valid_specs ss → total_preorder (composite ss).
Proof.
  induction 1 as [|s ss Hs _ IH]; simpl.
  - by split.
  - apply (tp_lex (compare_by s) (composite ss)); [by apply compare_by_tp|done].
Qed.

Lemma compare_indexed_tp ss :
  valid_specs ss → total_preorder (compare_indexed ss).
Proof.
  intros Hss. unfold compare_indexed.
  apply (tp_lex (λ a b, composite ss a.2 b.2) (λ a b, Nat.compare a.1 b.1)).
  - apply (tp_pull snd), composite_tp, Hss.
  - apply (tp_pull fst), tp_nat.
Qed.

Lemma composite_Eq ss x y :
  composite ss x y = Eq ↔ Forall (λ s, compare_by s x y = Eq) ss.
Proof.
  induction ss as [|s ss IH]; simpl.
  - split; [constructor|done].
  - rewrite Forall_cons, <- IH.
    destruct (compare_by s x y); split; try tauto; try done; by intros [? _].
Qed.

Lemma composite_snoc ss s x y :
  composite (ss ++ [s]) x y
  = match composite ss x y with
    | Eq => compare_by s x y
    | c => c
    end.
Proof.
  induction ss as [|s0 ss IH]; simpl.
  - by destruct (compare_by s x y).
  - destruct (compare_by s0 x y); [apply IH|done..].
Qed.

Lemma insert_sorted_Permutation cmp a l : insert_sorted cmp a l ≡ₚ a :: l.
Proof.
  induction l as [|b l IH]; simpl; [done|].
  destruct (cmp a b); [done..|]. rewrite IH. apply Permutation_swap.
Qed.

Lemma sort_buffer_Permutation cmp l : sort_buffer cmp l ≡ₚ l.
Proof.
  induction l as [|a l IH]; simpl; [done|].
  by rewrite insert_sorted_Permutation, IH.
Qed.

Lemma insert_sorted_sorted (cmp : nat * A → nat * A → comparison) a l :
  total_preorder cmp →
  StronglySorted (λ a b, cmp a b ≠ Gt) l →
  StronglySorted (λ a b, cmp a b ≠ Gt) (insert_sorted cmp a l).
Proof.
  intros Hcmp. induction 1 as [|b l Hl IH Hb]; simpl.
  - repeat constructor.
  - destruct (cmp a b) eqn:E.
    + constructor; [by constructor|]. constructor; [by rewrite E|].
      eapply Forall_impl; [exact Hb|]. simpl. intros c Hbc.
      apply (proj2 Hcmp a b c); [by rewrite E|done].
    + constructor; [by constructor|]. constructor; [by rewrite E|].
      eapply Forall_impl; [exact Hb|]. simpl. intros c Hbc.
      apply (proj2 Hcmp a b c); [by rewrite E|done].
    + constructor; [done|].
      rewrite insert_sorted_Permutation. constructor; [|done].
      rewrite (proj1 Hcmp), E. done.
Qed.

Lemma sort_buffer_sorted (cmp : nat * A → nat * A → comparison) l :
  total_preorder cmp →
  StronglySorted (λ a b, cmp a b ≠ Gt) (sort_buffer cmp l).
Proof.
  intros Hcmp. induction l as [|a l IH]; simpl; [constructor|].
  by apply insert_sorted_sorted.
Qed.

Lemma StronglySorted_lookup {T} (R : T → T → Prop) (l : list T) i j x y :
  StronglySorted R l → i < j → l !! i = Some x → l !! j = Some y → R x y.
Proof.
  intros Hl. revert i j. induction Hl as [|z l Hl IH Hz]; intros i j Hij Hi Hj.
  - done.
  - destruct i as [|i], j as [|j]; simpl in *; try lia.
    + injection Hi as ->. eapply (proj1 (Forall_forall _ _) Hz).
      by eapply list_elem_of_lookup_2.
    + apply (IH i j); [lia|done..].
Qed.

Lemma indexed_lookup (src : list A) a :
  a ∈ indexed src → src !! a.1 = Some a.2.
Proof.
  unfold indexed. intros (i & Hi)%list_elem_of_lookup_1.
  rewrite list_lookup_imap in Hi.
  destruct (src !! i) as [x|] eqn:E; simpl in Hi; [|done].
  by injection Hi as <-.
Qed.

Lemma indexed_fst (src : list A) : (indexed src).*1 = seq 0 (length src).
Proof.
  unfold indexed. rewrite fmap_imap.
  rewrite (imap_ext _ (λ i _, id i)) by done.
  by rewrite (imap_seq_0 src id), list_fmap_id.
Qed.

Lemma indexed_snd (src : list A) : (indexed src).*2 = src.
Proof.
  unfold indexed. rewrite fmap_imap.
  rewrite (imap_ext _ (const id)) by done.
  by rewrite imap_const, list_fmap_id.
Qed.

Lemma materialize_indexed_sorted o :
  valid_specs (specs o) →
  StronglySorted (λ a b, compare_indexed (specs o) a b ≠ Gt) (materialize_indexed o).
Proof. intros Ho. by apply sort_buffer_sorted, compare_indexed_tp. Qed.

Lemma materialize_indexed_NoDup o : NoDup (materialize_indexed o).*1.
Proof.
  unfold materialize_indexed. rewrite sort_buffer_Permutation, indexed_fst.
  apply NoDup_seq.
Qed.

Lemma materialize_stable o i j a b :
  valid_specs (specs o) → i < j →
  materialize_indexed o !! i = Some a → materialize_indexed o !! j = Some b →
  composite (specs o) a.2 b.2 ≠ Gt
  ∧ (Forall (λ s, compare_by s a.2 b.2 = Eq) (specs o) → a.1 < b.1).
Proof.
  intros Ho Hij Hi Hj.
  pose proof (StronglySorted_lookup _ _ i j a b
                (materialize_indexed_sorted o Ho) Hij Hi Hj) as Hle.
  unfold compare_indexed in Hle. split.
  - intros Hgt. by rewrite Hgt in Hle.
  - intros Heq%composite_Eq. rewrite Heq in Hle.
    apply Nat.compare_le_iff in Hle.
    assert (a.1 ≠ b.1); [|lia]. intros Hab.
    assert (i = j); [|lia].
    apply (NoDup_lookup _ i j a.1 (materialize_indexed_NoDup o)).
    + by rewrite list_lookup_fmap, Hi.
    + by rewrite list_lookup_fmap, Hj, Hab.
Qed.

Lemma materialize_lookup o i x :
  materialize o !! i = Some x →
  ∃ p, materialize_indexed o !! i = Some (p, x).
Proof.
  unfold materialize. rewrite list_lookup_fmap.
  destruct (materialize_indexed o !! i) as [[p y]|]; simpl; [|done].
  intros [= ->]. by exists p.
Qed.

Lemma materialize_sorted_lookup o i j x y :
  valid_specs (specs o) → i < j →
  materialize o !! i = Some x → materialize o !! j = Some y →
  composite (specs o) x y ≠ Gt.
Proof.
  intros Ho Hij (p & Hi)%materialize_lookup (q & Hj)%materialize_lookup.
  exact (proj1 (materialize_stable o i j (p, x) (q, y) Ho Hij Hi Hj)).
Qed.

Lemma materialize_origin o i p :
  (materialize_indexed o).*1 !! i = Some p →
  materialize o !! i = source o !! p.
Proof.
  unfold materialize. rewrite !list_lookup_fmap.
  destruct (materialize_indexed o !! i) as [[p' x]|] eqn:E; simpl; [|done].
  intros [= ->]. symmetry. apply (indexed_lookup (source o) (p, x)).
  apply list_elem_of_lookup_2 in E. unfold materialize_indexed in E.
  by rewrite sort_buffer_Permutation in E.
Qed.

Lemma materialize_stable_origin o i j p q x y :
  valid_specs (specs o) → i < j →
  (materialize_indexed o).*1 !! i = Some p →
  (materialize_indexed o).*1 !! j = Some q →
  materialize o !! i = Some x → materialize o !! j = Some y →
  Forall (λ s, compare_by s x y = Eq) (specs o) → p < q.
Proof.
  intros Ho Hij Hp Hq (p' & Hi)%materialize_lookup (q' & Hj)%materialize_lookup Heq.
  rewrite list_lookup_fmap, Hi in Hp. rewrite list_lookup_fmap, Hj in Hq.
  simpl in Hp, Hq. injection Hp as ->. injection Hq as ->.
  exact (proj2 (materialize_stable o i j (p, x) (q, y) Ho Hij Hi Hj) Heq).
Qed.
End OrderedFacts.

(** C3. An ordered sequence built by [order_by] and chained [then_by]
    calls is a stable sort by the keys in the order they were given: the
    sequence the consumer traverses is a rearrangement of the source in
    which no element comes before one that is smaller under the criteria,
    and its elements can be traced back to the source positions, each
    position once, so that elements equal under every key keep their
    relative order from the source; a [then_by] key decides only between
    elements equal under all earlier keys.  Sorting
    [[(1,2); (1,1); (0,5)]] by the first and then by the second component
    gives [[(0,5); (1,1); (1,2)]]. *)
Theorem ordered_sequence_is_stable_multi_key_sort :
  (∀ (A : Type) (o : OrderedEnumerable.ordered A),
     valid_specs (OrderedEnumerable.specs o) →
     OrderedEnumerable.materialize o ≡ₚ OrderedEnumerable.source o
     ∧ (∀ i j x y, i < j →
          OrderedEnumerable.materialize o !! i = Some x →
          OrderedEnumerable.materialize o !! j = Some y →
          OrderedEnumerable.composite (OrderedEnumerable.specs o) x y ≠ Gt)
     ∧ (∃ origin : list nat,
          origin ≡ₚ seq 0 (length (OrderedEnumerable.source o))
          ∧ (∀ i p, origin !! i = Some p →
               OrderedEnumerable.materialize o !! i
               = OrderedEnumerable.source o !! p)
          ∧ (∀ i j p q x y, i < j →
               origin !! i = Some p → origin !! j = Some q →
               OrderedEnumerable.materialize o !! i = Some x →
               OrderedEnumerable.materialize o !! j = Some y →
               Forall (λ s, OrderedEnumerable.compare_by s x y = Eq)
                 (OrderedEnumerable.specs o) →
               p < q))
     ∧ (∀ a, a ∈ OrderedEnumerable.materialize_indexed o →
          OrderedEnumerable.source o !! a.1 = Some a.2)
     ∧ (∀ i j a b, i < j →
          OrderedEnumerable.materialize_indexed o !! i = Some a →
          OrderedEnumerable.materialize_indexed o !! j = Some b →
          OrderedEnumerable.composite (OrderedEnumerable.specs o) a.2 b.2 ≠ Gt
          ∧ (Forall (λ s, OrderedEnumerable.compare_by s a.2 b.2 = Eq)
               (OrderedEnumerable.specs o) → a.1 < b.1)))
  ∧ (∀ (A : Type) (o : OrderedEnumerable.ordered A) (key : A → Z) x y,
       OrderedEnumerable.composite
         (OrderedEnumerable.specs (OrderedEnumerable.then_by o key)) x y
       = match OrderedEnumerable.composite (OrderedEnumerable.specs o) x y with
         | Eq => Z.compare (key x) (key y)
         | c => c
         end
       ∧ OrderedEnumerable.composite
           (OrderedEnumerable.specs (OrderedEnumerable.then_by_descending o key)) x y
         = match OrderedEnumerable.composite (OrderedEnumerable.specs o) x y with
           | Eq => CompOpp (Z.compare (key x) (key y))
           | c => c
           end
       ∧ OrderedEnumerable.source (OrderedEnumerable.then_by o key)
         = OrderedEnumerable.source o)
  ∧ OrderedEnumerable.materialize
      (OrderedEnumerable.then_by
         (OrderedEnumerable.order_by [(1, 2); (1, 1); (0, 5)]%Z fst) snd)
    = [(0, 5); (1, 1); (1, 2)]%Z.
Proof.
  split_and!.
  - intros A o Ho. split_and!.
    + unfold OrderedEnumerable.materialize, OrderedEnumerable.materialize_indexed.
      by rewrite sort_buffer_Permutation, indexed_snd.
    + intros i j x y Hij Hi Hj. by eapply materialize_sorted_lookup.
    + exists (OrderedEnumerable.materialize_indexed o).*1. split_and!.
      * unfold OrderedEnumerable.materialize_indexed.
        by rewrite sort_buffer_Permutation, indexed_fst.
      * intros i p Hp. by apply materialize_origin.
      * intros i j p q x y Hij Hp Hq Hi Hj Heq.
        by eapply (materialize_stable_origin o i j p q x y).
    + intros a Ha. apply indexed_lookup.
      unfold OrderedEnumerable.materialize_indexed in Ha.
      by rewrite sort_buffer_Permutation in Ha.
    + intros i j a b. by apply materialize_stable.
  - intros A o key x y. split_and!; [..|done].
    + unfold OrderedEnumerable.then_by, OrderedEnumerable.create_ordered_enumerable.
      simpl. by rewrite composite_snoc.
    + unfold OrderedEnumerable.then_by_descending,
        OrderedEnumerable.create_ordered_enumerable.
      simpl. by rewrite composite_snoc.
  - by vm_compute.
Qed.

Lemma ordered_pairs_witness :
  OrderedEnumerable.materialize
    (OrderedEnumerable.then_by
       (OrderedEnumerable.order_by [(1, 2); (1, 1); (0, 5)]%Z fst) snd)
  ≡ₚ [(1, 2); (1, 1); (0, 5)]%Z.
Proof.
  apply (proj1 ordered_sequence_is_stable_multi_key_sort (Z * Z)%type
           (OrderedEnumerable.then_by
              (OrderedEnumerable.order_by [(1, 2); (1, 1); (0, 5)]%Z fst) snd)).
  unfold valid_specs. simpl.
  constructor; [by intros cmp [=]|]. constructor; [by intros cmp [=]|].
  constructor.
Defined.

(* ===================================================================== *)
(** ** The operators on small inputs *)
(* ===================================================================== *)

Example except_by_example :
  (materialize 10 10
     (except_by (K:=nat) (FromList [1; 2; 3; 2; 5; 1]) (FromList [3])
        (λ x, Returns x)) (World ∅ [])).1
  = ([1; 2; 5], Exhausted).
Proof. by vm_compute. Qed.

Example distinct_by_example :
  (materialize 10 10
     (distinct_by (K:=nat) (FromList [1; 3; 2; 4; 5]) (λ x, Returns (x mod 2)))
     (World ∅ [])).1
  = ([1; 2], Exhausted).
Proof. by vm_compute. Qed.

Example interleave_example :
  (materialize 10 10
     (interleave (FromList [1; 2; 3]) [FromList [4]; FromList [5; 6]])
     (World ∅ [])).1
  = ([1; 4; 5; 2; 6; 3], Exhausted).
Proof. by vm_compute. Qed.

Example interleave_shared_iterator_example :
  (materialize 10 10
     (interleave (FromList [1; 2; 3]) [FromIter 0; FromIter 0])
     (World {[0 := [7; 8; 9]]} [])).1
  = ([1; 7; 8; 2; 9; 3], Exhausted).
Proof. by vm_compute. Qed.

Section FlattenExample.
Import String.

Example flatten_example :
  (materialize 20 20
     (flatten (FromList
        [PyInt 1;
         PyList [PyInt 2; PyStr "ab"%string; PyTuple [PyInt 3; PyList [PyInt 4]]];
         PyStr "c"%string]) [])
     (World ∅ [])).1
  = ([PyInt 1; PyInt 2; PyStr "ab"%string; PyInt 3; PyInt 4; PyStr "c"%string],
     Exhausted).
Proof. by vm_compute. Qed.
End FlattenExample.

Example traverse_depth_first_example :
  label <$> (materialize 10 10
     (traverse_depth_first
        (Node 1 [Node 2 [Node 4 []; Node 5 []]; Node 3 []]) children_of)
     (World ∅ [])).1.1
  = [1; 2; 4; 5; 3].
Proof. by vm_compute. Qed.

Example traverse_breath_first_example :
  label <$> (materialize 10 10
     (traverse_breath_first
        (Node 1 [Node 2 [Node 4 []; Node 5 []]; Node 3 []]) children_of)
     (World ∅ [])).1.1
  = [1; 2; 3; 4; 5].
Proof. by vm_compute. Qed.

Example aggregate_right_example :
  (aggregate_right 10 (FromList [1; 2; 3]%Z)
     (Args1 (λ elem seed, Returns (elem - seed)%Z)) (World ∅ [])).1
  = Ok 2%Z.
Proof. by vm_compute. Qed.

Example aggregate_right_empty_example :
  (aggregate_right 10 (FromList [])
     (Args1 (λ elem seed, Returns (elem - seed)%Z)) (World ∅ [])).1
  = Raise EmptySequenceFault.
Proof. by vm_compute. Qed.

Example for_each2_example :
  trace (for_each2 10 (FromList [7; 8]) (λ x i, Returns (x + i)) (World ∅ [])).2
  = [Pulled; CalledIdx 7 0; Pulled; CalledIdx 8 1; Pulled].
Proof. by vm_compute. Qed.

(* ===================================================================== *)
(** ** [aggregate_right] is a right fold *)
(* ===================================================================== *)

Section AggregateFold.
Context {A : Type}.
Implicit Types (w : world A) (self : iterable A) (xs it : list A).

Lemma fold_elems_app (func : A → A → returns A) it1 it2 seed w :
  fold_elems func (it1 ++ it2) seed w
  = (seed' ← fold_elems func it1 seed; fold_elems func it2 seed') w.
Proof.
  revert seed w. induction it1 as [|x it1 IH]; intros seed w; simpl; [done|].
  munfold. destruct (func x seed) as [b|e]; simpl; [|done].
  rewrite IH. by munfold.
Qed.

Lemma fold_elems_reverse (func : A → A → returns A) xs seed w :
  (fold_elems func (reverse xs) seed w).1
  = to_result (foldr_returns func seed xs).
Proof.
  revert w. induction xs as [|x xs IH]; intros w; [done|].
  rewrite reverse_cons, fold_elems_app. munfold.
  specialize (IH w). destruct (fold_elems func (reverse xs) seed w) as [r w1].
  simpl in *. rewrite IH.
  destruct (foldr_returns func seed xs) as [acc|e]; simpl; [|done].
  munfold. by destruct (func x acc).
Qed.

(** X1. With a seed, [aggregate_right] is the right fold of the source:
    the last element is combined with the seed first, [func(elem, seed)],
    then the one before it, up to the first element; the three-argument
    form hands the outcome to [result_selector].  The first exception of
    [func] ends the fold and reaches the caller as it is. *)
Theorem aggregate_right_seeded_is_right_fold
    self (seed : A) (func : A → A → returns A)
    (result_selector : A → returns A) w (k : nat) :
  let xs := elements_of self w in
  (aggregate_right (S (length xs) + k) self (Args2 seed func) w).1
  = to_result (foldr_returns func seed xs)
  ∧ (aggregate_right (S (length xs) + k) self
       (Args3 seed func result_selector) w).1
    = to_result (match foldr_returns func seed xs with
                 | Returns acc => result_selector acc
                 | Raises e => Raises e
                 end).
Proof.
  intros xs. unfold aggregate_right, reverse_. munfold.
  destruct (unpack_elements self (S (length xs) + k) w) as (w1 & ->);
    [unfold xs; lia|]. fold xs. split.
  - apply fold_elems_reverse.
  - pose proof (fold_elems_reverse func xs seed w1) as E.
    destruct (fold_elems func (reverse xs) seed w1) as [r w2]. simpl in E.
    rewrite E. destruct (foldr_returns func seed xs) as [acc|e]; simpl; [|done].
    by destruct (result_selector acc).
Qed.

(** X2. Without a seed, on a source that is not empty, [aggregate_right]
    takes the last element as the seed and folds the elements before it
    from the right. *)
Theorem aggregate_right_unseeded_folds_from_last
    self (func : A → A → returns A) xs (x : A) w (k : nat) :
  elements_of self w = xs ++ [x] →
  (aggregate_right (S (S (length xs)) + k) self (Args1 func) w).1
  = to_result (foldr_returns func x xs).
Proof.
  intros Hxs. unfold aggregate_right, reverse_. munfold.
  destruct (unpack_elements self (S (S (length xs)) + k) w) as (w1 & ->).
  { rewrite Hxs, length_app. simpl. lia. }
  rewrite Hxs, reverse_snoc. apply fold_elems_reverse.
Qed.
End AggregateFold.

Lemma aggregate_right_unseeded_witness :
  (aggregate_right 4 (FromList [1; 2; 3]%Z)
     (Args1 (λ elem seed, Returns (elem - seed)%Z)) (World ∅ [])).1
  = Ok 2%Z.
Proof.
  apply (aggregate_right_unseeded_folds_from_last (FromList [1; 2; 3]%Z)
           (λ elem seed, Returns (elem - seed)%Z) [1; 2]%Z 3%Z (World ∅ []) 0).
  reflexivity.
Defined.

(* ===================================================================== *)
(** ** [for_each] and [for_each2] on a run without exceptions *)
(* ===================================================================== *)

Section ForEachRuns.
Context {A B : Type}.
Implicit Types (w : world A) (self : iterable A) (xs : list A).

Lemma for_each_loop_run (action : A → B) xs :
  ∀ it w fuel, content it w = xs → length xs < fuel →
  ∃ w', for_in fuel it (λ elem _, _ ← call (λ y, Returns (action y)) elem; mret ()) () w
        = (Ok (), w')
      ∧ trace w' = trace w ++ concat ((λ y, [Pulled; Called y]) <$> xs) ++ [Pulled]
      ∧ heap w' = exhaust it w.
Proof.
  induction xs as [|x xs IH]; intros it w fuel Hc Hf.
  - destruct fuel as [|fuel]; [simpl in Hf; lia|]. simpl. munfold.
    rewrite (pull_nil _ _ Hc). eexists. split; [done|]. simpl.
    by rewrite exhaust_nil.
  - destruct fuel as [|fuel]; [simpl in Hf; lia|]. simpl. munfold.
    destruct (pull_cons _ _ _ _ Hc) as (it' & w1 & -> & Hc1 & He1 & Ht & _).
    simpl.
    destruct (IH it' (log (Called x) w1) fuel) as (w2 & E & Ht2 & Hh2).
    { by rewrite content_log. } { simpl in Hf. lia. }
    exists w2. split; [exact E|]. split.
    + rewrite Ht2. simpl. by rewrite Ht, <- !app_assoc.
    + by rewrite Hh2, exhaust_log.
Qed.

Lemma for_each2_loop_run (action : A → nat → B) xs :
  ∀ i0 it w fuel, content it w = xs → length xs < fuel →
  ∃ w', for_in fuel it
          (λ elem i, _ ← call_idx (λ y j, Returns (action y j)) elem i; mret (S i)) i0 w
        = (Ok (i0 + length xs), w')
      ∧ trace w'
        = trace w ++ concat (imap (λ j y, [Pulled; CalledIdx y (i0 + j)]) xs) ++ [Pulled]
      ∧ heap w' = exhaust it w.
Proof.
  induction xs as [|x xs IH]; intros i0 it w fuel Hc Hf.
  - destruct fuel as [|fuel]; [simpl in Hf; lia|]. simpl. munfold.
    rewrite (pull_nil _ _ Hc). rewrite Nat.add_0_r. eexists. split; [done|].
    simpl. by rewrite exhaust_nil.
  - destruct fuel as [|fuel]; [simpl in Hf; lia|]. simpl. munfold.
    destruct (pull_cons _ _ _ _ Hc) as (it' & w1 & -> & Hc1 & He1 & Ht & _).
    simpl.
    destruct (IH (S i0) it' (log (CalledIdx x i0) w1) fuel) as (w2 & E & Ht2 & Hh2).
    { by rewrite content_log. } { simpl in Hf. lia. }
    exists w2. split; [rewrite E; do 2 f_equal; lia|]. split.
    + rewrite Ht2. simpl. rewrite Ht, <- !app_assoc, Nat.add_0_r. simpl.
      do 5 f_equal. apply imap_ext. intros j y _. unfold compose. by replace (i0 + S j) with (S (i0 + j)) by lia.
    + by rewrite Hh2, exhaust_log.
Qed.

(** X3. When the action raises nothing, [for_each] returns [None] after it
    called the action once on every element, in source order, each call
    right after its element was pulled and before the next one is; a
    one-shot source is left exhausted. *)
Theorem for_each_applies_action_in_source_order
    self (action : A → B) w (k : nat) :
  let xs := elements_of self w in
  let r := for_each (S (length xs) + k) self (λ y, Returns (action y)) w in
  r.1 = Ok ()
  ∧ trace r.2 = trace w ++ concat ((λ y, [Pulled; Called y]) <$> xs) ++ [Pulled]
  ∧ heap r.2 = exhaust (iter_ self) w.
Proof.
  intros xs r. unfold r, for_each.
  destruct (for_each_loop_run action xs (iter_ self) w (S (length xs) + k))
    as (w' & -> & Ht & Hh); [done|lia|done].
Qed.

(** X4. When the action raises nothing, [for_each2] returns [None] after it
    called the action once on every element, in source order, with the
    index of the element, counted from 0, as second argument. *)
Theorem for_each2_passes_indices_from_zero
    self (action : A → nat → B) w (k : nat) :
  let xs := elements_of self w in
  let r := for_each2 (S (length xs) + k) self (λ y i, Returns (action y i)) w in
  r.1 = Ok ()
  ∧ trace r.2
    = trace w ++ concat (imap (λ i y, [Pulled; CalledIdx y i]) xs) ++ [Pulled]
  ∧ heap r.2 = exhaust (iter_ self) w.
Proof.
  intros xs r. unfold r, for_each2.
  destruct (for_each2_loop_run action xs 0 (iter_ self) w (S (length xs) + k))
    as (w' & E & Ht & Hh); [done|lia|].
  munfold. rewrite E. simpl. by rewrite Ht.
Qed.
End ForEachRuns.

(* ===================================================================== *)
(** ** [interleave]: special cases and order within an input *)
(* ===================================================================== *)

Section InterleaveMore.
Context {A : Type}.
Implicit Types (w : world A) (xs ys : list A) (ls : list (list A)).

Lemma rounds_single n xs : length xs ≤ n → rounds n [xs] = xs.
Proof.
  revert xs. induction n as [|n IH]; intros [|x xs] Hn; simpl in *;
    try done; try lia.
  - by rewrite (rounds_all_nil n [[]]) by by repeat constructor.
  - f_equal. apply IH. lia.
Qed.

Lemma rounds_alternate n xs ys :
  length xs ≤ n → length ys ≤ n → rounds n [xs; ys] = alternate xs ys.
Proof.
  revert xs ys. induction n as [|n IH]; intros [|x xs] [|y ys] Hx Hy;
    simpl in *; try done; try lia.
  - by rewrite (rounds_all_nil n [[]; []]) by by repeat constructor.
  - f_equal. etrans; [exact (rounds_skip_nil n [] [ys])|apply rounds_single; lia].
  - f_equal. etrans; [exact (rounds_skip_nil n [xs] [])|apply rounds_single; lia].
  - do 2 f_equal. apply IH; lia.
Qed.

Lemma rounds_sublist n ls l :
  l ∈ ls → length l ≤ n → l `sublist_of` rounds n ls.
Proof.
  revert ls l. induction n as [|n IH]; intros ls l Hl Hn.
  - destruct l; [apply sublist_nil_l|simpl in Hn; lia].
  - simpl. destruct l as [|x l]; [apply sublist_nil_l|].
    change (x :: l) with ([x] ++ l). apply sublist_app.
    + clear -Hl. induction ls as [|l0 ls' IH']; [by apply elem_of_nil in Hl|].
      apply elem_of_cons in Hl as [<-|Hl]; simpl.
      * apply sublist_skip, sublist_nil_l.
      * destruct (head l0); [apply sublist_cons|]; by apply IH'.
    + apply IH; [|simpl in Hn; lia].
      apply list_elem_of_fmap. by exists (x :: l).
Qed.

(** X5. [interleave()] without further iterables yields the elements of
    the receiver, in order, whether the receiver is a list or an iterator
    object. *)
Theorem interleave_without_arguments_is_identity (self : iterable A) w k1 k2 :
  (materialize (4 + k1) (S (length (elements_of self w)) + k2)
     (interleave self []) w).1
  = (elements_of self w, Exhausted).
Proof.
  pose proof (interleave_materialize_shared self [] w k1 k2) as E.
  cbn [length fmap list_fmap sum_list_with] in E.
  rewrite Nat.add_0_r in E. change (4 + k1) with (2 * 1 + 2 + k1). rewrite E.
  - f_equal. unfold round_robin. simpl. apply rounds_single. lia.
  - destruct self; simpl; [constructor|apply NoDup_singleton].
Qed.

(** X6. [interleave] over the receiver and one further list takes their
    elements in turns, the receiver first; once the shorter one is
    exhausted, what is left of the longer one follows. *)
Theorem interleave_two_alternates xs ys w k1 k2 :
  (materialize (6 + k1) (S (length xs + length ys) + k2)
     (interleave (FromList xs) [FromList ys]) w).1
  = (alternate xs ys, Exhausted).
Proof.
  pose proof (interleave_materialize xs [ys] w k1 k2) as E. simpl in E.
  rewrite Nat.add_0_r in E. simpl. rewrite E. f_equal.
  unfold round_robin. simpl. apply rounds_alternate; lia.
Qed.

(** X7. [interleave] keeps the order within every input: each input is a
    subsequence of the result. *)
Theorem interleave_keeps_order_within_each_input xs ls w k1 k2 :
  ∀ l, l ∈ xs :: ls →
  l `sublist_of`
    (materialize (2 * length (xs :: ls) + 2 + k1)
       (S (sum_list_with length (xs :: ls)) + k2)
       (interleave (FromList xs) (FromList <$> ls)) w).1.1.
Proof.
  intros l Hl. rewrite interleave_materialize. simpl.
  apply rounds_sublist; [done|].
  exact (proj1 (Forall_forall _ _) (max_list_with_bound (xs :: ls)) l Hl).
Qed.
End InterleaveMore.

Lemma interleave_keeps_order_witness :
  [1; 2; 3]%Z `sublist_of`
    (materialize 8 7 (interleave (FromList [1; 2; 3]%Z)
                        (FromList <$> [[4; 5]%Z; [6]%Z])) (World ∅ [])).1.1.
Proof.
  apply (interleave_keeps_order_within_each_input [1; 2; 3]%Z
           [[4; 5]%Z; [6]%Z] (World ∅ []) 0 0 [1; 2; 3]%Z).
  left.
Defined.

(* ===================================================================== *)
(** ** [except_by], [distinct_by]: fixed points and laziness *)
(* ===================================================================== *)

Section ExceptByMore.
Context {A K : Type} `{Countable K}.
Implicit Types (w : world A) (xs ys pre post : list A) (s : gset K).

Lemma except_by_spec_id (key : A → K) sk xs :
  ∀ yielded, NoDup (key <$> xs) →
  (∀ x, x ∈ xs → (key x ∉ sk) ∧ (key x ∉ key <$> yielded)) →
  except_by_spec key sk yielded xs = xs.
Proof.
  induction xs as [|x l IH]; intros yl Hnd Hx; simpl; [done|].
  rewrite fmap_cons in Hnd. apply NoDup_cons in Hnd as [Hx1 Hnd].
  rewrite decide_False by (specialize (Hx x (list_elem_of_here _ _)); tauto).
  f_equal. apply IH; [done|]. intros y Hy.
  destruct (Hx y (list_elem_of_further _ _ _ Hy)) as [Hy1 Hy2].
  split; [done|].
  rewrite fmap_app, elem_of_app. simpl. rewrite list_elem_of_singleton.
  intros [Hin|Heq]; [done|].
  apply Hx1. rewrite <- Heq. apply list_elem_of_fmap. by exists y.
Qed.

(** X8. When the keys of the source elements are pairwise different and
    none of them is the key of an element of [second], [except_by] yields
    the source unchanged. *)
Theorem except_by_of_distinct_new_keys_is_identity
    (self second : iterable A) (key : A → K) w (k1 k2 : nat) :
  let xs := elements_of self w in
  let ys := elements_of second w in
  NoDup (key <$> xs) →
  (∀ x, x ∈ xs → key x ∉ key <$> ys) →
  (materialize (S (length xs + length ys) + k1) (S (length xs) + k2)
     (except_by self second (λ x, Returns (key x))) w).1
  = (xs, Exhausted).
Proof.
  intros xs ys Hnd Hnew. unfold xs, ys. rewrite except_by_materialize.
  f_equal. apply except_by_spec_id; [done|].
  intros x Hx. split; [by apply Hnew|]. simpl. apply not_elem_of_nil.
Qed.

(** X9. What [except_by] gave is left unchanged by a further [except_by]
    with the same [second] and key selector, and by [distinct_by] with the
    same key selector. *)
Theorem except_by_result_is_fixed_point
    xs ys (key : A → K) w w' (k1 k2 : nat) :
  let out :=
    (materialize (S (length xs + length ys) + k1) (S (length xs) + k2)
       (except_by (FromList xs) (FromList ys) (λ x, Returns (key x))) w).1.1 in
  (materialize (S (length out + length ys) + k1) (S (length out) + k2)
     (except_by (FromList out) (FromList ys) (λ x, Returns (key x))) w').1
  = (out, Exhausted)
  ∧ (materialize (S (length out) + k1) (S (length out) + k2)
       (distinct_by (FromList out) (λ x, Returns (key x))) w').1
    = (out, Exhausted).
Proof.
  intros out.
  assert (Hout : out = except_by_spec key (key <$> ys) [] xs).
  { unfold out.
    by rewrite (except_by_materialize (FromList xs) (FromList ys) key w k1 k2). }
  split.
  - rewrite (except_by_materialize (FromList out) (FromList ys) key w' k1 k2).
    f_equal. simpl. apply except_by_spec_id.
    + rewrite Hout. apply except_by_spec_NoDup.
    + intros x Hx. split; [|apply not_elem_of_nil].
      assert (key x ∈ key <$> out) as Hk
        by (apply list_elem_of_fmap; by exists x).
      rewrite Hout in Hk. apply except_by_spec_keys in Hk. tauto.
  - unfold distinct_by.
    pose proof (except_by_materialize (FromList out) (FromList []) key w' k1 k2)
      as E.
    unfold elements_of in E. cbn [iter_ content length fmap list_fmap] in E.
    rewrite Nat.add_0_r in E. rewrite E.
    f_equal. apply except_by_spec_id.
    + rewrite Hout. apply except_by_spec_NoDup.
    + intros x Hx. split; apply not_elem_of_nil.
Qed.

Lemma eb_filter_nil (key : A → K) s xs :
  eb_filter key s xs = [] → ∀ z, z ∈ xs → key z ∈ s.
Proof.
  induction xs as [|x l IH]; simpl; intros E z Hz.
  - by apply elem_of_nil in Hz.
  - destruct (decide (key x ∈ s)) as [Hin|Hin]; [|done].
    apply elem_of_cons in Hz as [->|Hz]; [done|by apply IH].
Qed.

Lemma eb_filter_first (key : A → K) s xs y rest :
  eb_filter key s xs = y :: rest →
  ∃ skipped xs', xs = skipped ++ y :: xs'
    ∧ (∀ z, z ∈ skipped → key z ∈ s) ∧ (key y ∉ s)
    ∧ rest = eb_filter key ({[key y]} ∪ s) xs'.
Proof.
  induction xs as [|x l IH]; simpl; intros E; [done|].
  destruct (decide (key x ∈ s)) as [Hin|Hin].
  - destruct (IH E) as (sk & xs' & -> & Hsk & Hy & Hr).
    exists (x :: sk), xs'. split_and!; try done.
    intros z [->|Hz]%elem_of_cons; [done|by apply Hsk].
  - injection E as -> <-. exists [], l. split_and!; try done.
    intros z Hz. by apply elem_of_nil in Hz.
Qed.

Lemma eb_loop_step (key : A → K) (g : eb_frame (A:=A) (K:=K)) x post :
  eb_key_selector g = (λ x, Returns (key x)) →
  ∀ skipped r w s fuel,
  content (SharedIter r) w = skipped ++ x :: post →
  (∀ y, y ∈ skipped → key y ∈ s) → key x ∉ s →
  length skipped < fuel →
  ∃ w',
    eb_loop fuel g s (SharedIter r) w
    = (Ok (Some x, eb_goto g (EbYielded ({[key x]} ∪ s) (SharedIter r))), w')
    ∧ content (SharedIter r) w' = post
    ∧ (∀ r', r' ≠ r → heap w' !! r' = heap w !! r').
Proof.
  intros Hk. induction skipped as [|y sk IH]; intros r w s fuel Hc Hsk Hx Hf.
  - destruct fuel as [|fuel]; [simpl in Hf; lia|]. simpl. munfold.
    destruct (pull_cons _ _ _ _ Hc) as (it' & w1 & -> & Hc1 & _ & _ & Hfr & _ & Hit).
    rewrite (Hit r eq_refl) in *. rewrite Hk. simpl.
    rewrite decide_False by done. eexists. split; [done|]. simpl.
    split; [done|]. intros r' Hr'. apply Hfr. congruence.
  - destruct fuel as [|fuel]; [simpl in Hf; lia|]. simpl. munfold.
    destruct (pull_cons _ _ _ _ Hc) as (it' & w1 & -> & Hc1 & _ & _ & Hfr & _ & Hit).
    rewrite (Hit r eq_refl) in *. rewrite Hk. simpl.
    rewrite decide_True by (apply Hsk; left).
    destruct (IH r (log (Called y) w1) s fuel) as (w2 & E & Hc2 & Hfr2).
    { done. } { intros z Hz. apply Hsk. by right. } { done. }
    { simpl in Hf. lia. }
    exists w2. split; [exact E|]. split; [done|].
    intros r' Hr'. rewrite Hfr2 by done. simpl. apply Hfr. congruence.
Qed.

Lemma eb_run_prefix (key : A → K) x post :
  ∀ n (g : eb_frame (A:=A) (K:=K)) pre r w s fuel,
  eb_key_selector g = (λ x, Returns (key x)) →
  content (SharedIter r) w = pre ++ x :: post →
  length (eb_filter key s pre) = n →
  key x ∉ s → (key x ∉ key <$> pre) →
  length pre < fuel →
  ∃ y g' w1 tl w',
    eb_loop fuel g s (SharedIter r) w = (Ok (Some y, g'), w1)
    ∧ traverse fuel n g' w1 = (tl, Cut, w')
    ∧ y :: tl = eb_filter key s pre ++ [x]
    ∧ content (SharedIter r) w' = post
    ∧ (∀ r', r' ≠ r → heap w' !! r' = heap w !! r').
Proof.
  induction n as [|n IH]; intros g pre r w s fuel Hk Hc Hn Hx Hxp Hf.
  - apply nil_length_inv in Hn.
    destruct (eb_loop_step key g x post Hk
                pre r w s fuel Hc (eb_filter_nil key s pre Hn) Hx Hf)
      as (w1 & E & Hc1 & Hfr).
    rewrite Hn. eexists _, _, w1, [], w1. by split_and!.
  - destruct (eb_filter key s pre) as [|y rest] eqn:Ef; [done|].
    destruct (eb_filter_first key s pre y rest Ef)
      as (sk & pre' & -> & Hsk & Hy & ->).
    rewrite <- app_assoc in Hc. simpl in Hc.
    destruct (eb_loop_step key g y (pre' ++ x :: post) Hk sk r w s fuel Hc Hsk Hy)
      as (w1 & E & Hc1 & Hfr).
    { rewrite length_app in Hf. lia. }
    rewrite fmap_app, fmap_cons, elem_of_app, elem_of_cons in Hxp.
    set (g' := eb_goto g (EbYielded ({[key y]} ∪ s) (SharedIter r))) in *.
    destruct (IH g' pre' r w1 ({[key y]} ∪ s) fuel)
      as (y2 & g2 & w2 & tl2 & w3 & E2 & E3 & Etl & Hc3 & Hfr3).
    { exact Hk. } { done. } { simpl in Hn. lia. }
    { rewrite elem_of_union, elem_of_singleton. tauto. } { tauto. }
    { rewrite length_app in Hf. simpl in Hf. lia. }
    exists y, g', w1, (y2 :: tl2), w3. split; [exact E|]. split.
    + change (traverse fuel (S n) g' w1)
        with (match next_ fuel g' w1 with
              | (Yield x, g', w') =>
                  let '(xs, e, w'') := traverse fuel n g' w' in (x :: xs, e, w'')
              | (Stop, _, w') => ([], Exhausted, w')
              | (Fault f, _, w') => ([], Faulted f, w')
              | (Unfinished, _, w') => ([], Cut, w')
              end).
      unfold next_.
      change (resume fuel g' w1)
        with (eb_loop fuel g' ({[key y]} ∪ s) (SharedIter r) w1).
      rewrite E2. by rewrite E3.
    + split; [simpl; by rewrite Etl|]. split; [done|].
      intros r' Hr'. rewrite Hfr3 by done. by apply Hfr.
Qed.

Lemma exhaust_lookup_ne (it : iterator A) w r :
  SharedIter r ≠ it → exhaust it w !! r = heap w !! r.
Proof.
  destruct it as [l|r2]; simpl; [done|]. intros Hne.
  destruct (heap w !! r2) as [[|y l]|]; [done| |done].
  apply lookup_insert_ne. congruence.
Qed.

Lemma exhaust_content (it : iterator A) w w1 :
  heap w1 = exhaust it w →
  content it w1 = match it with ListIter l => l | SharedIter _ => [] end.
Proof.
  intros Hh. destruct it as [l|r]; simpl in *; [done|]. rewrite Hh.
  destruct (heap w !! r) as [[|y l]|] eqn:E; [by rewrite E| |by rewrite E].
  by rewrite lookup_insert_eq.
Qed.

(** X10. [except_by] does not read ahead: a consumer that stops after an
    element [x] was yielded leaves a one-shot source at the element after
    [x].  By then [second] was read to its end: a one-shot [second] is
    left exhausted. *)
Theorem except_by_never_reads_ahead
    (r : nat) (second : iterable A) (key : A → K) pre (x : A) post w (k : nat) :
  second ≠ FromIter r →
  elements_of (FromIter r) w = pre ++ x :: post →
  (key x ∉ key <$> elements_of second w) →
  (key x ∉ key <$> pre) →
  let outs := except_by_spec key (key <$> elements_of second w) [] pre in
  let res :=
    materialize (S (length pre + length (elements_of second w)) + k)
      (S (length outs))
      (except_by (FromIter r) second (λ x, Returns (key x))) w in
  res.1 = (outs ++ [x], Cut)
  ∧ elements_of (FromIter r) res.2 = post
  ∧ elements_of second res.2
    = match second with FromList l => l | FromIter _ => [] end.
Proof.
  intros Hne Hc Hx Hxp outs res. unfold res, outs, elements_of in *.
  set (ys := content (iter_ second) w) in *.
  unfold materialize, except_by. munfold. cbn -[traverse].
  set (keyf := λ x, Returns (key x)).
  set (g := EbFrame (FromIter r) second keyf EbStart).
  assert (∃ fuel, fuel = S (length pre + length ys + k)) as [fuel Hfuel]
    by by eexists.
  rewrite <- Hfuel.
  destruct (for_in_neutral
              (λ x s, mbind (λ key0, mret ({[key0]} ∪ s)) (call keyf x))
              (λ x s, {[key x]} ∪ s) ys) with (it := iter_ second) (w := w)
              (acc := (∅ : gset K)) (fuel := fuel) as (w1 & E1 & Hh1).
  { intros x0 acc w0. munfold. simpl. by eexists. }
  { done. } { lia. }
  set (s := foldl (λ a x0, {[key x0]} ∪ a) ∅ ys) in *.
  assert (Hs : ∀ k, k ∈ s ↔ k ∈ key <$> ys ∨ k ∈ key <$> ([] : list A)).
  { intros k0. unfold s. rewrite seen_keys_elem_of, elem_of_empty. simpl.
    rewrite elem_of_nil. tauto. }
  assert (Hc1 : content (SharedIter r) w1 = pre ++ x :: post).
  { simpl. rewrite Hh1, exhaust_lookup_ne; [done|].
    destruct second; simpl; congruence. }
  destruct (eb_run_prefix key x post (length (eb_filter key s pre)) g pre r w1 s fuel)
    as (y & g' & w2 & tl & w3 & E2 & E3 & Etl & Hc3 & Hfr); [done|done|done| |done|lia|].
  { rewrite Hs. simpl. rewrite elem_of_nil. tauto. }
  rewrite <- (eb_filter_spec key (key <$> ys) pre s [] Hs).
  change (traverse fuel (S (length (eb_filter key s pre))) g w)
    with (match next_ fuel g w with
          | (Yield x, g', w') =>
              let '(xs, e, w'') := traverse fuel (length (eb_filter key s pre)) g' w'
              in (x :: xs, e, w'')
          | (Stop, _, w') => ([], Exhausted, w')
          | (Fault f, _, w') => ([], Faulted f, w')
          | (Unfinished, _, w') => ([], Cut, w')
          end).
  unfold next_.
  change (resume fuel g w)
    with ((s0 ← for_in fuel (iter_ second)
             (λ x s, key ← call keyf x; mret ({[key]} ∪ s)) ∅;
           eb_loop fuel g s0 (SharedIter r)) w).
  munfold. rewrite E1, E2, E3. cbn. rewrite <- Etl. split; [done|].
  split; [done|].
  destruct second as [l|r2]; simpl; [done|].
  rewrite Hfr by congruence.
  pose proof (exhaust_content (SharedIter r2) w w1 Hh1) as Hex. simpl in Hex.
  exact Hex.
Qed.
End ExceptByMore.

Lemma except_by_identity_witness :
  (materialize 5 3
     (except_by (FromList [1; 2]%Z) (FromList [3; 3]%Z) (λ x : Z, Returns x))
     (World ∅ [])).1
  = ([1; 2]%Z, Exhausted).
Proof.
  apply (except_by_of_distinct_new_keys_is_identity
           (FromList [1; 2]%Z) (FromList [3; 3]%Z) (λ x : Z, x) (World ∅ []) 0 0).
  - simpl. repeat constructor; rewrite ?elem_of_cons, ?elem_of_nil;
      intuition discriminate.
  - intros x Hx Hy. cbn in Hx, Hy. rewrite !elem_of_cons, ?elem_of_nil in Hx, Hy.
    destruct Hx as [->|[->|[]]]; intuition discriminate.
Defined.

Lemma except_by_never_reads_ahead_witness :
  (materialize 3 2
     (except_by (FromIter 0) (FromList []) (λ x : Z, Returns x))
     (World {[0 := [1; 1; 2; 3]%Z]} [])).1
  = ([1; 2]%Z, Cut)
  ∧ elements_of (FromIter 0)
      (materialize 3 2
         (except_by (FromIter 0) (FromList []) (λ x : Z, Returns x))
         (World {[0 := [1; 1; 2; 3]%Z]} [])).2
    = [3]%Z
  ∧ elements_of (FromList [])
      (materialize 3 2
         (except_by (FromIter 0) (FromList []) (λ x : Z, Returns x))
         (World {[0 := [1; 1; 2; 3]%Z]} [])).2
    = [].
Proof.
  assert (H1 : FromList [] ≠ FromIter (A:=Z) 0) by done.
  assert (H2 : elements_of (FromIter 0) (World {[0 := [1; 1; 2; 3]%Z]} [])
               = [1; 1]%Z ++ 2%Z :: [3]%Z) by reflexivity.
  assert (H3 : 2%Z ∉ (λ x : Z, x) <$>
                 elements_of (FromList []) (World {[0 := [1; 1; 2; 3]%Z]} [])).
  { simpl. apply not_elem_of_nil. }
  assert (H4 : 2%Z ∉ (λ x : Z, x) <$> [1; 1]%Z).
  { simpl. rewrite !elem_of_cons, elem_of_nil. intuition discriminate. }
  exact (except_by_never_reads_ahead 0 (FromList []) (λ x : Z, x)
           [1; 1]%Z 2%Z [3]%Z (World {[0 := [1; 1; 2; 3]%Z]} []) 0 H1 H2 H3 H4).
Defined.

(* ===================================================================== *)
(** ** [flatten2], [flatten]: elements that are not descended into *)
(* ===================================================================== *)

Section Flatten2More.
Context {A : Type}.
Implicit Types (w : world A) (xs : list A).

Lemma f2_traverse_rejected (g : f2_frame (A:=A)) :
  ∀ N xs pc it w fuel,
  (pc = F2Start ∧ it = iter_ (f2_self g)) ∨ pc = F2Yielded [] it →
  (∀ y, y ∈ xs → f2_selector g y = Returns None) →
  content it w = xs → length xs < N →
  ∃ w', traverse (S fuel) N (f2_goto g pc) w = (xs, Exhausted, w')
      ∧ heap w' = exhaust it w.
Proof.
  induction N as [|N IH]; intros xs pc it w fuel Hpc Hxs Hc HN; [lia|].
  cbn [traverse]. unfold next_.
  assert (resume (S fuel) (f2_goto g pc) w
          = f2_loop (S fuel) (f2_goto g pc) [] it w) as ->.
  { by destruct Hpc as [[-> ->]| ->]. }
  simpl. munfold.
  destruct xs as [|x xs].
  - rewrite (pull_nil _ _ Hc). eexists. split; [done|]. simpl.
    by rewrite exhaust_nil.
  - destruct (pull_cons _ _ _ _ Hc) as (it' & w1 & E & Hc1 & He1 & _).
    rewrite E. rewrite (Hxs x) by left. simpl.
    destruct (IH xs (F2Yielded [] it') it' (log (Called x) w1) fuel)
      as (w2 & E2 & Hh2).
    { by right. }
    { intros y Hy. apply Hxs. by right. }
    { by rewrite content_log. } { simpl in HN. lia. }
    unfold f2_goto in E2 |- *. simpl in E2 |- *. rewrite E2.
    exists w2. split; [done|]. by rewrite Hh2, exhaust_log.
Qed.

Lemma f2_materialize_rejected
    (self : iterable A) (selector : A → returns (option (iterable A)))
    w (fuel k : nat) :
  (∀ y, y ∈ elements_of self w → selector y = Returns None) →
  ∃ w', materialize (S fuel) (S (length (elements_of self w)) + k)
          (flatten2 self selector) w
        = (elements_of self w, Exhausted, w')
      ∧ heap w' = exhaust (iter_ self) w.
Proof.
  intros Hxs. unfold materialize, flatten2. munfold.
  set (g := F2Frame self selector F2Start).
  destruct (f2_traverse_rejected g (S (length (elements_of self w)) + k)
              (elements_of self w) F2Start (iter_ self) w fuel)
    as (w' & E & Hh); [by left|done|done|lia|].
  change (f2_goto g F2Start) with g in E.
  change (factory (MoreEnumerable (λ _ : (), g)) ()) with g. by exists w'.
Qed.

(** X11. [flatten2] yields the elements its selector maps to [None] as
    they are: over a source the selector rejects throughout, one-shot
    sources included, the traversal gives the source elements in order and
    leaves the source exhausted. *)
Theorem flatten2_yields_what_the_selector_rejects
    (self : iterable A) (selector : A → returns (option (iterable A)))
    w (fuel k : nat) :
  let xs := elements_of self w in
  (∀ y, y ∈ xs → selector y = Returns None) →
  let res := materialize (S fuel) (S (length xs) + k) (flatten2 self selector) w in
  res.1 = (xs, Exhausted) ∧ heap res.2 = exhaust (iter_ self) w.
Proof.
  intros xs Hxs res. unfold res, xs.
  destruct (f2_materialize_rejected self selector w fuel k Hxs) as (w' & -> & Hh).
  done.
Qed.
End Flatten2More.

Lemma flatten2_rejected_witness :
  (materialize 1 4
     (flatten2 (FromIter 0) (λ _ : Z, Returns None))
     (World {[0 := [1; 2; 3]%Z]} [])).1
  = ([1; 2; 3]%Z, Exhausted)
  ∧ heap (materialize 1 4
            (flatten2 (FromIter 0) (λ _ : Z, Returns None))
            (World {[0 := [1; 2; 3]%Z]} [])).2
    = exhaust (SharedIter 0) (World {[0 := [1; 2; 3]%Z]} []).
Proof.
  exact (flatten2_yields_what_the_selector_rejects (FromIter 0)
           (λ _ : Z, Returns None) (World {[0 := [1; 2; 3]%Z]} []) 0 0
           (λ y _, eq_refl)).
Defined.

Section FlattenMore.
Implicit Types (w : world obj) (src : list obj).

(** X12. [flatten(predicate)] asks the predicate about iterable elements
    only: over a source whose elements are not iterable or are rejected by
    the predicate, the traversal gives the source elements in order,
    whatever the predicate would do on the elements that are not
    iterable. *)
Theorem flatten_consults_predicate_on_iterables_only
    (self : iterable obj) (predicate : obj → returns bool) w (fuel k : nat) :
  let xs := elements_of self w in
  (∀ y, y ∈ xs → isinstance_Iterable y = false ∨ predicate y = Returns false) →
  (materialize (S fuel) (S (length xs) + k) (flatten self [predicate]) w).1
  = (xs, Exhausted).
Proof.
  intros xs Hxs. unfold flatten, xs in *. clear xs.
  destruct (f2_materialize_rejected self (flatten_selector predicate) w fuel k)
    as (w' & -> & _); [|done].
  intros y Hy. unfold flatten_selector.
  destruct (Hxs y Hy) as [->| ->]; [done|]. by destruct (isinstance_Iterable y).
Qed.

Lemma f2_loop_descends_forever (g : f2_frame (A:=obj)) :
  f2_selector g = flatten_selector (λ _, Returns true) →
  ∀ fuel stack c s rest w,
  (f2_loop fuel g stack (ListIter (PyStr (String.String c s) :: rest)) w).1
  = OutOfFuel.
Proof.
  intros Hsel. induction fuel as [|fuel IH]; intros stack c s rest w; [done|].
  simpl. munfold. rewrite Hsel. simpl. apply IH.
Qed.

Lemma f2_loop_descends_into_strings (g : f2_frame (A:=obj))
    (predicate : obj → returns bool) :
  f2_selector g = flatten_selector predicate →
  (∀ s, predicate (PyStr s) = Returns true) →
  ∀ fuel stack c s rest w,
  (f2_loop fuel g stack (ListIter (PyStr (String.String c s) :: rest)) w).1
  = OutOfFuel.
Proof.
  intros Hsel Hp. induction fuel as [|fuel IH]; intros stack c s rest w; [done|].
  simpl. munfold. rewrite Hsel. unfold flatten_selector. simpl.
  rewrite Hp. simpl. apply IH.
Qed.

(** X13. With a predicate that accepts strings, [flatten] never gets past a
    string that is not empty: iterating a string gives strings again, so
    the loop of [flatten2] descends without end and yields nothing,
    whatever the number of steps it is given.  This holds of the predicate
    that accepts everything and of every predicate that accepts the
    strings, over a receiver that is a list or an iterator object. *)
Theorem flatten_with_predicate_accepting_strings_never_yields
    (c : Ascii.ascii) (s : String.string) src w (fuel n : nat) :
  (materialize fuel n
     (flatten (FromList (PyStr (String.String c s) :: src)) [λ _, Returns true])
     w).1
  = ([], Cut)
  ∧ (∀ (self : iterable obj) (predicate : obj → returns bool),
       elements_of self w = PyStr (String.String c s) :: src →
       (∀ s', predicate (PyStr s') = Returns true) →
       (materialize fuel n (flatten self [predicate]) w).1 = ([], Cut)).
Proof.
  split.
  - unfold materialize, flatten, flatten2. munfold.
    destruct n as [|n]; [done|]. cbn [traverse]. unfold next_.
    set (g := F2Frame _ _ F2Start).
    change (factory (MoreEnumerable (λ _ : (), g)) ()) with g.
    change (resume fuel g w)
      with (f2_loop fuel g [] (ListIter (PyStr (String.String c s) :: src)) w).
    pose proof (f2_loop_descends_forever g eq_refl fuel [] c s src w) as E.
    destruct (f2_loop fuel g [] _ w) as [r w1]. simpl in E. by rewrite E.
  - intros self predicate Hel Hp.
    unfold materialize, flatten, flatten2. munfold.
    destruct n as [|n]; [done|]. cbn [traverse]. unfold next_.
    set (g := F2Frame _ _ F2Start).
    change (factory (MoreEnumerable (λ _ : (), g)) ()) with g.
    change (resume fuel g w) with (f2_loop fuel g [] (iter_ self) w).
    destruct fuel as [|fuel]; [done|].
    simpl. munfold.
    destruct (pull_cons _ _ _ _ Hel) as (it' & w1 & -> & _).
    unfold flatten_selector. simpl. rewrite Hp. simpl.
    pose proof (f2_loop_descends_into_strings g predicate eq_refl Hp fuel [it']
                  c String.EmptyString
                  (map (λ c0, PyStr (String.String c0 String.EmptyString))
                     (String.list_ascii_of_string s))
                  (log (Called (PyStr (String.String c s))) w1)) as E.
    destruct (f2_loop fuel g [it'] _ _) as [r w2]. simpl in E. by rewrite E.
Qed.
End FlattenMore.

Lemma flatten_predicate_witness :
  (materialize 1 3
     (flatten (FromList [PyInt 1; PyList [PyInt 2]])
        [λ x, match x with PyInt _ => Raises (PyError 0) | _ => Returns false end])
     (World ∅ [])).1
  = ([PyInt 1; PyList [PyInt 2]], Exhausted).
Proof.
  apply (flatten_consults_predicate_on_iterables_only
           (FromList [PyInt 1; PyList [PyInt 2]])
           (λ x, match x with PyInt _ => Raises (PyError 0) | _ => Returns false end)
           (World ∅ []) 0 0).
  intros y Hy. cbn in Hy. rewrite !elem_of_cons, elem_of_nil in Hy.
  destruct Hy as [->|[->|[]]]; [by left|by right].
Defined.

(* ===================================================================== *)
(** ** [traverse_breath_first] *)
(* ===================================================================== *)

Section BreadthFirstFacts.
Context {V : Type}.
Implicit Types (t : tree V) (queue forest : list (tree V)) (w : world (tree V)).

Lemma for_in_append (cs : list (tree V)) fuel queue w :
  length cs < fuel →
  ∃ w', for_in fuel (ListIter cs) (λ child queue, mret (queue ++ [child])) queue w
        = (Ok (queue ++ cs), w').
Proof.
  intros Hf.
  destruct (for_in_neutral (λ x acc, mret (acc ++ [x])) (λ x acc, acc ++ [x]) cs)
    with (it := ListIter cs) (w := w) (acc := queue) (fuel := fuel)
    as (w' & E & Hh); [|done|done|].
  { intros x acc w0. by eexists. }
  exists w'. rewrite E. do 2 f_equal.
  clear. revert queue. induction cs as [|x l IH]; intros acc; simpl;
    [by rewrite app_nil_r|].
  by rewrite IH, <- app_assoc.
Qed.

Lemma level_order_nil n : level_order n ([] : list (tree V)) = [].
Proof. induction n as [|n IH]; [done|]. simpl. exact IH. Qed.

Lemma nodes_of_children forest :
  length (concat (map preorder (concat (map children forest)))) + length forest
  = length (concat (map preorder forest)).
Proof.
  induction forest as [|t forest IH]; [done|].
  cbn [map concat]. rewrite map_app, concat_app, !length_app.
  rewrite (preorder_unfold t). simpl. lia.
Qed.

Lemma level_order_shift n :
  ∀ xs ys : list (tree V),
  length (concat (map preorder (xs ++ ys))) ≤ n →
  level_order n (xs ++ ys) = xs ++ level_order n (ys ++ concat (map children xs)).
Proof.
  induction n as [|n IH]; intros xs ys Hn.
  - pose proof (nodes_of_children (xs ++ ys)) as Hs.
    assert (length (xs ++ ys) = 0) as Hl by lia.
    rewrite length_app in Hl. by destruct xs.
  - cbn [level_order]. rewrite !map_app, !concat_app, <- !app_assoc.
    do 2 f_equal. apply IH. rewrite <- concat_app, <- map_app.
    pose proof (nodes_of_children (xs ++ ys)) as Hs.
    destruct (xs ++ ys) as [|t l]; [simpl; lia|cbn [length] in Hs; lia].
Qed.

Lemma level_order_enough n m forest :
  length (concat (map preorder forest)) ≤ n →
  length (concat (map preorder forest)) ≤ m →
  level_order n forest = level_order m forest.
Proof.
  revert m forest. induction n as [|n IH]; intros m forest Hn Hm.
  - pose proof (nodes_of_children forest) as Hs.
    destruct forest; [by rewrite !level_order_nil|cbn [length] in Hs; lia].
  - destruct forest as [|t l]; [by rewrite !level_order_nil|].
    pose proof (nodes_of_children (t :: l)) as Hs. cbn [length] in Hs.
    destruct m as [|m]; [lia|].
    cbn [level_order]. f_equal. apply IH; lia.
Qed.

Lemma nodes_by_level forest :
  concat (map preorder forest)
  ≡ₚ forest ++ concat (map preorder (concat (map children forest))).
Proof.
  induction forest as [|t forest IH]; [done|].
  cbn [map concat]. rewrite map_app, concat_app, (preorder_unfold t).
  simpl. constructor. rewrite IH.
  rewrite !app_assoc. apply Permutation_app_tail, Permutation_app_comm.
Qed.

Lemma level_order_Permutation n forest :
  length (concat (map preorder forest)) ≤ n →
  level_order n forest ≡ₚ concat (map preorder forest).
Proof.
  revert forest. induction n as [|n IH]; intros forest Hn.
  - pose proof (nodes_of_children forest) as Hs.
    destruct forest; [done|cbn [length] in Hs; lia].
  - cbn [level_order]. rewrite (nodes_by_level forest).
    apply Permutation_app_head, IH.
    pose proof (nodes_of_children forest) as Hs.
    destruct forest; [simpl; lia|cbn [length] in Hs; lia].
Qed.

Lemma bf_traverse (g : bf_frame (A:=tree V)) :
  bf_children_selector g = children_of →
  ∀ N elem queue w fuel n,
  length (concat (map preorder (elem :: queue))) < fuel →
  length (concat (map preorder (queue ++ children elem))) < N →
  length (concat (map preorder (queue ++ children elem))) ≤ n →
  ∃ w', traverse fuel N (bf_goto g (TrYielded elem queue)) w
        = (level_order n (queue ++ children elem), Exhausted, w').
Proof.
  intros Hsel. induction N as [|N IH]; intros elem queue w fuel n Hf HN Hn; [lia|].
  simpl. unfold next_. simpl. unfold bf_resume. simpl. rewrite Hsel.
  destruct (for_in_append (children elem) fuel queue (log (Called elem) w))
    as (w1 & E1).
  { pose proof (children_length elem). simpl in Hf. rewrite length_app in Hf. lia. }
  munfold. unfold children_of at 1. simpl. rewrite E1.
  assert (Hsize : length (concat (map preorder (queue ++ children elem))) + 1
                  = length (concat (map preorder (elem :: queue)))).
  { cbn [map concat]. rewrite map_app, concat_app, !length_app.
    rewrite (preorder_unfold elem). simpl. lia. }
  destruct (queue ++ children elem) as [|c rest] eqn:E; simpl.
  - exists w1. by rewrite level_order_nil.
  - assert (Hc : length (concat (map preorder (rest ++ children c))) + 1
                 = length (concat (map preorder (c :: rest)))).
    { cbn [map concat]. rewrite map_app, concat_app, !length_app.
      rewrite (preorder_unfold c). simpl. lia. }
    destruct (IH c rest w1 fuel n) as (w2 & E2); [lia..|].
    unfold bf_goto in E2 |- *. simpl in E2 |- *. rewrite E2.
    exists w2. do 2 f_equal.
    pose proof (level_order_shift n [c] rest) as Hshift.
    cbn [app map concat] in Hshift. rewrite app_nil_r in Hshift.
    symmetry. apply Hshift. exact Hn.
Qed.

Lemma bf_materialize (root : tree V) w k1 k2 :
  (materialize (S (length (preorder root)) + k1) (S (length (preorder root)) + k2)
     (traverse_breath_first root children_of) w).1
  = (breadth_first root, Exhausted).
Proof.
  unfold materialize, traverse_breath_first. munfold.
  change (S (length (preorder root)) + k2)
    with (S (length (preorder root) + k2)).
  remember (S (length (preorder root)) + k1) as fuel eqn:Hfuel.
  remember (length (preorder root) + k2) as N eqn:HN.
  simpl. unfold next_. simpl.
  set (g := BfFrame root children_of TrStart).
  assert (Hsize : length (concat (map preorder (children root))) + 1
                  = length (preorder root)).
  { rewrite (preorder_unfold root). simpl. lia. }
  destruct (bf_traverse g eq_refl N root [] w fuel (length (preorder root)))
    as (w' & E).
  { simpl. rewrite app_nil_r. lia. }
  { simpl. lia. } { simpl. lia. }
  rewrite E. simpl. unfold breadth_first.
  pose proof (level_order_shift (length (preorder root)) [root] []) as Hshift.
  cbn [app map concat] in Hshift. rewrite !app_nil_r in Hshift.
  rewrite Hshift by lia. done.
Qed.

Lemma df_materialize (root : tree V) w k1 k2 :
  (materialize (S (length (preorder root)) + k1) (S (length (preorder root)) + k2)
     (traverse_depth_first root children_of) w).1
  = (preorder root, Exhausted).
Proof.
  unfold materialize, traverse_depth_first. munfold.
  change (S (length (preorder root)) + k2)
    with (S (length (preorder root) + k2)).
  remember (S (length (preorder root)) + k1) as fuel eqn:Hfuel.
  remember (length (preorder root) + k2) as N eqn:HN.
  simpl. unfold next_. simpl.
  set (g := DfFrame root children_of TrStart).
  destruct (df_traverse g eq_refl N root [] w fuel) as (w' & E).
  { simpl. rewrite app_nil_r. lia. }
  { rewrite app_nil_r, HN, (preorder_unfold root). simpl. lia. }
  rewrite E. simpl.
  by rewrite app_nil_r, (preorder_unfold root).
Qed.

End BreadthFirstFacts.

(* ===================================================================== *)
(** ** Both traversals: children handed over as iterator objects *)
(* ===================================================================== *)

Section TraversalShared.
Context {A : Type}.
Variable children_selector : A → returns (iterable A).
Implicit Types (t : tree A) (rest forest : list (tree A)) (w : world A).

Lemma shows_reaches w forest :
  shows children_selector w forest → reaches children_selector w forest.
Proof.
  intros Hsh n Hn src Hsrc. destruct (Hsh n Hn) as (src' & Hsel & Hel).
  rewrite Hsrc in Hsel. by injection Hsel as ->.
Qed.

Lemma no_fault_nodes (nodes : list (tree A)) :
  (∀ n, n ∈ nodes → ∃ src, children_selector (label n) = Returns src) →
  up_to_first (raises_on children_selector) nodes = nodes
  ∧ first_fault children_selector nodes = None.
Proof.
  induction nodes as [|n nodes IH]; intros Hall; [done|].
  destruct (Hall n) as [src Hsrc]; [left|].
  destruct IH as [IH1 IH2]; [intros m Hm; apply Hall; by right|].
  simpl. unfold raises_on at 1. by rewrite Hsrc, IH1, IH2.
Qed.

Lemma shows_no_fault w forest :
  shows children_selector w forest →
  up_to_first (raises_on children_selector) (concat (map preorder forest))
  = concat (map preorder forest)
  ∧ first_fault children_selector (concat (map preorder forest)) = None.
Proof.
  intros Hsh. apply no_fault_nodes. intros n Hn.
  destruct (Hsh n Hn) as (src & Hsel & _). by exists src.
Qed.

Lemma upto_cons t (nodes : list (tree A)) :
  (up_to_first (raises_on children_selector) (t :: nodes),
   first_fault children_selector (t :: nodes))
  = match children_selector (label t) with
    | Raises e => ([t], Some e)
    | Returns _ =>
        (t :: up_to_first (raises_on children_selector) nodes,
         first_fault children_selector nodes)
    end.
Proof. simpl. unfold raises_on at 1. by destruct (children_selector (label t)). Qed.

Lemma reaches_after w w' t rest src :
  reaches children_selector w (t :: rest) →
  NoDup (child_regs children_selector (concat (map preorder (t :: rest)))) →
  children_selector (label t) = Returns src →
  same_but (reg_of src) w w' →
  reaches children_selector w' (children t ++ rest)
  ∧ NoDup (child_regs children_selector
             (concat (map preorder (children t ++ rest)))).
Proof.
  intros Hre Hnd Hsrc Hw. rewrite nodes_cons in Hnd.
  rewrite (child_regs_cons _ _ _ src Hsrc) in Hnd. split.
  - intros n Hn src' Hsel.
    rewrite <- (Hre n (ltac:(rewrite nodes_cons; by right)) src' Hsel).
    apply (elements_same_but (reg_of src)); [done|].
    intros r Hr Heq. rewrite <- Heq in Hnd. apply NoDup_cons in Hnd as [Hnin _].
    apply Hnin. unfold child_regs. apply list_elem_of_omap.
    exists n. split; [done|]. by rewrite Hsel.
  - destruct (reg_of src); [by apply NoDup_cons in Hnd as [_ ?]|done].
Qed.

Lemma reaches_swap w forest1 forest2 :
  reaches children_selector w (forest1 ++ forest2)
  ∧ NoDup (child_regs children_selector
             (concat (map preorder (forest1 ++ forest2)))) →
  reaches children_selector w (forest2 ++ forest1)
  ∧ NoDup (child_regs children_selector
             (concat (map preorder (forest2 ++ forest1)))).
Proof.
  intros [Hre Hnd]. split.
  - intros n Hn. apply Hre. rewrite map_app, concat_app in Hn |- *.
    apply elem_of_app in Hn. apply elem_of_app. tauto.
  - revert Hnd. apply NoDup_Permutation_proper.
    rewrite !map_app, !concat_app. unfold child_regs. rewrite !omap_app.
    apply Permutation_app_comm.
Qed.

Lemma children_count t :
  length (children t) ≤ length (concat (map preorder (children t))).
Proof.
  induction (children t) as [|c cs IHc]; simpl; [lia|].
  rewrite length_app, (preorder_unfold c). simpl. lia.
Qed.

Lemma for_in_append_shared (src : iterable A) fuel (queue : list A) w :
  length (elements_of src w) < fuel →
  ∃ w', for_in fuel (iter_ src) (λ child queue, mret (queue ++ [child])) queue w
        = (Ok (queue ++ elements_of src w), w')
      ∧ same_but (reg_of src) w w'.
Proof.
  intros Hf. unfold elements_of in *.
  destruct (for_in_neutral (λ x acc, mret (acc ++ [x])) (λ x acc, acc ++ [x])
              (content (iter_ src) w))
    with (it := iter_ src) (w := w) (acc := queue) (fuel := fuel)
    as (w' & E & Hh); [|done|done|].
  { intros x acc w0. by eexists. }
  exists w'. split.
  - rewrite E. do 2 f_equal.
    generalize (content (iter_ src) w). intros l.
    assert (∀ acc : list A, foldl (λ a x, a ++ [x]) acc l = acc ++ l) as ->; [|done].
    induction l as [|x l IH]; intros acc; simpl; [by rewrite app_nil_r|].
    by rewrite IH, <- app_assoc.
  - rewrite <- reg_it_iter. by apply exhaust_same_but.
Qed.

Lemma df_traverse_reaches (g : df_frame (A:=A)) :
  df_children_selector g = children_selector →
  ∀ N t rest w fuel,
  reaches children_selector w (t :: rest) →
  NoDup (child_regs children_selector (concat (map preorder (t :: rest)))) →
  length (concat (map preorder (t :: rest))) < fuel →
  length (concat (map preorder (children t ++ rest))) < N →
  (traverse fuel N (df_goto g (TrYielded (label t) (label <$> rest))) w).1
  = match children_selector (label t) with
    | Raises e => ([], Faulted (leave_generator (UserCallbackFault e)))
    | Returns _ =>
        (label <$> up_to_first (raises_on children_selector)
                     (concat (map preorder (children t ++ rest))),
         ending_of (first_fault children_selector
                      (concat (map preorder (children t ++ rest)))))
    end.
Proof.
  intros Hsel. induction N as [|N IH]; intros t rest w fuel Hre Hnd Hf HN; [lia|].
  simpl. unfold next_. simpl. unfold df_resume. simpl. rewrite Hsel.
  destruct (children_selector (label t)) as [src|e] eqn:Esel;
    [|munfold; by rewrite Esel].
  assert (Hel : elements_of src w = label <$> children t).
  { apply (Hre t); [rewrite nodes_cons; left|done]. }
  destruct (unpack_shared src fuel (log (Called (label t)) w)) as (w1 & E1 & Hw1).
  { unfold elements_of in *. rewrite content_log, Hel, length_fmap.
    rewrite nodes_cons in Hf. cbn [length] in Hf.
    rewrite map_app, concat_app, length_app in Hf.
    pose proof (children_count t). lia. }
  munfold. rewrite Esel. simpl. rewrite E1.
  unfold elements_of in E1 |- *. rewrite content_log.
  fold (elements_of src w). rewrite Hel.
  rewrite push_reversed_labels, <- fmap_app.
  destruct (reaches_after w w1 t rest src Hre Hnd Esel) as [Hre1 Hnd1].
  { intros r Hr. simpl. by apply Hw1. }
  destruct (children t ++ rest) as [|c rest'] eqn:E; simpl; [done|].
  specialize (IH c rest' w1 fuel Hre1 Hnd1).
  unfold df_goto in IH |- *. simpl in IH |- *.
  change (list_fmap (tree A) A label rest') with (label <$> rest').
  destruct (traverse fuel N _ w1) as [[xs en] w2]. simpl in IH |- *.
  pose proof (nodes_cons c rest') as Hnc. cbn [map concat] in Hnc.
  pose proof (upto_cons c (concat (map preorder (children c ++ rest')))) as Hup.
  rewrite Hnc.
  assert ((xs, en)
          = match children_selector (label c) with
            | Raises e => ([], Faulted (leave_generator (UserCallbackFault e)))
            | Returns _ =>
                (label <$> up_to_first (raises_on children_selector)
                             (concat (map preorder (children c ++ rest'))),
                 ending_of (first_fault children_selector
                              (concat (map preorder (children c ++ rest')))))
            end) as IH'.
  { apply IH.
    - rewrite nodes_cons, E, nodes_cons in Hf. rewrite Hnc. cbn [length] in Hf |- *. lia.
    - rewrite nodes_cons in HN. cbn [length] in HN. lia. }
  destruct (children_selector (label c));
    injection IH' as -> ->; by apply pair_equal_spec in Hup as [-> ->].
Qed.

Lemma bf_traverse_reaches (g : bf_frame (A:=A)) :
  bf_children_selector g = children_selector →
  ∀ N t rest w fuel n,
  reaches children_selector w (t :: rest) →
  NoDup (child_regs children_selector (concat (map preorder (t :: rest)))) →
  length (concat (map preorder (t :: rest))) < fuel →
  length (concat (map preorder (rest ++ children t))) < N →
  length (concat (map preorder (rest ++ children t))) ≤ n →
  (traverse fuel N (bf_goto g (TrYielded (label t) (label <$> rest))) w).1
  = match children_selector (label t) with
    | Raises e => ([], Faulted (leave_generator (UserCallbackFault e)))
    | Returns _ =>
        (label <$> up_to_first (raises_on children_selector)
                     (level_order n (rest ++ children t)),
         ending_of (first_fault children_selector
                      (level_order n (rest ++ children t))))
    end.
Proof.
  intros Hsel. induction N as [|N IH];
    intros t rest w fuel n Hre Hnd Hf HN Hn; [lia|].
  simpl. unfold next_. simpl. unfold bf_resume. simpl. rewrite Hsel.
  destruct (children_selector (label t)) as [src|e] eqn:Esel;
    [|munfold; by rewrite Esel].
  assert (Hel : elements_of src w = label <$> children t).
  { apply (Hre t); [rewrite nodes_cons; left|done]. }
  assert (Hsize : length (concat (map preorder (rest ++ children t))) + 1
                  = length (concat (map preorder (t :: rest)))).
  { rewrite nodes_cons. cbn [length]. rewrite !map_app, !concat_app, !length_app.
    lia. }
  destruct (for_in_append_shared src fuel (label <$> rest)
              (log (Called (label t)) w)) as (w1 & E1 & Hw1).
  { unfold elements_of in *. rewrite content_log, Hel, length_fmap.
    rewrite map_app, concat_app, length_app in Hsize.
    pose proof (children_count t). lia. }
  munfold. rewrite Esel. simpl. rewrite E1.
  unfold elements_of in E1 |- *. rewrite content_log.
  fold (elements_of src w). rewrite Hel, <- fmap_app.
  destruct (reaches_swap w1 (children t) rest) as [Hre1 Hnd1].
  { apply (reaches_after w w1 t rest src Hre Hnd Esel).
    intros r Hr. simpl. by apply Hw1. }
  destruct (rest ++ children t) as [|c rest'] eqn:E; simpl.
  { by rewrite level_order_nil. }
  assert (Hc : length (concat (map preorder (rest' ++ children c))) + 1
               = length (concat (map preorder (c :: rest')))).
  { rewrite nodes_cons. cbn [length]. rewrite !map_app, !concat_app, !length_app.
    lia. }
  specialize (IH c rest' w1 fuel n Hre1 Hnd1 ltac:(lia) ltac:(lia) ltac:(lia)).
  unfold bf_goto in IH |- *. simpl in IH |- *.
  change (list_fmap (tree A) A label rest') with (label <$> rest').
  destruct (traverse fuel N _ w1) as [[xs en] w2]. simpl in IH |- *.
  pose proof (level_order_shift n [c] rest') as Hshift.
  cbn [app map concat] in Hshift. rewrite app_nil_r in Hshift.
  cbn [map concat] in Hn. rewrite (Hshift Hn).
  pose proof (upto_cons c (level_order n (rest' ++ children c))) as Hup.
  destruct (children_selector (label c));
    injection IH as -> ->; by apply pair_equal_spec in Hup as [-> ->].
Qed.

Lemma df_materialize_reaches t w k1 k2 :
  reaches children_selector w [t] →
  NoDup (child_regs children_selector (preorder t)) →
  (materialize (S (length (preorder t)) + k1) (S (length (preorder t)) + k2)
     (traverse_depth_first (label t) children_selector) w).1
  = (label <$> up_to_first (raises_on children_selector) (preorder t),
     ending_of (first_fault children_selector (preorder t))).
Proof.
  intros Hre Hnd. unfold materialize, traverse_depth_first. munfold.
  change (S (length (preorder t)) + k2) with (S (length (preorder t) + k2)).
  remember (S (length (preorder t)) + k1) as fuel eqn:Hfuel.
  remember (length (preorder t) + k2) as N eqn:HN.
  simpl. unfold next_. simpl.
  set (g := DfFrame (label t) children_selector TrStart).
  pose proof (df_traverse_reaches g eq_refl N t [] w fuel Hre) as E.
  change (label <$> []) with (@nil A) in E.
  destruct (traverse fuel N _ w) as [[xs en] w'].
  pose proof (upto_cons t (concat (map preorder (children t)))) as Hup.
  rewrite <- (preorder_unfold t) in Hup.
  rewrite !app_nil_r in E. cbn [map concat] in E. rewrite !app_nil_r in E.
  assert (Hsize : length (preorder t)
                  = S (length (concat (map preorder (children t))))).
  { by rewrite (preorder_unfold t) at 1. }
  specialize (E Hnd ltac:(lia) ltac:(lia)).
  cbn [fst snd] in E |- *.
  destruct (children_selector (label t));
    injection E as -> ->; by apply pair_equal_spec in Hup as [-> ->].
Qed.

Lemma bf_materialize_reaches t w k1 k2 :
  reaches children_selector w [t] →
  NoDup (child_regs children_selector (preorder t)) →
  (materialize (S (length (preorder t)) + k1) (S (length (preorder t)) + k2)
     (traverse_breath_first (label t) children_selector) w).1
  = (label <$> up_to_first (raises_on children_selector) (breadth_first t),
     ending_of (first_fault children_selector (breadth_first t))).
Proof.
  intros Hre Hnd. unfold materialize, traverse_breath_first. munfold.
  change (S (length (preorder t)) + k2) with (S (length (preorder t) + k2)).
  remember (S (length (preorder t)) + k1) as fuel eqn:Hfuel.
  remember (length (preorder t) + k2) as N eqn:HN.
  simpl. unfold next_. simpl.
  set (g := BfFrame (label t) children_selector TrStart).
  pose proof (bf_traverse_reaches g eq_refl N t [] w fuel (length (preorder t))
                Hre) as E.
  change (label <$> []) with (@nil A) in E.
  destruct (traverse fuel N _ w) as [[xs en] w'].
  unfold breadth_first.
  pose proof (level_order_shift (length (preorder t)) [t] []) as Hshift.
  cbn [app map concat] in Hshift. rewrite !app_nil_r in Hshift.
  rewrite Hshift by lia.
  pose proof (upto_cons t (level_order (length (preorder t)) (children t))) as Hup.
  cbn [map concat app] in E. rewrite !app_nil_r in E.
  assert (Hsize : length (preorder t)
                  = S (length (concat (map preorder (children t))))).
  { by rewrite (preorder_unfold t) at 1. }
  specialize (E Hnd ltac:(lia) ltac:(lia) ltac:(lia)).
  cbn [fst snd] in E |- *.
  destruct (children_selector (label t));
    injection E as -> ->; by apply pair_equal_spec in Hup as [-> ->].
Qed.
Lemma bf_materialize_shows t w k1 k2 :
  shows children_selector w [t] →
  NoDup (child_regs children_selector (preorder t)) →
  (materialize (S (length (preorder t)) + k1) (S (length (preorder t)) + k2)
     (traverse_breath_first (label t) children_selector) w).1
  = (label <$> breadth_first t, Exhausted).
Proof.
  intros Hsh Hnd.
  rewrite (bf_materialize_reaches t w k1 k2 (shows_reaches w [t] Hsh) Hnd).
  destruct (no_fault_nodes (breadth_first t)) as [-> ->]; [|done].
  intros n Hn. destruct (Hsh n) as (src & Hsel & _); [|by exists src].
  unfold breadth_first in Hn.
  rewrite level_order_Permutation in Hn; [done|].
  cbn [map concat]. by rewrite app_nil_r.
Qed.

Lemma df_materialize_shows t w k1 k2 :
  shows children_selector w [t] →
  NoDup (child_regs children_selector (preorder t)) →
  (materialize (S (length (preorder t)) + k1) (S (length (preorder t)) + k2)
     (traverse_depth_first (label t) children_selector) w).1
  = (label <$> preorder t, Exhausted).
Proof.
  intros Hsh Hnd.
  rewrite (df_materialize_reaches t w k1 k2 (shows_reaches w [t] Hsh) Hnd).
  destruct (shows_no_fault w [t] Hsh) as [E1 E2].
  cbn [map concat] in E1, E2. rewrite app_nil_r in E1, E2.
  by rewrite E1, E2.
Qed.
End TraversalShared.

Section BreadthFirstOrder.
Context {V : Type}.
Implicit Types (t : tree V) (queue forest : list (tree V)) (w : world (tree V)).

(** X14. [traverse_breath_first(root, children_selector)] yields the nodes
    of the tree level by level: the root, then its children in the order
    of the children selector, then the children of all of these, and so
    on; as many levels as the tree has nodes are enough.  This holds for
    any children selector that shows a tree, whether it returns the
    children of a node as a list or as an iterator object, as long as no
    iterator object is returned for two nodes. *)
Theorem traverse_breath_first_is_level_order (root : tree V) w k1 k2 :
  (materialize (S (length (preorder root)) + k1) (S (length (preorder root)) + k2)
     (traverse_breath_first root children_of) w).1
  = (breadth_first root, Exhausted)
  ∧ (∀ n forest, level_order (S n) forest
       = forest ++ level_order n (concat (map children forest)))
  ∧ (∀ n, length (preorder root) ≤ n → level_order n [root] = breadth_first root)
  ∧ (∀ (A : Type) (t : tree A) (children_selector : A → returns (iterable A))
       (w : world A) k1 k2,
       shows children_selector w [t] →
       NoDup (child_regs children_selector (preorder t)) →
       (materialize (S (length (preorder t)) + k1) (S (length (preorder t)) + k2)
          (traverse_breath_first (label t) children_selector) w).1
       = (label <$> breadth_first t, Exhausted)).
Proof.
  split_and!; [apply bf_materialize|done| |].
  - intros n Hn. apply level_order_enough; simpl; rewrite app_nil_r; lia.
  - intros A t children_selector w0 k1' k2'. apply bf_materialize_shows.
Qed.

(** X15. Over a tree [traverse_breath_first] and [traverse_depth_first]
    yield the same nodes the same number of times: one result is a
    permutation of the other.  This holds for any children selector that
    shows a tree, whether it returns the children of a node as a list or
    as an iterator object, as long as no iterator object is returned for
    two nodes. *)
Theorem breadth_and_depth_first_visit_the_same_nodes (root : tree V) w w' k1 k2 :
  (materialize (S (length (preorder root)) + k1) (S (length (preorder root)) + k2)
     (traverse_breath_first root children_of) w).1.1
  ≡ₚ (materialize (S (length (preorder root)) + k1) (S (length (preorder root)) + k2)
        (traverse_depth_first root children_of) w').1.1
  ∧ (∀ (A : Type) (t : tree A) (children_selector : A → returns (iterable A))
       (w w' : world A) k1 k2,
       shows children_selector w [t] →
       shows children_selector w' [t] →
       NoDup (child_regs children_selector (preorder t)) →
       (materialize (S (length (preorder t)) + k1) (S (length (preorder t)) + k2)
          (traverse_breath_first (label t) children_selector) w).1.1
       ≡ₚ (materialize (S (length (preorder t)) + k1) (S (length (preorder t)) + k2)
             (traverse_depth_first (label t) children_selector) w').1.1).
Proof.
  split.
  - rewrite bf_materialize, df_materialize. simpl. unfold breadth_first.
    rewrite level_order_Permutation by (simpl; rewrite app_nil_r; lia).
    simpl. by rewrite app_nil_r.
  - intros A t children_selector w0 w0' k1' k2' Hsh Hsh' Hnd.
    rewrite bf_materialize_shows, df_materialize_shows by done.
    cbn [fst]. apply fmap_Permutation. unfold breadth_first.
    rewrite level_order_Permutation by (simpl; rewrite app_nil_r; lia).
    simpl. by rewrite app_nil_r.
Qed.

Example traverse_breath_first_iterator_children_example :
  (materialize 10 10
     (traverse_breath_first 1
        (λ x, if x =? 1 then Returns (FromIter 0)
              else if x =? 2 then Returns (FromIter 1)
              else Returns (FromList [])))
     (World {[0 := [2; 3]; 1 := [4]]} [])).1
  = ([1; 2; 3; 4], Exhausted).
Proof. by vm_compute. Qed.
End BreadthFirstOrder.

(* ===================================================================== *)
(** ** Both traversals: a selector that fails on the root *)
(* ===================================================================== *)

Section TraversalRoot.
Context {A : Type}.
Implicit Types (w : world A) (root : A)
  (children_selector : A → returns (iterable A)).

(** X16. Both traversals yield the root before the children selector is
    called at all: when the selector raises on the root, the first advance
    still gives the root, the second one raises the selector's exception
    (a StopIteration as RuntimeError), and the generator is finished
    after that. *)
Theorem traversals_fault_of_selector_on_root_comes_second
    root children_selector (e : pyexn) w (fuel : nat) :
  children_selector root = Raises e →
  one_cursor fuel 3 (traverse_breath_first root children_selector) w
  = [Yield root; Fault (leave_generator (UserCallbackFault e)); Stop]
  ∧ one_cursor fuel 3 (traverse_depth_first root children_selector) w
    = [Yield root; Fault (leave_generator (UserCallbackFault e)); Stop].
Proof.
  intros He. unfold one_cursor, traverse_breath_first, traverse_depth_first.
  munfold. simpl. unfold next_. simpl. unfold bf_resume, df_resume. simpl.
  munfold. by rewrite He.
Qed.
End TraversalRoot.

Lemma traversals_fault_witness :
  one_cursor 0 3
    (traverse_breath_first 7%Z (λ _, Raises (PyError 1))) (World ∅ [])
  = [Yield 7%Z; Fault (UserCallbackFault (PyError 1)); Stop]
  ∧ one_cursor 0 3
      (traverse_depth_first 7%Z (λ _, Raises (PyError 1))) (World ∅ [])
    = [Yield 7%Z; Fault (UserCallbackFault (PyError 1)); Stop].
Proof.
  exact (traversals_fault_of_selector_on_root_comes_second 7%Z
           (λ _, Raises (PyError 1)) (PyError 1) (World ∅ []) 0 eq_refl).
Defined.

(* ===================================================================== *)
(** ** [flatten2] with any selector over finitely nested lists *)
(* ===================================================================== *)

Section Flatten2BySelector.
Context {A : Type}.
Variable sel : A → option (list A).
Implicit Types (w : world A) (l : list A) (ls : list (list A)).

Lemma nested_within_mono d : ∀ x, nested_within sel d x → nested_within sel (S d) x.
Proof.
  induction d as [|d IH]; intros x Hx; [done|].
  cbn [nested_within] in Hx |- *. destruct (sel x) as [l|]; [|done].
  eapply Forall_impl; [exact Hx|]. exact IH.
Qed.

Lemma flat_by_stable d : ∀ x, nested_within sel d x → flat_by sel (S d) x = flat_by sel d x.
Proof.
  induction d as [|d IH]; intros x Hx; [done|].
  cbn [nested_within flat_by] in Hx |- *. destruct (sel x) as [l|]; [|done].
  f_equal. induction Hx as [|y l Hy _ IHl]; [done|].
  cbn [map]. rewrite IHl. f_equal. by apply IH.
Qed.

Lemma visits_stable d : ∀ x, nested_within sel d x → visits sel (S d) x = visits sel d x.
Proof.
  induction d as [|d IH]; intros x Hx; [done|].
  cbn [nested_within visits] in Hx |- *. destruct (sel x) as [l|]; [|done].
  f_equal. induction Hx as [|y l Hy _ IHl]; [done|].
  cbn [sum_list_with]. rewrite IHl. f_equal. by apply IH.
Qed.

Lemma flat_by_nested d x l :
  sel x = Some l → nested_within sel d x →
  Forall (nested_within sel d) l
  ∧ flat_by sel d x = concat (map (flat_by sel d) l)
  ∧ visits sel d x = 2 + sum_list_with (visits sel d) l.
Proof.
  intros Hx Hn. destruct d as [|d]; [done|].
  assert (Hl : Forall (nested_within sel d) l).
  { cbn [nested_within] in Hn. by rewrite Hx in Hn. }
  split_and!.
  - eapply Forall_impl; [exact Hl|]. apply nested_within_mono.
  - change (flat_by sel (S d) x)
      with (match sel x with
            | None => [x]
            | Some l => concat (map (flat_by sel d) l)
            end).
    rewrite Hx. clear Hx Hn. induction Hl as [|y l' Hy _ IHl]; [done|].
    cbn [map concat]. rewrite IHl. f_equal. symmetry. by apply flat_by_stable.
  - change (visits sel (S d) x)
      with (match sel x with
            | None => 1
            | Some l => 2 + sum_list_with (visits sel d) l
            end).
    rewrite Hx. f_equal. clear Hx Hn. induction Hl as [|y l' Hy _ IHl]; [done|].
    cbn [sum_list_with]. rewrite IHl. f_equal. symmetry. by apply visits_stable.
Qed.

Lemma flat_by_atom d x :
  sel x = None → nested_within sel d x →
  flat_by sel d x = [x] ∧ visits sel d x = 1.
Proof.
  intros Hx Hn. destruct d as [|d]; [done|].
  cbn [flat_by visits]. by rewrite Hx.
Qed.

Lemma f2_loop_flat_by (g : f2_frame (A:=A)) d :
  f2_selector g = nested_lists (λ x, Returns (sel x)) →
  ∀ fuel ls l w,
  Forall (nested_within sel d) (l ++ concat ls) →
  visits_all sel d l + sum_list_with (visits_all sel d) ls < fuel →
  ∃ w',
    (f2_loop fuel g (ListIter <$> ls) (ListIter l) w
       = (Ok (None, f2_goto g F2Done), w')
     ∧ concat (map (flat_by sel d) (l ++ concat ls)) = [])
    ∨ (∃ x ls' l',
        f2_loop fuel g (ListIter <$> ls) (ListIter l) w
          = (Ok (Some x, f2_goto g (F2Yielded (ListIter <$> ls') (ListIter l'))), w')
        ∧ concat (map (flat_by sel d) (l ++ concat ls))
          = x :: concat (map (flat_by sel d) (l' ++ concat ls'))
        ∧ Forall (nested_within sel d) (l' ++ concat ls')
        ∧ visits_all sel d l' + sum_list_with (visits_all sel d) ls'
          < visits_all sel d l + sum_list_with (visits_all sel d) ls).
Proof.
  intros Hsel. induction fuel as [|fuel IH]; intros ls l w Hn Hf; [lia|].
  simpl. destruct l as [|x l]; munfold; simpl.
  - destruct ls as [|top ls']; simpl.
    + eexists. by left.
    + destruct (IH ls' top (log Pulled w))
        as [w' [(E&Ho)|(y&ls2&l2&E&Ho&Hn2&Hw)]].
      { exact Hn. }
      { unfold visits_all in *. simpl in *. lia. }
      * exists w'. by left.
      * exists w'. right. exists y, ls2, l2. split_and!; [done..|].
        unfold visits_all in *. simpl in *. lia.
  - rewrite Hsel. unfold nested_lists.
    apply Forall_cons in Hn as [Hx Hn].
    destruct (sel x) as [lx|] eqn:Ex; simpl.
    + destruct (flat_by_nested d x lx Ex Hx) as (Hlx & Hflat & Hvis).
      destruct (IH (l :: ls) lx (log (Called x) (log Pulled w)))
        as [w' [(E&Ho)|(y&ls2&l2&E&Ho&Hn2&Hw)]].
      { simpl. apply Forall_app. by split. }
      { unfold visits_all in *. simpl in *. lia. }
      * exists w'. left. split; [exact E|].
        rewrite Hflat. simpl in Ho. by rewrite map_app, concat_app in Ho.
      * exists w'. right. exists y, ls2, l2. split_and!; [exact E| |done|].
        -- rewrite <- Ho, Hflat. simpl. by rewrite !map_app, !concat_app.
        -- unfold visits_all in *. simpl in *. lia.
    + destruct (flat_by_atom d x Ex Hx) as (Hflat & Hvis).
      eexists. right. eexists _, ls, l. split_and!; [done| |done|].
      * by rewrite Hflat.
      * unfold visits_all. simpl. lia.
Qed.

Lemma f2_traverse_flat_by (g : f2_frame (A:=A)) d :
  f2_selector g = nested_lists (λ x, Returns (sel x)) →
  ∀ N ls l w fuel,
  Forall (nested_within sel d) (l ++ concat ls) →
  visits_all sel d l + sum_list_with (visits_all sel d) ls < fuel →
  visits_all sel d l + sum_list_with (visits_all sel d) ls < N →
  ∃ w', traverse fuel N (f2_goto g (F2Yielded (ListIter <$> ls) (ListIter l))) w
        = (concat (map (flat_by sel d) (l ++ concat ls)), Exhausted, w').
Proof.
  intros Hsel. induction N as [|N IH]; intros ls l w fuel Hn Hf HN; [lia|].
  simpl. unfold next_. simpl.
  change (f2_resume fuel (f2_goto g (F2Yielded (ListIter <$> ls) (ListIter l))) w)
    with (f2_loop fuel (f2_goto g (F2Yielded (ListIter <$> ls) (ListIter l)))
            (ListIter <$> ls) (ListIter l) w).
  destruct (f2_loop_flat_by (f2_goto g (F2Yielded (ListIter <$> ls) (ListIter l)))
              d Hsel fuel ls l w Hn Hf)
    as [w1 [(->&Ho)|(y&ls2&l2&->&Ho&Hn2&Hw)]].
  - exists w1. by rewrite Ho.
  - destruct (IH ls2 l2 w1 fuel) as (w2 & E2); [done|lia..|].
    unfold f2_goto in E2 |- *. simpl in E2 |- *. rewrite E2.
    exists w2. by rewrite Ho.
Qed.

(** X17. Over lists nested to a finite depth, [flatten2] with any selector
    that raises nothing yields, depth first and in order, the elements the
    selector maps to [None]; an element the selector maps to a list is not
    yielded and stands for the flattened elements of that list. *)
Theorem flatten2_flattens_by_selector (src : list A) (d : nat) w (k1 k2 : nat) :
  Forall (nested_within sel d) src →
  (materialize (S (visits_all sel d src) + k1) (S (visits_all sel d src) + k2)
     (flatten2 (FromList src) (nested_lists (λ x, Returns (sel x)))) w).1
  = (concat (map (flat_by sel d) src), Exhausted).
Proof.
  intros Hn. unfold materialize, flatten2. munfold.
  change (S (visits_all sel d src) + k2) with (S (visits_all sel d src + k2)).
  remember (S (visits_all sel d src) + k1) as fuel eqn:Hfuel.
  remember (visits_all sel d src + k2) as N eqn:HN.
  simpl. unfold next_. simpl.
  set (g := F2Frame (FromList src) _ F2Start).
  change (f2_resume fuel g w) with (f2_loop fuel g (ListIter <$> []) (ListIter src) w).
  destruct (f2_loop_flat_by g d eq_refl fuel [] src w)
    as [w1 [(->&Ho)|(y&ls2&l2&->&Ho&Hn2&Hw)]].
  { simpl. by rewrite app_nil_r. }
  { change (sum_list_with (visits_all sel d) []) with 0. lia. }
  + simpl in Ho. rewrite app_nil_r in Ho. by rewrite Ho.
  + destruct (f2_traverse_flat_by g d eq_refl N ls2 l2 w1 fuel) as (w2 & E2).
    { done. }
    { change (sum_list_with (visits_all sel d) []) with 0 in Hw. lia. }
    { change (sum_list_with (visits_all sel d) []) with 0 in Hw. lia. }
    rewrite E2. simpl in Ho. rewrite app_nil_r in Ho. by rewrite Ho.
Qed.
End Flatten2BySelector.

Lemma flatten2_by_selector_witness :
  (materialize 7 7
     (flatten2 (FromList [0; 3]%Z)
        (nested_lists
           (λ x, Returns ((λ x : Z, if (x =? 0)%Z then Some [1; 2]%Z else None) x))))
     (World ∅ [])).1
  = ([1; 2; 3]%Z, Exhausted).
Proof.
  apply (flatten2_flattens_by_selector
           (λ x : Z, if (x =? 0)%Z then Some [1; 2]%Z else None)
           [0; 3]%Z 2 (World ∅ []) 0 0).
  repeat (constructor; cbn).
Defined.

(* ===================================================================== *)
(** ** Both traversals: no node is remembered *)
(* ===================================================================== *)

Section TraversalCycle.
Context {A : Type}.
Implicit Types (w : world A) (root : A)
  (children_selector : A → returns (iterable A)).

Lemma bf_traverse_self_loop (g : bf_frame (A:=A)) root :
  bf_children_selector g root = Returns (FromList [root]) →
  ∀ N w fuel,
  (traverse (S (S fuel)) N (bf_goto g (TrYielded root [])) w).1
  = (replicate N root, Cut).
Proof.
  intros Hsel. induction N as [|N IH]; intros w fuel; [done|].
  cbn [traverse]. unfold next_. simpl. unfold bf_resume. simpl.
  munfold. rewrite Hsel. simpl.
  specialize (IH (log Pulled (log Pulled (log (Called root) w))) fuel).
  unfold bf_goto in IH |- *. simpl in IH |- *.
  destruct (traverse (S (S fuel)) N _ _) as [[xs e] w']. simpl in IH.
  by injection IH as -> ->.
Qed.

Lemma df_traverse_self_loop (g : df_frame (A:=A)) root :
  df_children_selector g root = Returns (FromList [root]) →
  ∀ N w fuel,
  (traverse (S (S fuel)) N (df_goto g (TrYielded root [])) w).1
  = (replicate N root, Cut).
Proof.
  intros Hsel. induction N as [|N IH]; intros w fuel; [done|].
  cbn [traverse]. unfold next_. simpl. unfold df_resume. simpl.
  unfold unpack. munfold. rewrite Hsel. simpl.
  specialize (IH (log Pulled (log Pulled (log (Called root) w))) fuel).
  unfold df_goto in IH |- *. simpl in IH |- *.
  destruct (traverse (S (S fuel)) N _ _) as [[xs e] w']. simpl in IH.
  by injection IH as -> ->.
Qed.

(** X18. Neither traversal remembers the nodes it has visited: when the
    children selector gives the root as its own only child, both yield the
    root again and again and never end. *)
Theorem traversals_follow_a_cycle_forever
    root children_selector w (fuel n : nat) :
  children_selector root = Returns (FromList [root]) →
  (materialize (S (S fuel)) n (traverse_breath_first root children_selector) w).1
  = (replicate n root, Cut)
  ∧ (materialize (S (S fuel)) n (traverse_depth_first root children_selector) w).1
    = (replicate n root, Cut).
Proof.
  intros Hsel. unfold materialize, traverse_breath_first, traverse_depth_first.
  munfold. destruct n as [|n]; [done|]. cbn [traverse]. unfold next_. simpl.
  split.
  - pose proof (bf_traverse_self_loop (BfFrame root children_selector TrStart)
                  root Hsel n w fuel) as E.
    unfold bf_goto in E. simpl in E.
    destruct (traverse (S (S fuel)) n _ _) as [[xs e] w']. simpl in E.
    by injection E as -> ->.
  - pose proof (df_traverse_self_loop (DfFrame root children_selector TrStart)
                  root Hsel n w fuel) as E.
    unfold df_goto in E. simpl in E.
    destruct (traverse (S (S fuel)) n _ _) as [[xs e] w']. simpl in E.
    by injection E as -> ->.
Qed.
End TraversalCycle.

Lemma traversals_cycle_witness :
  (materialize 2 3
     (traverse_breath_first 7%Z (λ x, Returns (FromList [x]))) (World ∅ [])).1
  = ([7; 7; 7]%Z, Cut)
  ∧ (materialize 2 3
       (traverse_depth_first 7%Z (λ x, Returns (FromList [x]))) (World ∅ [])).1
    = ([7; 7; 7]%Z, Cut).
Proof.
  exact (traversals_follow_a_cycle_forever 7%Z (λ x, Returns (FromList [x]))
           (World ∅ []) 0 3 eq_refl).
Defined.

(* ===================================================================== *)
(** ** [flatten] applied to its own result *)
(* ===================================================================== *)

Section FlattenTwice.
Implicit Types (w : world obj) (src : list obj).

Lemma flatten_materialize src w k1 k2 :
  (materialize (S (pulls src) + k1) (S (pulls src) + k2)
     (flatten (FromList src) []) w).1
  = (concat (map flat src), Exhausted).
Proof.
  unfold materialize, flatten, flatten2. munfold.
  change (S (pulls src) + k2) with (S (pulls src + k2)).
  remember (S (pulls src) + k1) as fuel eqn:Hfuel.
  remember (pulls src + k2) as N eqn:HN.
  simpl. unfold next_. simpl.
  set (g := F2Frame (FromList src) _ F2Start).
  change (f2_resume fuel g w) with (f2_loop fuel g (ListIter <$> []) (ListIter src) w).
  destruct (f2_loop_flatten g eq_refl fuel [] src w)
    as [w1 [(->&Ho)|(y&ls2&l2&->&Ho&Hw)]].
  { change (sum_list_with pulls []) with 0. lia. }
  + simpl in Ho. rewrite app_nil_r in Ho. by rewrite Ho.
  + destruct (f2_traverse_flatten g eq_refl N ls2 l2 w1 fuel) as (w2 & E2).
    { change (sum_list_with pulls []) with 0 in Hw. lia. }
    { change (sum_list_with pulls []) with 0 in Hw. lia. }
    rewrite E2. simpl in Ho. rewrite app_nil_r in Ho. by rewrite Ho.
Qed.

(** X19. Flattening what [flatten()] gave changes nothing: every element
    of the result is a string or not iterable, and is yielded as it
    is. *)
Theorem flatten_is_idempotent src w w' (k1 k2 fuel k : nat) :
  let out :=
    (materialize (S (pulls src) + k1) (S (pulls src) + k2)
       (flatten (FromList src) []) w).1.1 in
  (materialize (S fuel) (S (length out) + k) (flatten (FromList out) []) w').1
  = (out, Exhausted).
Proof.
  intros out. unfold out. rewrite flatten_materialize. simpl. clear out.
  destruct (f2_materialize_rejected (FromList (concat (map flat src)))
              default_selector w' fuel k) as (w2 & E & _).
  - intros y Hy. unfold elements_of in Hy. simpl in Hy.
    apply list_elem_of_In, in_concat in Hy as (l & Hl & Hy).
    apply in_map_iff in Hl as (x & <- & _).
    apply list_elem_of_In in Hy.
    destruct (flat_yields_atoms x y Hy) as [Hi|Hs]; destruct y; try done.
  - unfold flatten. fold default_selector. unfold elements_of in E. simpl in E.
    by rewrite E.
Qed.
End FlattenTwice.

(* ===================================================================== *)
(** ** [except_by]: how often the key selector is called *)
(* ===================================================================== *)

Section ExceptByCalls.
Context {A K : Type} `{Countable K}.
Implicit Types (w : world A) (xs ys pre post : list A) (s : gset K).

Lemma for_in_called {Acc} (body : A → Acc → M A Acc) (f : A → Acc → Acc) xs :
  (∀ x acc w, body x acc w = (Ok (f x acc), log (Called x) w)) →
  ∀ it w acc fuel, content it w = xs → length xs < fuel →
  ∃ w', for_in fuel it body acc w = (Ok (foldl (λ a x, f x a) acc xs), w')
      ∧ trace w' = trace w ++ concat ((λ y, [Pulled; Called y]) <$> xs) ++ [Pulled]
      ∧ heap w' = exhaust it w.
Proof.
  intros Hb. induction xs as [|x xs IH]; intros it w acc fuel Hc Hf.
  - destruct fuel as [|fuel]; [simpl in Hf; lia|]. simpl. munfold.
    rewrite (pull_nil _ _ Hc). eexists. split; [done|]. simpl.
    by rewrite exhaust_nil.
  - destruct fuel as [|fuel]; [simpl in Hf; lia|]. simpl. munfold.
    destruct (pull_cons _ _ _ _ Hc) as (it' & w1 & -> & Hc1 & He1 & Ht & _).
    rewrite Hb.
    destruct (IH it' (log (Called x) w1) (f x acc) fuel) as (w2 & E & Ht2 & Hh2).
    { by rewrite content_log. } { simpl in Hf. lia. }
    exists w2. split; [exact E|]. split.
    + rewrite Ht2. simpl. by rewrite Ht, <- !app_assoc.
    + by rewrite Hh2, exhaust_log.
Qed.

Lemma eb_loop_called (key : A → K) (g : eb_frame (A:=A) (K:=K)) xs :
  eb_key_selector g = (λ x, Returns (key x)) →
  ∀ it w s fuel, content it w = xs → length xs < fuel →
  ∃ w',
    (eb_filter key s xs = []
     ∧ eb_loop fuel g s it w = (Ok (None, eb_goto g EbDone), w')
     ∧ trace w'
       = trace w ++ concat ((λ y, [Pulled; Called y]) <$> xs) ++ [Pulled])
    ∨ (∃ x s' it' pre,
        eb_loop fuel g s it w = (Ok (Some x, eb_goto g (EbYielded s' it')), w')
        ∧ xs = pre ++ x :: content it' w'
        ∧ eb_filter key s xs = x :: eb_filter key s' (content it' w')
        ∧ trace w'
          = trace w ++ concat ((λ y, [Pulled; Called y]) <$> pre ++ [x])).
Proof.
  intros Hk. induction xs as [|x l IH]; intros it w s fuel Hc Hf.
  - destruct fuel as [|fuel]; [simpl in Hf; lia|]. simpl. munfold.
    rewrite (pull_nil _ _ Hc). eexists; left. by split_and!.
  - destruct fuel as [|fuel]; [simpl in Hf; lia|]. simpl. munfold.
    destruct (pull_cons _ _ _ _ Hc) as (it' & w1 & -> & Hc1 & _ & Ht & _).
    rewrite Hk. simpl. destruct (decide (key x ∈ s)) as [Hin|Hin].
    + destruct (IH it' (log (Called x) w1) s fuel)
        as [w2 [(Ef&E&Ht2)|(y&s'&it2&pre&E&Hxs&Ef&Ht2)]].
      { by rewrite content_log. } { simpl in Hf. lia. }
      * exists w2. left. split_and!; [done..|].
        rewrite Ht2. simpl. by rewrite Ht, <- !app_assoc.
      * exists w2. right. exists y, s', it2, (x :: pre). split_and!; [done| |done|].
        -- simpl. by rewrite <- Hxs.
        -- rewrite Ht2. simpl. by rewrite Ht, <- !app_assoc.
    + eexists. right. exists x, ({[key x]} ∪ s), it', []. split_and!; [done| | |].
      * simpl. by rewrite content_log, Hc1.
      * by rewrite content_log, Hc1.
      * simpl. by rewrite Ht, <- app_assoc.
Qed.

Lemma eb_traverse_called (key : A → K) (g : eb_frame (A:=A) (K:=K)) :
  eb_key_selector g = (λ x, Returns (key x)) →
  ∀ n it w s fuel, length (content it w) < fuel → length (content it w) < n →
  ∃ w', traverse fuel n (eb_goto g (EbYielded s it)) w
          = (eb_filter key s (content it w), Exhausted, w')
      ∧ trace w'
        = trace w ++ concat ((λ y, [Pulled; Called y]) <$> content it w) ++ [Pulled].
Proof.
  intros Hk. induction n as [|n IH]; intros it w s fuel Hf Hn; [lia|].
  simpl. unfold next_. simpl.
  change (eb_resume fuel (eb_goto g (EbYielded s it)) w)
    with (eb_loop fuel (eb_goto g (EbYielded s it)) s it w).
  destruct (eb_loop_called key (eb_goto g (EbYielded s it)) (content it w) Hk
              it w s fuel eq_refl Hf)
    as [w1 [(E1&->&Ht)|(y&s'&it2&pre&->&Hxs&E2&Ht)]]; simpl.
  - rewrite E1. by exists w1.
  - assert (Hl : length (content it2 w1) < length (content it w)).
    { rewrite Hxs, length_app. simpl. lia. }
    destruct (IH it2 w1 s' fuel) as (w2 & E3 & Ht2); [lia..|].
    unfold eb_goto in E3 |- *. simpl in E3 |- *. rewrite E3.
    exists w2. split; [by rewrite E2|].
    rewrite Ht2, Ht, Hxs.
    rewrite <- !app_assoc. f_equal.
    rewrite (fmap_app _ pre (y :: content it2 w1)), fmap_app, !concat_app.
    simpl. by rewrite <- !app_assoc.
Qed.

(** X20. Over list inputs a full traversal of [except_by] calls the key
    selector once for every element of [second], in order, before the
    source is touched, and then once for every element of the source, in
    order, each call right after its element was pulled. *)
Theorem except_by_calls_key_selector_once_per_element
    xs ys (key : A → K) w (k1 k2 : nat) :
  trace (materialize (S (length xs + length ys) + k1) (S (length xs) + k2)
           (except_by (FromList xs) (FromList ys) (λ x, Returns (key x))) w).2
  = trace w
    ++ (concat ((λ y, [Pulled; Called y]) <$> ys) ++ [Pulled])
    ++ (concat ((λ x, [Pulled; Called x]) <$> xs) ++ [Pulled]).
Proof.
  unfold materialize, except_by. munfold. simpl.
  set (keyf := λ x, Returns (key x)).
  set (g := EbFrame (FromList xs) (FromList ys) keyf EbStart).
  assert (∃ fuel, fuel = S (length xs + length ys + k1)) as [fuel Hfuel]
    by by eexists.
  rewrite <- Hfuel.
  unfold next_. simpl. unfold eb_resume. simpl.
  destruct (for_in_called
              (λ x s, mbind (λ key0, mret ({[key0]} ∪ s)) (call keyf x))
              (λ x s, {[key x]} ∪ s) ys) with (it := ListIter ys) (w := w)
              (acc := (∅ : gset K)) (fuel := fuel) as (w1 & E1 & Ht1 & _).
  { intros x acc w0. by munfold. }
  { done. } { simpl. lia. }
  munfold. rewrite E1.
  set (s := foldl _ _ _).
  destruct (eb_loop_called key g xs eq_refl (ListIter xs) w1 s fuel eq_refl)
    as [w2 [(Ef&->&Ht2)|(y&s'&it2&pre&->&Hxs&Ef&Ht2)]]; [lia|..]; simpl.
  - rewrite Ht2, Ht1. by rewrite <- !app_assoc.
  - assert (Hl : length (content it2 w2) < length xs).
    { rewrite Hxs, length_app. simpl. lia. }
    destruct (eb_traverse_called key g eq_refl (length xs + k2) it2 w2 s' fuel)
      as (w3 & E3 & Ht3); [lia|lia|].
    unfold eb_goto in E3 |- *. simpl in E3 |- *. rewrite E3. simpl.
    rewrite Ht3, Ht2, Ht1, Hxs.
    rewrite <- !app_assoc. do 2 f_equal.
    rewrite (fmap_app _ pre (y :: content it2 w2)), fmap_app, !concat_app.
    simpl. by rewrite <- !app_assoc.
Qed.
End ExceptByCalls.

(* ===================================================================== *)
(** ** Both traversals: a selector that fails on some node *)
(* ===================================================================== *)

Section TraversalFault.
Context {V : Type}.
Variables (bad : tree V → bool) (e : pyexn).
Implicit Types (t : tree V) (stack queue : list (tree V)) (w : world (tree V)).

Lemma up_to_first_cons t l :
  (up_to_first bad (t :: l), ending_on bad e (t :: l))
  = if bad t then ([t], Faulted (leave_generator (UserCallbackFault e)))
    else (t :: up_to_first bad l, ending_on bad e l).
Proof. unfold ending_on. simpl. by destruct (bad t). Qed.

Lemma df_traverse_failing (g : df_frame (A:=tree V)) :
  df_children_selector g = failing_at bad e →
  ∀ N elem stack w fuel,
  length (concat (map preorder (elem :: stack))) < fuel →
  length (concat (map preorder (children elem ++ stack))) < N →
  (traverse fuel N (df_goto g (TrYielded elem stack)) w).1
  = if bad elem then ([], Faulted (leave_generator (UserCallbackFault e)))
    else (up_to_first bad (concat (map preorder (children elem ++ stack))),
          ending_on bad e (concat (map preorder (children elem ++ stack)))).
Proof.
  intros Hsel. induction N as [|N IH]; intros elem stack w fuel Hf HN; [lia|].
  simpl. unfold next_. simpl. unfold df_resume. simpl. rewrite Hsel.
  munfold. unfold failing_at at 1. destruct (bad elem) eqn:Hbad; [done|].
  unfold children_of at 1.
  destruct (unpack_list (children elem) fuel (log (Called elem) w))
    as (w1 & -> & _).
  { pose proof (children_length elem). simpl in Hf. rewrite length_app in Hf. lia. }
  rewrite push_reversed.
  destruct (children elem ++ stack) as [|c rest] eqn:E; simpl; [done|].
  specialize (IH c rest w1 fuel).
  unfold df_goto in IH |- *. simpl in IH |- *.
  destruct (traverse fuel N _ w1) as [[xs en] w2]. simpl in IH |- *.
  rewrite (preorder_unfold c). cbn [app]. rewrite up_to_first_cons.
  rewrite <- concat_app, <- map_app.
  assert ((xs, en)
          = if bad c then ([], Faulted (leave_generator (UserCallbackFault e)))
            else (up_to_first bad (concat (map preorder (children c ++ rest))),
                  ending_on bad e (concat (map preorder (children c ++ rest)))))
    as IH'.
  { apply IH.
    - simpl in Hf |- *. rewrite length_app in Hf |- *.
      assert (length (concat (map preorder (children elem ++ stack)))
              < length (preorder elem) + length (concat (map preorder stack))).
      { rewrite map_app, concat_app, length_app, (preorder_unfold elem).
        simpl. lia. }
      rewrite E in H. simpl in H. rewrite length_app in H. lia.
    - simpl in HN. rewrite (preorder_unfold c) in HN. simpl in HN.
      rewrite map_app, concat_app, !length_app in *. lia. }
  destruct (bad c); by injection IH' as -> ->.
Qed.

Lemma bf_traverse_failing (g : bf_frame (A:=tree V)) :
  bf_children_selector g = failing_at bad e →
  ∀ N elem queue w fuel n,
  length (concat (map preorder (elem :: queue))) < fuel →
  length (concat (map preorder (queue ++ children elem))) < N →
  length (concat (map preorder (queue ++ children elem))) ≤ n →
  (traverse fuel N (bf_goto g (TrYielded elem queue)) w).1
  = if bad elem then ([], Faulted (leave_generator (UserCallbackFault e)))
    else (up_to_first bad (level_order n (queue ++ children elem)),
          ending_on bad e (level_order n (queue ++ children elem))).
Proof.
  intros Hsel. induction N as [|N IH]; intros elem queue w fuel n Hf HN Hn; [lia|].
  simpl. unfold next_. simpl. unfold bf_resume. simpl. rewrite Hsel.
  destruct (for_in_append (children elem) fuel queue (log (Called elem) w))
    as (w1 & E1).
  { pose proof (children_length elem). simpl in Hf. rewrite length_app in Hf. lia. }
  munfold. unfold failing_at at 1. destruct (bad elem) eqn:Hbad; [done|].
  unfold children_of at 1. simpl. rewrite E1.
  assert (Hsize : length (concat (map preorder (queue ++ children elem))) + 1
                  = length (concat (map preorder (elem :: queue)))).
  { cbn [map concat]. rewrite map_app, concat_app, !length_app.
    rewrite (preorder_unfold elem). simpl. lia. }
  destruct (queue ++ children elem) as [|c rest] eqn:E; simpl.
  - by rewrite level_order_nil.
  - assert (Hc : length (concat (map preorder (rest ++ children c))) + 1
                 = length (concat (map preorder (c :: rest)))).
    { cbn [map concat]. rewrite map_app, concat_app, !length_app.
      rewrite (preorder_unfold c). simpl. lia. }
    specialize (IH c rest w1 fuel n).
    unfold bf_goto in IH |- *. simpl in IH |- *.
    destruct (traverse fuel N _ w1) as [[xs en] w2]. simpl in IH |- *.
    pose proof (level_order_shift n [c] rest) as Hshift.
    cbn [app map concat] in Hshift. rewrite app_nil_r in Hshift.
    rewrite (Hshift Hn), up_to_first_cons.
    cbn [map concat] in Hsize, Hc, HN, Hn, Hf.
    specialize (IH ltac:(lia) ltac:(lia) ltac:(lia)).
    destruct (bad c); by injection IH as -> ->.
Qed.

(** X21. When the children selector raises on some nodes of a tree,
    [traverse_depth_first] yields the nodes in pre-order up to the first
    node the selector fails on, that node included, and then raises the
    selector's exception (a StopIteration as RuntimeError); the nodes
    before it are those of a traversal without the fault.  This holds for
    any children selector, whether it returns the children of a node as a
    list or as an iterator object, as long as no iterator object is
    returned for two nodes, and whichever exception it raises on a
    node. *)
Theorem traverse_depth_first_stops_at_failing_selector (root : tree V) w k1 k2 :
  (materialize (S (length (preorder root)) + k1) (S (length (preorder root)) + k2)
     (traverse_depth_first root (failing_at bad e)) w).1
  = (up_to_first bad (preorder root), ending_on bad e (preorder root))
  ∧ (∀ (A : Type) (t : tree A) (children_selector : A → returns (iterable A))
       (w : world A) k1 k2,
       reaches children_selector w [t] →
       NoDup (child_regs children_selector (preorder t)) →
       (materialize (S (length (preorder t)) + k1) (S (length (preorder t)) + k2)
          (traverse_depth_first (label t) children_selector) w).1
       = (label <$> up_to_first (raises_on children_selector) (preorder t),
          ending_of (first_fault children_selector (preorder t)))).
Proof.
  split; [|intros A t children_selector w0 k1' k2';
           apply df_materialize_reaches].
  unfold materialize, traverse_depth_first. munfold.
  change (S (length (preorder root)) + k2)
    with (S (length (preorder root) + k2)).
  remember (S (length (preorder root)) + k1) as fuel eqn:Hfuel.
  remember (length (preorder root) + k2) as N eqn:HN.
  simpl. unfold next_. simpl.
  set (g := DfFrame root (failing_at bad e) TrStart).
  pose proof (df_traverse_failing g eq_refl N root [] w fuel) as E.
  unfold df_goto in E. simpl in E.
  destruct (traverse fuel N _ w) as [[xs en] w']. simpl in E |- *.
  rewrite (preorder_unfold root), up_to_first_cons.
  rewrite !app_nil_r in E.
  assert (Hsize : length (concat (map preorder (children root))) + 1
                  = length (preorder root)).
  { rewrite (preorder_unfold root). simpl. lia. }
  specialize (E ltac:(lia) ltac:(lia)).
  destruct (bad root); by injection E as -> ->.
Qed.

(** X22. When the children selector raises on some nodes of a tree,
    [traverse_breath_first] yields the nodes level by level up to the
    first node the selector fails on, that node included, and then raises
    the selector's exception (a StopIteration as RuntimeError).  This
    holds for any children selector, whether it returns the children of a
    node as a list or as an iterator object, as long as no iterator object
    is returned for two nodes, and whichever exception it raises on a
    node. *)
Theorem traverse_breath_first_stops_at_failing_selector (root : tree V) w k1 k2 :
  (materialize (S (length (preorder root)) + k1) (S (length (preorder root)) + k2)
     (traverse_breath_first root (failing_at bad e)) w).1
  = (up_to_first bad (breadth_first root), ending_on bad e (breadth_first root))
  ∧ (∀ (A : Type) (t : tree A) (children_selector : A → returns (iterable A))
       (w : world A) k1 k2,
       reaches children_selector w [t] →
       NoDup (child_regs children_selector (preorder t)) →
       (materialize (S (length (preorder t)) + k1) (S (length (preorder t)) + k2)
          (traverse_breath_first (label t) children_selector) w).1
       = (label <$> up_to_first (raises_on children_selector) (breadth_first t),
          ending_of (first_fault children_selector (breadth_first t)))).
Proof.
  split; [|intros A t children_selector w0 k1' k2';
           apply bf_materialize_reaches].
  unfold materialize, traverse_breath_first. munfold.
  change (S (length (preorder root)) + k2)
    with (S (length (preorder root) + k2)).
  remember (S (length (preorder root)) + k1) as fuel eqn:Hfuel.
  remember (length (preorder root) + k2) as N eqn:HN.
  simpl. unfold next_. simpl.
  set (g := BfFrame root (failing_at bad e) TrStart).
  assert (Hsize : length (concat (map preorder (children root))) + 1
                  = length (preorder root)).
  { rewrite (preorder_unfold root). simpl. lia. }
  pose proof (bf_traverse_failing g eq_refl N root [] w fuel
                (length (preorder root))) as E.
  unfold bf_goto in E. simpl in E.
  destruct (traverse fuel N _ w) as [[xs en] w']. simpl in E |- *.
  unfold breadth_first.
  pose proof (level_order_shift (length (preorder root)) [root] []) as Hshift.
  cbn [app map concat] in Hshift. rewrite !app_nil_r in Hshift.
  rewrite Hshift by lia. rewrite up_to_first_cons.
  rewrite !app_nil_r in E.
  specialize (E ltac:(lia) ltac:(lia) ltac:(lia)).
  destruct (bad root); by injection E as -> ->.
Qed.
End TraversalFault.
